(** * Ginzburg-Landau simulation: solver, defect injector and hue mapping

    A shallow embedding of [src/main.ts] (class [GinzburgLandauSimulation]).

    Numbers.  A JavaScript number that the program only uses as an integer
    (grid sizes, loop counters, array indices) is a [Z]; every other number
    is a real [R].  The cells of a [Float32Array] are reals as well: the
    rounding of IEEE arithmetic and of the 32-bit store is not part of the
    model, so every equation below is an equation of exact arithmetic.
    Two modules further down leave this model where a statement needs it:
    [Ieee] gives the injector with the rounding of the program, [Signed]
    the renderer on cells with a signed zero.

    Arrays.  A [Float32Array] is a [list R] of fixed length.  A write
    outside the array is ignored, as for a typed array.  A read outside the
    array gives [undefined] in JavaScript; here it gives [0], and lemmas
    [cell_index_in_range] and [stencil_reads_in_range] show that under the
    shape invariant no read of the loops below is outside the array.

    Math.random.  The functions that draw random numbers take the sequence
    of draws of the call as an argument [random : nat -> R]. *)

From Stdlib Require Import ZArith Reals Lra Lia Psatz.
From stdpp Require Import base tactics list.

Open Scope Z_scope.

(** ** JavaScript numbers *)

Module Js.

(** Truncation toward zero of a real number. *)
Definition trunc (r : R) : Z :=
if Rle_dec 0 r then Int_part r else - Int_part (- r).

(** [a % b] on numbers: the remainder takes the sign of the dividend. *)
Definition rem (a b : R) : R := (a - b * IZR (trunc (a / b)))%R.

(** [Math.atan2(y, x)], with values in (-PI, PI]. *)
Definition atan2 (y x : R) : R :=
if Rlt_dec 0 x then atan (y / x)
else if Rlt_dec x 0 then
  if Rle_dec 0 y then (atan (y / x) + PI)%R else (atan (y / x) - PI)%R
else if Rlt_dec 0 y then (PI / 2)%R
else if Rlt_dec y 0 then (- PI / 2)%R
else 0%R.

(** [Math.ceil(a / b)] for integers [a] and [b]. *)
Definition ceil_div (a b : Z) : Z := - ((- a) / b).

End Js.

(** ** Typed arrays *)

(** [new Float32Array(n)]: [n] cells, all zero. *)
Definition new_Float32Array (n : Z) : list R := replicate (Z.to_nat n) 0%R.

(** [a[i]] *)
Definition get (a : list R) (i : Z) : R :=
  if i <? 0 then 0%R else nth (Z.to_nat i) a 0%R.

(** [a[i] = x] *)
Definition set (a : list R) (i : Z) (x : R) : list R :=
  if i <? 0 then a else <[Z.to_nat i := x]> a.

(** [a.length] *)
Definition len (a : list R) : Z := Z.of_nat (length a).

(** [for (let i = 0; i < n; i++) body] over a state of type [S]. *)
Definition for_range {S : Type} (n : Z) (body : Z -> S -> S) (s : S) : S :=
  foldl (fun s i => body (Z.of_nat i) s) s (seq 0 (Z.to_nat n)).

(** ** The simulation object *)

Record Sim := mkSim {
  gridSizeX : Z;
  gridSizeY : Z;
  cellWidth : R;
  cellHeight : R;
  targetCellSize : Z;
  u : list R;
  v : list R;
  uNext : list R;
  vNext : list R;
  diffusion : R;
  dt : R;
  noiseLevel : R;
  nextWinding : R
}.

Definition with_u (a : list R) (this : Sim) : Sim :=
  mkSim (gridSizeX this) (gridSizeY this) (cellWidth this) (cellHeight this)
    (targetCellSize this) a (v this) (uNext this) (vNext this)
    (diffusion this) (dt this) (noiseLevel this) (nextWinding this).

Definition with_v (a : list R) (this : Sim) : Sim :=
  mkSim (gridSizeX this) (gridSizeY this) (cellWidth this) (cellHeight this)
    (targetCellSize this) (u this) a (uNext this) (vNext this)
    (diffusion this) (dt this) (noiseLevel this) (nextWinding this).

Definition with_uNext (a : list R) (this : Sim) : Sim :=
  mkSim (gridSizeX this) (gridSizeY this) (cellWidth this) (cellHeight this)
    (targetCellSize this) (u this) (v this) a (vNext this)
    (diffusion this) (dt this) (noiseLevel this) (nextWinding this).

Definition with_vNext (a : list R) (this : Sim) : Sim :=
  mkSim (gridSizeX this) (gridSizeY this) (cellWidth this) (cellHeight this)
    (targetCellSize this) (u this) (v this) (uNext this) a
    (diffusion this) (dt this) (noiseLevel this) (nextWinding this).

Definition with_nextWinding (n : R) (this : Sim) : Sim :=
  mkSim (gridSizeX this) (gridSizeY this) (cellWidth this) (cellHeight this)
    (targetCellSize this) (u this) (v this) (uNext this) (vNext this)
    (diffusion this) (dt this) (noiseLevel this) n.

Definition with_grid (gx gy : Z) (cw ch : R) (this : Sim) : Sim :=
  mkSim gx gy cw ch
    (targetCellSize this) (u this) (v this) (uNext this) (vNext this)
    (diffusion this) (dt this) (noiseLevel this) (nextWinding this).

(** ** The solver: [updatePhysics] *)

(** The four neighbour indices of cell [(x, y)], lines 275-278. *)
Definition leftIndex (w x y : Z) : Z := y * w + Z.rem (x - 1 + w) w.
Definition rightIndex (w x y : Z) : Z := y * w + Z.rem (x + 1) w.
Definition upIndex (w h x y : Z) : Z := Z.rem (y - 1 + h) h * w + x.
Definition downIndex (w h x y : Z) : Z := Z.rem (y + 1) h * w + x.

(** [laplacianU] and [laplacianV], lines 275-287: the same expression, once
    on [this.u] and once on [this.v]. *)
Definition laplacian (a : list R) (w h x y : Z) : R :=
  let left := get a (leftIndex w x y) in
  let right := get a (rightIndex w x y) in
  let up := get a (upIndex w h x y) in
  let down := get a (downIndex w h x y) in
  (left + right + up + down - 4 * get a (y * w + x))%R.

(** The body of the solver loop, lines 269-297. *)
Definition solverCell (w h x y : Z) (this : Sim) : Sim :=
  let i := y * w + x in
  let u_ := get (u this) i in
  let v_ := get (v this) i in
  let laplacianU := laplacian (u this) w h x y in
  let laplacianV := laplacian (v this) w h x y in
  let magSq := (u_ * u_ + v_ * v_)%R in
  let reaction := (1 - magSq)%R in
  let this :=
    with_uNext
      (set (uNext this) i
         (u_ + dt this * (diffusion this * laplacianU + u_ * reaction))%R)
      this in
  with_vNext
    (set (vNext this) i
       (v_ + dt this * (diffusion this * laplacianV + v_ * reaction))%R)
    this.

(** The body of the noise loop, lines 261-262. *)
Definition noiseCell (random : nat -> R) (noiseScale : R) (i : Z)
    (this : Sim) : Sim :=
  let k := Z.to_nat i in
  let this :=
    with_u (set (u this) i
              (get (u this) i + (random (2 * k)%nat - 0.5) * noiseScale)%R)
      this in
  with_v (set (v this) i
            (get (v this) i + (random (2 * k + 1)%nat - 0.5) * noiseScale)%R)
    this.

(** The swap of lines 302-308. *)
Definition swapBuffers (this : Sim) : Sim :=
  let tempU := u this in
  let this := with_uNext tempU (with_u (uNext this) this) in
  let tempV := v this in
  with_vNext tempV (with_v (vNext this) this).

Definition updatePhysics (random : nat -> R) (this : Sim) : Sim :=
  let w := gridSizeX this in
  let h := gridSizeY this in
  let size := w * h in
  let this :=
    if Rgt_dec (noiseLevel this) 0 then
      let noiseScale := (noiseLevel this * 0.1)%R in
      for_range size (noiseCell random noiseScale) this
    else this in
  let this :=
    for_range h (fun y => for_range w (fun x => solverCell w h x y)) this in
  swapBuffers this.

(** ** Grid life cycle: [setupCanvas] and [initializeGrid] *)

(** The body of the seeding loop, lines 165-168. *)
Definition seedCell (random : nat -> R) (i : Z) (this : Sim) : Sim :=
  let k := Z.to_nat i in
  let angle := (random (2 * k)%nat * 2 * PI)%R in
  let mag := (0.1 + random (2 * k + 1)%nat * 0.1)%R in
  let this := with_u (set (u this) i (mag * cos angle)%R) this in
  with_v (set (v this) i (mag * sin angle)%R) this.

Definition initializeGrid (random : nat -> R) (this : Sim) : Sim :=
  for_range (len (u this)) (seedCell random) this.

(** Step 4 of [setupCanvas], lines 149-153: four fresh arrays of
    [gridSizeX * gridSizeY] zero cells. *)
Definition allocate (this : Sim) : Sim :=
  let totalCells := gridSizeX this * gridSizeY this in
  let this := with_u (new_Float32Array totalCells) this in
  let this := with_v (new_Float32Array totalCells) this in
  let this := with_uNext (new_Float32Array totalCells) this in
  with_vNext (new_Float32Array totalCells) this.

(** How a call ends: normally, or by a thrown exception; in both cases with
    the object as the call left it. *)
Inductive completion : Type :=
  | Normal (this : Sim)
  | Thrown (this : Sim).

(** [setupCanvas], lines 124-156.  [container] is the element
    ["simulation-container"], as its [clientWidth] and [clientHeight], or
    [None] when the document has no such element.  Of the canvas calls only
    one decides what happens to the object: [createImageData] throws an
    [IndexSizeError] when one of its two arguments is zero. *)
Definition setupCanvas (container : option (Z * Z)) (random : nat -> R)
    (this : Sim) : completion :=
  match container with
  | None => Normal this
  | Some (clientWidth, clientHeight) =>
    let canvas_width := clientWidth in
    let canvas_height := clientHeight in
    let safeCellSize := Z.max 2 (targetCellSize this) in
    let gx := Js.ceil_div canvas_width safeCellSize in
    let gy := Js.ceil_div canvas_height safeCellSize in
    let this :=
      with_grid gx gy (IZR canvas_width / IZR gx)%R
        (IZR canvas_height / IZR gy)%R this in
    if (gridSizeX this =? 0) || (gridSizeY this =? 0) then Thrown this
    else
      let this := allocate this in
      Normal (initializeGrid random this)
  end.

(** ** The defect injector: [imprintSingleVortex] *)

(** Lines 215-216 (and 217-218): the shortest displacement on a circle of
    [n] cells. *)
Definition shortest (d1 : R) (n : Z) : R :=
  let d1 := if Rgt_dec d1 (IZR n / 2) then (d1 - IZR n)%R else d1 in
  if Rlt_dec d1 (- IZR n / 2) then (d1 + IZR n)%R else d1.

(** Lines 213-218: the displacement from the centre to cell [(x, y)]. *)
Definition dx1 (w : Z) (x1 : R) (x : Z) : R := shortest (IZR x - x1) w.
Definition dy1 (h : Z) (y1 : R) (y : Z) : R := shortest (IZR y - y1) h.

(** Lines 229-231. *)
Definition dist1 (dx dy : R) : R := sqrt (dx * dx + dy * dy).
Definition coreProfile (dist : R) : R := Rmin 1.0 (dist / 4.0).
Definition softProfile (dist : R) : R := (0.2 + 0.8 * tanh (coreProfile dist))%R.

(** The body of the injector loop, lines 206-242. *)
Definition imprintCell (w h : Z) (x1 y1 winding : R) (x y : Z)
    (this : Sim) : Sim :=
  let idx := y * w + x in
  let u_ := get (u this) idx in
  let v_ := get (v this) idx in
  let dx := dx1 w x1 x in
  let dy := dy1 h y1 y in
  let ang1 := Js.atan2 dy dx in
  let deltaPhase := (ang1 * winding)%R in
  let soft := softProfile (dist1 dx dy) in
  let cosP := cos deltaPhase in
  let sinP := sin deltaPhase in
  let uNew := (u_ * cosP - v_ * sinP)%R in
  let vNew := (u_ * sinP + v_ * cosP)%R in
  let this := with_u (set (u this) idx (uNew * soft)%R) this in
  with_v (set (v this) idx (vNew * soft)%R) this.

Definition imprintSingleVortex (cx cy winding : R) (this : Sim) : Sim :=
  let w := gridSizeX this in
  let h := gridSizeY this in
  let x1 := Js.rem (cx + IZR w) (IZR w) in
  let y1 := Js.rem (cy + IZR h) (IZR h) in
  for_range h (fun y => for_range w (fun x => imprintCell w h x1 y1 winding x y))
    this.

(** [spawnVortex], lines 179-189. *)
Definition spawnVortex (screenX screenY : R) (this : Sim) : Sim :=
  let cx := (screenX / cellWidth this)%R in
  let cy := (screenY / cellHeight this)%R in
  let this := imprintSingleVortex cx cy (nextWinding this) this in
  with_nextWinding (nextWinding this * -1)%R this.

(** ** The colour of a cell: [draw], lines 324-337 *)

Definition mag (u_ v_ : R) : R := sqrt (u_ * u_ + v_ * v_).

(** Line 332, as a function of the phase angle. *)
Definition hue (angle : R) : R := Js.rem (angle * 180 / PI + 360) 360.

Definition cellHue (u_ v_ : R) : R := hue (Js.atan2 v_ u_).

Definition lightness (u_ v_ : R) : R := (Rmin 1.0 (mag u_ v_) * 50)%R.

(** The magnitude and the phase of cell [(x, y)] of the field. *)
Definition magAt (this : Sim) (x y : Z) : R :=
  let i := y * gridSizeX this + x in mag (get (u this) i) (get (v this) i).

Definition phaseAt (this : Sim) (x y : Z) : R :=
  let i := y * gridSizeX this + x in
  Js.atan2 (get (v this) i) (get (u this) i).


(** ** The shape of the buffers *)

(** The four arrays have one cell per cell of the grid. *)
Definition shape (this : Sim) : Prop :=
  len (u this) = gridSizeX this * gridSizeY this /\
  len (v this) = gridSizeX this * gridSizeY this /\
  len (uNext this) = gridSizeX this * gridSizeY this /\
  len (vNext this) = gridSizeX this * gridSizeY this.

(** [same_settings s t]: [t] has the grid sizes and the parameters of [s]. *)
Definition same_settings (s t : Sim) : Prop :=
  gridSizeX t = gridSizeX s /\ gridSizeY t = gridSizeY s /\
  cellWidth t = cellWidth s /\ cellHeight t = cellHeight s /\
  targetCellSize t = targetCellSize s /\
  diffusion t = diffusion s /\ dt t = dt s /\
  noiseLevel t = noiseLevel s /\ nextWinding t = nextWinding s.

(** [same_lengths s t]: array by array, [t] has the lengths of [s]. *)
Definition same_lengths (s t : Sim) : Prop :=
  len (u t) = len (u s) /\ len (v t) = len (v s) /\
  len (uNext t) = len (uNext s) /\ len (vNext t) = len (vNext s).

(** What the solver loop of a step from [s] leaves alone: the current
    field, the settings and the lengths of the next buffers. *)
Definition solver_frame (s t : Sim) : Prop :=
  u t = u s /\ v t = v s /\ same_settings s t /\ same_lengths s t.

(** The two values that [solverCell] writes for cell [(x, y)] in a step
    from [s]. *)
Definition nextU (s : Sim) (x y : Z) : R :=
  let w := gridSizeX s in
  let h := gridSizeY s in
  let i := y * w + x in
  let u_ := get (u s) i in
  let v_ := get (v s) i in
  (u_ + dt s * (diffusion s * laplacian (u s) w h x y
                + u_ * (1 - (u_ * u_ + v_ * v_))))%R.

Definition nextV (s : Sim) (x y : Z) : R :=
  let w := gridSizeX s in
  let h := gridSizeY s in
  let i := y * w + x in
  let u_ := get (u s) i in
  let v_ := get (v s) i in
  (v_ + dt s * (diffusion s * laplacian (v s) w h x y
                + v_ * (1 - (u_ * u_ + v_ * v_))))%R.

(** ** The equations of the specification *)

Module Spec.

(** The cell [(x, y)] of a [w] by [h] torus, for any integers [x] and [y]:
    the indices are wrapped modulo [w] and [h]. *)
Definition cell (a : list R) (w h x y : Z) : R :=
  get a ((y mod h) * w + x mod w).

(** The discrete Laplacian: left + right + up + down - 4 * center. *)
Definition Laplacian (a : list R) (w h x y : Z) : R :=
  (cell a w h (x - 1) y + cell a w h (x + 1) y
   + cell a w h x (y - 1) + cell a w h x (y + 1)
   - 4 * cell a w h x y)%R.

(** One component of psi + dt * (D * Laplacian(psi) + psi * (1 - |psi|^2)),
    where [psi] is that component and [re], [im] are both. *)
Definition euler (D dt_ lap psi re im : R) : R :=
  (psi + dt_ * (D * lap + psi * (1 - (re * re + im * im))))%R.

(** [m'] is within 5% of [m]. *)
Definition within_5_percent (m' m : R) : Prop :=
  (Rabs (m' - m) <= 0.05 * m)%R.

End Spec.

(** ** Fields and runs used by the scenarios *)

(** A simulation with the program's initial settings on a [w] by [h] grid
    whose cells all hold [re + i im]; the next buffers are as allocated. *)
Definition uniform (w h : Z) (re im : R) : Sim :=
  {| gridSizeX := w; gridSizeY := h; cellWidth := 1; cellHeight := 1;
     targetCellSize := 12;
     u := replicate (Z.to_nat (w * h)) re;
     v := replicate (Z.to_nat (w * h)) im;
     uNext := new_Float32Array (w * h);
     vNext := new_Float32Array (w * h);
     diffusion := 0.5; dt := 0.2; noiseLevel := 0; nextWinding := 1 |}.

(** The same with every cell zero except cell [(x0, y0)]. *)
Definition single (w h x0 y0 : Z) (re im : R) : Sim :=
  let s := uniform w h 0 0 in
  with_v (set (v s) (y0 * w + x0) im) (with_u (set (u s) (y0 * w + x0) re) s).

(** The field of [s] is zero except at cell [(x0, y0)], where it is not. *)
Definition only_cell (s : Sim) (x0 y0 : Z) : Prop :=
  let p := y0 * gridSizeX s + x0 in
  (get (u s) p <> 0%R \/ get (v s) p <> 0%R) /\
  forall i, i <> p -> get (u s) i = 0%R /\ get (v s) i = 0%R.

(** The field of [s] is not zero at cell [(x, y)]. *)
Definition nonzero_at (s : Sim) (x y : Z) : Prop :=
  let i := y * gridSizeX s + x in
  get (u s) i <> 0%R \/ get (v s) i <> 0%R.

(** The calls that the frame loop and the pointer handlers make on an
    allocated simulation. *)
Inductive call : Type :=
  | Step (random : nat -> R)
  | Imprint (cx cy winding : R)
  | Spawn (screenX screenY : R)
  | Seed (random : nat -> R).

Definition perform (c : call) (this : Sim) : Sim :=
  match c with
  | Step random => updatePhysics random this
  | Imprint cx cy winding => imprintSingleVortex cx cy winding this
  | Spawn screenX screenY => spawnVortex screenX screenY this
  | Seed random => initializeGrid random this
  end.

Definition run (cs : list call) (this : Sim) : Sim :=
  foldl (fun s c => perform c s) this cs.

(** The two values that [imprintCell] writes for cell [(x, y)], whose
    value before the write is [u_ + i v_]. *)
Definition imprintU (w h : Z) (x1 y1 winding : R) (x y : Z) (u_ v_ : R) : R :=
  let dx := dx1 w x1 x in
  let dy := dy1 h y1 y in
  let deltaPhase := (Js.atan2 dy dx * winding)%R in
  ((u_ * cos deltaPhase - v_ * sin deltaPhase) * softProfile (dist1 dx dy))%R.

Definition imprintV (w h : Z) (x1 y1 winding : R) (x y : Z) (u_ v_ : R) : R :=
  let dx := dx1 w x1 x in
  let dy := dy1 h y1 y in
  let deltaPhase := (Js.atan2 dy dx * winding)%R in
  ((u_ * sin deltaPhase + v_ * cos deltaPhase) * softProfile (dist1 dx dy))%R.

(** The distance from the centre to cell [(x, y)] that
    [imprintSingleVortex cx cy _ s] computes, lines 200-229. *)
Definition distance (s : Sim) (cx cy : R) (x y : Z) : R :=
  let w := gridSizeX s in
  let h := gridSizeY s in
  let x1 := Js.rem (cx + IZR w) (IZR w) in
  let y1 := Js.rem (cy + IZR h) (IZR h) in
  dist1 (dx1 w x1 x) (dy1 h y1 y).

(** What the injector loop of a call on [s] leaves alone: the next buffers,
    the settings and the lengths of the arrays. *)
Definition imprint_frame (s t : Sim) : Prop :=
  uNext t = uNext s /\ vNext t = vNext s /\
  same_settings s t /\ same_lengths s t.

(** While the injector loop of a call on [s] runs, the cells of index below
    [k] hold their new value and the others their old one. *)
Definition imprint_upto (s : Sim) (x1 y1 winding : R) (k : Z) (t : Sim) : Prop :=
  let w := gridSizeX s in
  let h := gridSizeY s in
  imprint_frame s t /\
  (forall x y, 0 <= x < w -> 0 <= y < h -> y * w + x < k ->
     get (u t) (y * w + x) =
       imprintU w h x1 y1 winding x y
         (get (u s) (y * w + x)) (get (v s) (y * w + x)) /\
     get (v t) (y * w + x) =
       imprintV w h x1 y1 winding x y
         (get (u s) (y * w + x)) (get (v s) (y * w + x))) /\
  (forall i, k <= i -> get (u t) i = get (u s) i /\ get (v t) i = get (v s) i).

(** * More of the program: noise, symmetries, seeding, colours, events *)

(** ** The solver once more *)

(** The field that the stencil of [updatePhysics random s] reads: [s] after
    the noise loop of lines 258-264, or [s] itself when the noise is off. *)
Definition afterNoise (random : nat -> R) (s : Sim) : Sim :=
  if Rgt_dec (noiseLevel s) 0 then
    for_range (gridSizeX s * gridSizeY s)
      (noiseCell random (noiseLevel s * 0.1)%R) s
  else s.

(** The perturbation that the noise loop adds to the real and to the
    imaginary part of cell [i]. *)
Definition noiseU (random : nat -> R) (s : Sim) (i : Z) : R :=
  ((random (2 * Z.to_nat i)%nat - 0.5) * (noiseLevel s * 0.1))%R.

Definition noiseV (random : nat -> R) (s : Sim) (i : Z) : R :=
  ((random (2 * Z.to_nat i + 1)%nat - 0.5) * (noiseLevel s * 0.1))%R.

(** Every cell of the field multiplied by [cos theta + i sin theta]. *)
Definition rotate (theta : R) (s : Sim) : Sim :=
  with_v (zip_with (fun a b => a * sin theta + b * cos theta)%R (u s) (v s))
    (with_u (zip_with (fun a b => a * cos theta - b * sin theta)%R (u s) (v s))
       s).

(** The array whose cell [i] is cell [f i] of [a]. *)
Definition remap (f : Z -> Z) (a : list R) : list R :=
  map (fun k => get a (f (Z.of_nat k))) (seq 0 (length a)).

(** The index of the cell that lies [dx] columns to the left of and [dy]
    rows above cell [i] on the torus. *)
Definition shiftIndex (w h dx dy i : Z) : Z :=
  ((i / w - dy) mod h) * w + (i mod w - dx) mod w.

(** The field moved by [dx] columns and [dy] rows around the torus. *)
Definition translate (dx dy : Z) (s : Sim) : Sim :=
  let f := shiftIndex (gridSizeX s) (gridSizeY s) dx dy in
  with_v (remap f (v s)) (with_u (remap f (u s)) s).

(** [s] with other next buffers. *)
Definition with_next (a b : list R) (s : Sim) : Sim :=
  with_vNext b (with_uNext a s).

(** The value of the quiet step of [s] at the torus cell [(x, y)], for any
    integers [x] and [y], in the words of the specification. *)
Definition specNextU (s : Sim) (x y : Z) : R :=
  let w := gridSizeX s in
  let h := gridSizeY s in
  Spec.euler (diffusion s) (dt s) (Spec.Laplacian (u s) w h x y)
    (Spec.cell (u s) w h x y) (Spec.cell (u s) w h x y) (Spec.cell (v s) w h x y).

Definition specNextV (s : Sim) (x y : Z) : R :=
  let w := gridSizeX s in
  let h := gridSizeY s in
  Spec.euler (diffusion s) (dt s) (Spec.Laplacian (v s) w h x y)
    (Spec.cell (v s) w h x y) (Spec.cell (u s) w h x y) (Spec.cell (v s) w h x y).

(** The number of [Spawn] calls in a sequence of calls. *)
Fixpoint spawns (cs : list call) : nat :=
  match cs with
  | [] => 0
  | Spawn _ _ :: cs => Datatypes.S (spawns cs)
  | _ :: cs => spawns cs
  end.

(** The angle and the magnitude that [seedCell] draws for cell [i]. *)
Definition seedAngle (random : nat -> R) (i : Z) : R :=
  (random (2 * Z.to_nat i)%nat * 2 * PI)%R.

Definition seedMag (random : nat -> R) (i : Z) : R :=
  (0.1 + random (2 * Z.to_nat i + 1)%nat * 0.1)%R.

(** ** Colours: [hslToRgb], [hue2rgb] and the pixel loop of [draw] *)

(** [Math.round]: the nearest integer, halves rounded up. *)
Definition round (x : R) : Z := Int_part (x + 0.5).

(** [hue2rgb], lines 380-387. *)
Definition hue2rgb (p q t : R) : R :=
  let t := if Rlt_dec t 0 then (t + 1)%R else t in
  let t := if Rgt_dec t 1 then (t - 1)%R else t in
  if Rlt_dec t (1 / 6) then (p + (q - p) * 6 * t)%R
  else if Rlt_dec t (1 / 2) then q
  else if Rlt_dec t (2 / 3) then (p + (q - p) * (2 / 3 - t) * 6)%R
  else p.

(** [hslToRgb], lines 366-378. *)
Definition hslToRgb (h s l : R) : Z * Z * Z :=
  let '(r, g, b) :=
    if Req_dec_T s 0 then (l, l, l)
    else
      let q := if Rlt_dec l 0.5 then (l * (1 + s))%R else (l + s - l * s)%R in
      let p := (2 * l - q)%R in
      (hue2rgb p q (h + 1 / 3), hue2rgb p q h, hue2rgb p q (h - 1 / 3)) in
  (round (r * 255), round (g * 255), round (b * 255)).

(** A store into a [Uint8ClampedArray] of a number that is an integer: the
    value is clamped to 0..255; a store outside the array is ignored. *)
Definition set8 (data : list Z) (i : Z) (x : Z) : list Z :=
  if i <? 0 then data else <[Z.to_nat i := Z.max 0 (Z.min 255 x)]> data.

(** [data[i]] *)
Definition get8 (data : list Z) (i : Z) : Z :=
  if i <? 0 then 0 else nth (Z.to_nat i) data 0.

(** The body of the pixel loop, lines 324-346. *)
Definition drawCell (this : Sim) (i : Z) (data : list Z) : list Z :=
  let u_ := get (u this) i in
  let v_ := get (v this) i in
  let magSq := (u_ * u_ + v_ * v_)%R in
  let mag := sqrt magSq in
  let angle := Js.atan2 v_ u_ in
  let hue := Js.rem (angle * 180 / PI + 360) 360 in
  let lightness := (Rmin 1.0 mag * 50)%R in
  let '(r, g, b) := hslToRgb (hue / 360) 1.0 (lightness / 100) in
  let pxIndex := i * 4 in
  let data := set8 data pxIndex r in
  let data := set8 data (pxIndex + 1) g in
  let data := set8 data (pxIndex + 2) b in
  set8 data (pxIndex + 3) 255.

(** The part of [draw] that fills the image data, lines 317-347;
    [offscreenImageData] is the pixel array of the image, or [None] before
    the first [setupCanvas]. *)
Definition draw (offscreenImageData : option (list Z)) (this : Sim)
    : option (list Z) :=
  match offscreenImageData with
  | None => None
  | Some data => Some (for_range (len (u this)) (drawCell this) data)
  end.

(** The three colour channels that [drawCell] computes for a cell. *)
Definition pixel (u_ v_ : R) : Z * Z * Z :=
  hslToRgb (cellHue u_ v_ / 360) 1.0 (lightness u_ v_ / 100).

(** ** The application: frames, sliders and pointer events *)

(** The simulation object together with the fields of the class that the
    event handlers and the frame loop use.  [alerts] counts the calls of
    [alert]. *)
Record App := mkApp {
  sim : Sim;
  offscreenImageData : option (list Z);
  frameCount : Z;
  isPaused : bool;
  simulationSpeed : Z;
  isMouseDownOnCanvas : bool;
  lastSpawnPos : R * R;
  hasShownEpilepsyWarning : bool;
  isDraggingPanel : bool;
  alerts : nat
}.

Definition with_sim (s : Sim) (app : App) : App :=
  mkApp s (offscreenImageData app) (frameCount app) (isPaused app)
    (simulationSpeed app) (isMouseDownOnCanvas app) (lastSpawnPos app)
    (hasShownEpilepsyWarning app) (isDraggingPanel app) (alerts app).

Definition with_image (d : option (list Z)) (app : App) : App :=
  mkApp (sim app) d (frameCount app) (isPaused app)
    (simulationSpeed app) (isMouseDownOnCanvas app) (lastSpawnPos app)
    (hasShownEpilepsyWarning app) (isDraggingPanel app) (alerts app).

Definition with_frameCount (n : Z) (app : App) : App :=
  mkApp (sim app) (offscreenImageData app) n (isPaused app)
    (simulationSpeed app) (isMouseDownOnCanvas app) (lastSpawnPos app)
    (hasShownEpilepsyWarning app) (isDraggingPanel app) (alerts app).

Definition with_isPaused (b : bool) (app : App) : App :=
  mkApp (sim app) (offscreenImageData app) (frameCount app) b
    (simulationSpeed app) (isMouseDownOnCanvas app) (lastSpawnPos app)
    (hasShownEpilepsyWarning app) (isDraggingPanel app) (alerts app).

Definition with_simulationSpeed (n : Z) (app : App) : App :=
  mkApp (sim app) (offscreenImageData app) (frameCount app) (isPaused app)
    n (isMouseDownOnCanvas app) (lastSpawnPos app)
    (hasShownEpilepsyWarning app) (isDraggingPanel app) (alerts app).

Definition with_isMouseDownOnCanvas (b : bool) (app : App) : App :=
  mkApp (sim app) (offscreenImageData app) (frameCount app) (isPaused app)
    (simulationSpeed app) b (lastSpawnPos app)
    (hasShownEpilepsyWarning app) (isDraggingPanel app) (alerts app).

Definition with_lastSpawnPos (c : R * R) (app : App) : App :=
  mkApp (sim app) (offscreenImageData app) (frameCount app) (isPaused app)
    (simulationSpeed app) (isMouseDownOnCanvas app) c
    (hasShownEpilepsyWarning app) (isDraggingPanel app) (alerts app).

Definition with_hasShownEpilepsyWarning (b : bool) (app : App) : App :=
  mkApp (sim app) (offscreenImageData app) (frameCount app) (isPaused app)
    (simulationSpeed app) (isMouseDownOnCanvas app) (lastSpawnPos app)
    b (isDraggingPanel app) (alerts app).

Definition with_isDraggingPanel (b : bool) (app : App) : App :=
  mkApp (sim app) (offscreenImageData app) (frameCount app) (isPaused app)
    (simulationSpeed app) (isMouseDownOnCanvas app) (lastSpawnPos app)
    (hasShownEpilepsyWarning app) b (alerts app).

(** [alert(...)] *)
Definition alert (app : App) : App :=
  mkApp (sim app) (offscreenImageData app) (frameCount app) (isPaused app)
    (simulationSpeed app) (isMouseDownOnCanvas app) (lastSpawnPos app)
    (hasShownEpilepsyWarning app) (isDraggingPanel app)
    (Datatypes.S (alerts app)).

Definition with_targetCellSize (n : Z) (this : Sim) : Sim :=
  mkSim (gridSizeX this) (gridSizeY this) (cellWidth this) (cellHeight this)
    n (u this) (v this) (uNext this) (vNext this)
    (diffusion this) (dt this) (noiseLevel this) (nextWinding this).

Definition with_noiseLevel (x : R) (this : Sim) : Sim :=
  mkSim (gridSizeX this) (gridSizeY this) (cellWidth this) (cellHeight this)
    (targetCellSize this) (u this) (v this) (uNext this) (vNext this)
    (diffusion this) (dt this) x (nextWinding this).

(** [setupCanvas] with its image data, lines 124-156: when it completes for
    a container, [createImageData] has given a fresh image of four zero
    entries per cell; when it throws, the image is the old one. *)
Definition appSetupCanvas (container : option (Z * Z)) (random : nat -> R)
    (app : App) : App :=
  match setupCanvas container random (sim app) with
  | Normal s =>
    match container with
    | None => app
    | Some _ =>
      with_image
        (Some (replicate (Z.to_nat (4 * (gridSizeX s * gridSizeY s))) 0))
        (with_sim s app)
    end
  | Thrown s => with_sim s app
  end.

(** One run of [animate], lines 390-403, up to the request for the next
    frame; [random k] are the draws of the step number [k] of the frame. *)
Definition animate (random : nat -> nat -> R) (app : App) : App :=
  if negb (isPaused app) then
    let app :=
      for_range (simulationSpeed app)
        (fun i app =>
           let app :=
             with_sim (updatePhysics (random (Z.to_nat i)) (sim app)) app in
           with_frameCount (frameCount app + 1) app)
        app in
    with_image (draw (offscreenImageData app) (sim app)) app
  else app.

(** [Math.hypot] of two numbers. *)
Definition hypot (a b : R) : R := sqrt (a * a + b * b).

(** The canvas listener for [mousedown], lines 461-470; [coords] is the
    result of [getCanvasCoordinates]. *)
Definition canvasMouseDown (coords : option (R * R)) (app : App) : App :=
  if negb (isDraggingPanel app) then
    let app := with_isMouseDownOnCanvas true app in
    match coords with
    | Some c =>
      let app := with_sim (spawnVortex (fst c) (snd c) (sim app)) app in
      with_lastSpawnPos c app
    | None => app
    end
  else app.

(** The canvas listeners for [mousemove] and [touchmove], lines 472-492 and
    507-525: the same code. *)
Definition canvasMove (coords : option (R * R)) (app : App) : App :=
  if isMouseDownOnCanvas app then
    match coords with
    | Some c =>
      let dist :=
        hypot (fst c - fst (lastSpawnPos app)) (snd c - snd (lastSpawnPos app)) in
      if Rgt_dec dist 30 then
        if negb (hasShownEpilepsyWarning app) then
          let app := with_hasShownEpilepsyWarning true app in
          let app := with_isMouseDownOnCanvas false app in
          alert app
        else
          let app := with_sim (spawnVortex (fst c) (snd c) (sim app)) app in
          with_lastSpawnPos c app
      else app
    | None => app
    end
  else app.

(** The window listeners for [mouseup], lines 494 and 541-547 (without the
    storage of the panel position), and for [touchend], line 527. *)
Definition windowMouseUp (app : App) : App :=
  let app := with_isMouseDownOnCanvas false app in
  if isDraggingPanel app then with_isDraggingPanel false app else app.

Definition windowTouchEnd (app : App) : App :=
  with_isMouseDownOnCanvas false app.

(** The canvas listener for [touchstart], lines 497-505. *)
Definition canvasTouchStart (coords : option (R * R)) (app : App) : App :=
  match coords with
  | Some c =>
    let app := with_isMouseDownOnCanvas true app in
    let app := with_sim (spawnVortex (fst c) (snd c) (sim app)) app in
    with_lastSpawnPos c app
  | None => app
  end.

(** The panel listener for [mousedown], lines 530-535: [wide] is
    [window.innerWidth > 600] and [isInput] says whether the target is an
    input, a button or a label. *)
Definition panelMouseDown (wide isInput : bool) (app : App) : App :=
  if wide && negb isInput then with_isDraggingPanel true app else app.

(** The sliders and buttons, lines 424-458; [value] is [parseInt] of the
    value of the slider. *)
Definition speedInput (value : Z) (app : App) : App :=
  with_simulationSpeed value app.

Definition tempInput (value : Z) (app : App) : App :=
  with_sim (with_noiseLevel (IZR value / 100)%R (sim app)) app.

Definition cellSizeOf (val : Z) : Z :=
  let mapping := [24; 18; 12; 8; 4] in
  let entry := if val - 1 <? 0 then None else mapping !! Z.to_nat (val - 1) in
  match entry with
  | Some n => if n =? 0 then 12 else n
  | None => 12
  end.

Definition resolutionChange (val : Z) (container : option (Z * Z))
    (random : nat -> R) (app : App) : App :=
  let newSize := cellSizeOf val in
  let app := with_sim (with_targetCellSize newSize (sim app)) app in
  appSetupCanvas container random app.

Definition resetClick (random : nat -> R) (app : App) : App :=
  with_sim (initializeGrid random (sim app)) app.

Definition smoothChange (app : App) : App :=
  with_image (draw (offscreenImageData app) (sim app)) app.

Definition infoOpen (app : App) : App := with_isPaused true app.
Definition infoClose (app : App) : App := with_isPaused false app.

(** What can happen to the application. *)
Inductive event : Type :=
  | Frame (random : nat -> nat -> R)
  | MouseDown (coords : option (R * R))
  | MouseMove (coords : option (R * R))
  | MouseUp
  | TouchStart (coords : option (R * R))
  | TouchMove (coords : option (R * R))
  | TouchEnd
  | PanelDown (wide isInput : bool)
  | SpeedInput (value : Z)
  | TempInput (value : Z)
  | ResolutionChange (val : Z) (container : option (Z * Z)) (random : nat -> R)
  | Resize (container : option (Z * Z)) (random : nat -> R)
  | ResetClick (random : nat -> R)
  | SmoothChange
  | InfoOpen
  | InfoClose.

Definition handle (e : event) (app : App) : App :=
  match e with
  | Frame random => animate random app
  | MouseDown coords => canvasMouseDown coords app
  | MouseMove coords => canvasMove coords app
  | MouseUp => windowMouseUp app
  | TouchStart coords => canvasTouchStart coords app
  | TouchMove coords => canvasMove coords app
  | TouchEnd => windowTouchEnd app
  | PanelDown wide isInput => panelMouseDown wide isInput app
  | SpeedInput value => speedInput value app
  | TempInput value => tempInput value app
  | ResolutionChange val container random =>
      resolutionChange val container random app
  | Resize container random => appSetupCanvas container random app
  | ResetClick random => resetClick random app
  | SmoothChange => smoothChange app
  | InfoOpen => infoOpen app
  | InfoClose => infoClose app
  end.

Definition handleAll (es : list event) (app : App) : App :=
  foldl (fun app e => handle e app) app es.

(** The container of an event, when it has one, has a positive size. *)
Definition sized (e : event) : Prop :=
  match e with
  | ResolutionChange _ (Some (cw, ch)) _ | Resize (Some (cw, ch)) _ =>
      0 < cw /\ 0 < ch
  | _ => True
  end.

(** The object as the constructor leaves it before its call of
    [setupCanvas], lines 26-110. *)
Definition newApp : App :=
  {| sim :=
       {| gridSizeX := 0; gridSizeY := 0; cellWidth := 0; cellHeight := 0;
          targetCellSize := 12;
          u := new_Float32Array 0; v := new_Float32Array 0;
          uNext := new_Float32Array 0; vNext := new_Float32Array 0;
          diffusion := 0.5; dt := 0.2; noiseLevel := 0; nextWinding := 1 |};
     offscreenImageData := None;
     frameCount := 0; isPaused := false; simulationSpeed := 1;
     isMouseDownOnCanvas := false; lastSpawnPos := (0%R, 0%R);
     hasShownEpilepsyWarning := false; isDraggingPanel := false;
     alerts := 0 |}.

(** The image, when there is one, has four entries per cell of the field. *)
Definition image_fits (app : App) : Prop :=
  match offscreenImageData app with
  | Some d => Z.of_nat (length d) = 4 * len (u (sim app))
  | None => True
  end.

(** The invariant of the application: the arrays have the shape of the
    grid and the image fits the field. *)
Definition app_ok (app : App) : Prop := shape (sim app) /\ image_fits app.

(** The events that run the listeners for [mousemove] and [touchmove]. *)
Definition is_move (e : event) : Prop :=
  match e with
  | MouseMove _ | TouchMove _ => True
  | _ => False
  end.

(** The warning has been shown exactly when [alert] has been called, and
    then it has been called once. *)
Definition warned_once (app : App) : Prop :=
  alerts app = if hasShownEpilepsyWarning app then 1%nat else 0%nat.

(** The steps of a frame of [n] steps, as calls. *)
Definition frameSteps (random : nat -> nat -> R) (n : nat) : list call :=
  map (fun k => Step (random k)) (seq 0 n).

(** * Rounding, signed zeros and the distance on the torus *)

(** ** The injector in IEEE arithmetic

    The definitions above compute with exact reals.  The program computes
    with binary64 numbers and stores its cells as binary32 numbers.  This
    module gives the injector with every operation rounded as the program
    rounds it: each [+], [-], [*] and [/] to binary64, each store into a
    [Float32Array] to binary32.  A number is still a real: the finite
    values of IEEE 754.  Infinities, NaN, and the sign of a zero are not
    part of the module, and a result too large for its format is not turned
    into an infinity. *)
Module Ieee.

(** [2 ^ e] for an integer [e]. *)
Definition bpow (e : Z) : R := powerRZ 2 e.

(** The integer [e] with [2 ^ (e - 1) <= |x| < 2 ^ e], for [x] not zero. *)
Definition mag2 (x : R) : Z := Int_part (ln (Rabs x) / ln 2) + 1.

(** The integer nearest to [r]; of two nearest ones, the even one. *)
Definition nearest_even (r : R) : Z :=
  let f := Int_part r in
  let d := (r - IZR f)%R in
  if Rlt_dec d (1 / 2) then f
  else if Rgt_dec d (1 / 2) then f + 1
  else if Z.even f then f else f + 1.

(** Rounding to nearest, ties to even, in the binary format of precision
    [p] whose least positive number is [2 ^ emin]. *)
Definition rnd (p emin : Z) (x : R) : R :=
  if Req_dec_T x 0 then 0%R
  else
    let e := Z.max (mag2 x - p) emin in
    (IZR (nearest_even (x / bpow e)) * bpow e)%R.

(** A JavaScript number, and a cell of a [Float32Array]. *)
Definition binary64 : R -> R := rnd 53 (-1074).
Definition binary32 : R -> R := rnd 24 (-149).

(** [x] is a number of the format: an integer of fewer than [p] bits times
    a power of two that is not below [2 ^ emin]. *)
Definition representable (p emin : Z) (x : R) : Prop :=
  exists m e : Z, x = (IZR m * bpow e)%R /\ Z.abs m < 2 ^ p /\ emin <= e.

(** The values that a cell of a [Float32Array] can hold. *)
Definition F32 : R -> Prop := representable 24 (-149).

(** The arithmetic of JavaScript numbers. *)
Definition add (a b : R) : R := binary64 (a + b).
Definition sub (a b : R) : R := binary64 (a - b).
Definition mul (a b : R) : R := binary64 (a * b).
Definition div (a b : R) : R := binary64 (a / b).

(** The functions of [Math] that the injector calls.  ECMAScript leaves
    their values to the implementation, up to the values at special
    arguments. *)
Record MathLib := mkMathLib {
  Math_sqrt : R -> R;
  Math_atan2 : R -> R -> R;
  Math_tanh : R -> R;
  Math_cos : R -> R;
  Math_sin : R -> R
}.

(** The values at zero, which ECMAScript fixes for every implementation. *)
Definition ecma (M : MathLib) : Prop :=
  Math_sqrt M 0 = 0%R /\ Math_atan2 M 0 0 = 0%R /\ Math_tanh M 0 = 0%R /\
  Math_cos M 0 = 1%R /\ Math_sin M 0 = 0%R.

(** An implementation: the one that rounds the exact values correctly. *)
Definition libm : MathLib :=
  {| Math_sqrt x := binary64 (sqrt x);
     Math_atan2 y x := binary64 (Js.atan2 y x);
     Math_tanh x := binary64 (tanh x);
     Math_cos x := binary64 (cos x);
     Math_sin x := binary64 (sin x) |}.

(** Lines 215-216 (and 217-218). *)
Definition shortest (d1 : R) (n : Z) : R :=
  let d1 := if Rgt_dec d1 (div (IZR n) 2) then sub d1 (IZR n) else d1 in
  if Rlt_dec d1 (div (- IZR n) 2) then add d1 (IZR n) else d1.

(** The body of the injector loop, lines 206-242. *)
Definition imprintCell (M : MathLib) (w h : Z) (x1 y1 winding : R) (x y : Z)
    (this : Sim) : Sim :=
  let idx := y * w + x in
  let u_ := get (u this) idx in
  let v_ := get (v this) idx in
  let dx1 := shortest (sub (IZR x) x1) w in
  let dy1 := shortest (sub (IZR y) y1) h in
  let ang1 := Math_atan2 M dy1 dx1 in
  let deltaPhase := mul ang1 winding in
  let dist1 := Math_sqrt M (add (mul dx1 dx1) (mul dy1 dy1)) in
  let coreProfile := Rmin 1 (div dist1 4) in
  let softProfile :=
    add (binary64 0.2) (mul (binary64 0.8) (Math_tanh M coreProfile)) in
  let cosP := Math_cos M deltaPhase in
  let sinP := Math_sin M deltaPhase in
  let uNew := sub (mul u_ cosP) (mul v_ sinP) in
  let vNew := add (mul u_ sinP) (mul v_ cosP) in
  let this := with_u (set (u this) idx (binary32 (mul uNew softProfile))) this in
  with_v (set (v this) idx (binary32 (mul vNew softProfile))) this.

(** The two values that [imprintCell] stores for cell [(x, y)], whose
    value before the store is [u_ + i v_]. *)
Definition imprintU (M : MathLib) (w h : Z) (x1 y1 winding : R) (x y : Z)
    (u_ v_ : R) : R :=
  let dx1 := shortest (sub (IZR x) x1) w in
  let dy1 := shortest (sub (IZR y) y1) h in
  let deltaPhase := mul (Math_atan2 M dy1 dx1) winding in
  let dist1 := Math_sqrt M (add (mul dx1 dx1) (mul dy1 dy1)) in
  let softProfile :=
    add (binary64 0.2)
      (mul (binary64 0.8) (Math_tanh M (Rmin 1 (div dist1 4)))) in
  binary32
    (mul (sub (mul u_ (Math_cos M deltaPhase)) (mul v_ (Math_sin M deltaPhase)))
       softProfile).

Definition imprintV (M : MathLib) (w h : Z) (x1 y1 winding : R) (x y : Z)
    (u_ v_ : R) : R :=
  let dx1 := shortest (sub (IZR x) x1) w in
  let dy1 := shortest (sub (IZR y) y1) h in
  let deltaPhase := mul (Math_atan2 M dy1 dx1) winding in
  let dist1 := Math_sqrt M (add (mul dx1 dx1) (mul dy1 dy1)) in
  let softProfile :=
    add (binary64 0.2)
      (mul (binary64 0.8) (Math_tanh M (Rmin 1 (div dist1 4)))) in
  binary32
    (mul (add (mul u_ (Math_sin M deltaPhase)) (mul v_ (Math_cos M deltaPhase)))
       softProfile).

(** [imprintSingleVortex], lines 195-245. *)
Definition imprintSingleVortex (M : MathLib) (cx cy winding : R) (this : Sim)
    : Sim :=
  let w := gridSizeX this in
  let h := gridSizeY this in
  let x1 := Js.rem (add cx (IZR w)) (IZR w) in
  let y1 := Js.rem (add cy (IZR h)) (IZR h) in
  for_range h
    (fun y => for_range w (fun x => imprintCell M w h x1 y1 winding x y))
    this.

End Ieee.

(** ** The renderer on cells with a signed zero

    IEEE 754 has two zeros, and a [Float32Array] keeps the sign of the zero
    that is stored in it.  [Math.atan2] is the one function of the program
    that tells the two apart: the phase [-PI] is the phase of the cells
    with a negative real part and the imaginary part [-0]. *)
Module Signed.

(** A finite number, with the sign of its zero. *)
Inductive num : Type :=
  | Num (r : R)
  | NegZero.

(** The number as a real; [Num 0] is the zero [+0]. *)
Definition val (a : num) : R :=
  match a with
  | Num r => r
  | NegZero => 0%R
  end.

(** [Math.atan2(y, x)], with values in [-PI, PI].  The sign of a result
    that is zero is dropped: [draw] adds 360 to a multiple of it. *)
Definition atan2 (y x : num) : R :=
  match y, x with
  | Num y, Num x => Js.atan2 y x
  | Num y, NegZero =>
      if Rlt_dec 0 y then (PI / 2)%R
      else if Rlt_dec y 0 then (- PI / 2)%R
      else PI
  | NegZero, Num x => if Rlt_dec x 0 then (- PI)%R else 0%R
  | NegZero, NegZero => (- PI)%R
  end.

(** [a[i]] *)
Definition get (a : list num) (i : Z) : num :=
  if i <? 0 then Num 0 else nth (Z.to_nat i) a (Num 0).

(** The body of the pixel loop, lines 324-346. *)
Definition drawCell (us vs : list num) (i : Z) (data : list Z) : list Z :=
  let u_ := get us i in
  let v_ := get vs i in
  let magSq := (val u_ * val u_ + val v_ * val v_)%R in
  let mag := sqrt magSq in
  let angle := atan2 v_ u_ in
  let hue := Js.rem (angle * 180 / PI + 360) 360 in
  let lightness := (Rmin 1.0 mag * 50)%R in
  let '(r, g, b) := hslToRgb (hue / 360) 1.0 (lightness / 100) in
  let pxIndex := i * 4 in
  let data := set8 data pxIndex r in
  let data := set8 data (pxIndex + 1) g in
  let data := set8 data (pxIndex + 2) b in
  set8 data (pxIndex + 3) 255.

(** The hue and the lightness that [drawCell] computes for the cell
    [u_ + i v_], lines 327-337. *)
Definition cellHue (u_ v_ : num) : R :=
  Js.rem (atan2 v_ u_ * 180 / PI + 360) 360.

Definition cellLightness (u_ v_ : num) : R :=
  (Rmin 1.0 (sqrt (val u_ * val u_ + val v_ * val v_)) * 50)%R.

(** The part of [draw] that fills the image data, lines 317-347, for the
    field whose real parts are [us] and whose imaginary parts are [vs]. *)
Definition draw (offscreenImageData : option (list Z)) (us vs : list num)
    : option (list Z) :=
  match offscreenImageData with
  | None => None
  | Some data =>
      Some (for_range (Z.of_nat (length us)) (drawCell us vs) data)
  end.

(** The three colour channels that [drawCell] computes for the cell. *)
Definition pixel (u_ v_ : num) : Z * Z * Z :=
  hslToRgb (cellHue u_ v_ / 360) 1.0 (cellLightness u_ v_ / 100).

(** The simulation [this] with the field given by [us] and [vs], without
    the signs of the zeros. *)
Definition forget (us vs : list num) (this : Sim) : Sim :=
  with_v (map val vs) (with_u (map val us) this).

End Signed.

(** ** The distance on the torus, in the words of the specification

    "The minimal-distance vector on the periodic domain": on each axis the
    distance on a circle of [n] cells between two points whose plain
    difference is [d]. *)
Module Torus.

Definition circle (d : R) (n : Z) : R :=
  let r := (d - IZR n * IZR (Int_part (d / IZR n)))%R in
  Rmin r (IZR n - r).

Definition distance (w h : Z) (cx cy : R) (x y : Z) : R :=
  let dx := circle (IZR x - cx) w in
  let dy := circle (IZR y - cy) h in
  sqrt (dx * dx + dy * dy).

End Torus.
(** * Proofs *)

(** ** Arrays and loops *)

Section Arrays.
Implicit Types (a : list R) (i j : Z) (x : R).

Lemma len_set a i x : len (set a i x) = len a.
Proof.
  unfold len, set. destruct (i <? 0); [done|]. by rewrite length_insert.
Qed.

Lemma len_new n : 0 <= n -> len (new_Float32Array n) = n.
Proof. intros Hn. unfold len, new_Float32Array. rewrite length_replicate. lia. Qed.

Lemma get_set_eq a i x : 0 <= i < len a -> get (set a i x) i = x.
Proof.
  unfold len, get, set. intros Hi.
  destruct (i <? 0) eqn:E; [lia|].
  rewrite nth_lookup, list_lookup_insert_eq; [done | lia].
Qed.

Lemma get_set_ne a i j x : i <> j -> get (set a i x) j = get a j.
Proof.
  unfold get, set. intros Hij.
  destruct (j <? 0) eqn:Ej; [done|].
  destruct (i <? 0) eqn:Ei; [done|].
  rewrite !nth_lookup, list_lookup_insert_ne; [done | lia].
Qed.

(** Two arrays of the same length with the same cells are the same array. *)
Lemma array_ext a b :
  len a = len b -> (forall i, 0 <= i < len a -> get a i = get b i) -> a = b.
Proof.
  unfold len, get. intros Hlen Hget.
  apply (nth_ext a b 0%R 0%R); [lia|]. intros n Hn.
  specialize (Hget (Z.of_nat n)).
  destruct (Z.of_nat n <? 0) eqn:E; [lia|].
  rewrite Nat2Z.id in Hget. apply Hget. lia.
Qed.

Lemma get_replicate n x i :
  0 <= i < Z.of_nat n -> get (replicate n x) i = x.
Proof.
  unfold get. intros Hi. destruct (i <? 0) eqn:E; [lia|].
  rewrite nth_lookup, lookup_replicate_2; [done | lia].
Qed.
End Arrays.

Section Loops.
Context {S : Type}.
Implicit Types (body : Z -> S -> S) (s : S).

Lemma for_range_nonpos n body s : n <= 0 -> for_range n body s = s.
Proof.
  intros Hn. unfold for_range. replace (Z.to_nat n) with 0%nat by lia. done.
Qed.

Lemma for_range_succ n body s :
  0 <= n -> for_range (n + 1) body s = body n (for_range n body s).
Proof.
  intros Hn. unfold for_range.
  replace (Z.to_nat (n + 1)) with (Datatypes.S (Z.to_nat n)) by lia.
  rewrite seq_S, foldl_app. simpl. by rewrite Z2Nat.id.
Qed.

(** The loop rule: [P i] holds before iteration [i]. *)
Lemma for_range_ind (P : Z -> S -> Prop) n body s :
  0 <= n ->
  P 0 s ->
  (forall i t, 0 <= i < n -> P i t -> P (i + 1) (body i t)) ->
  P n (for_range n body s).
Proof.
  intros Hn H0 Hstep.
  assert (forall k : nat, Z.of_nat k <= n ->
            P (Z.of_nat k) (for_range (Z.of_nat k) body s)) as Hk.
  { induction k as [|k IH]; intros Hle.
    - by rewrite for_range_nonpos.
    - rewrite Nat2Z.inj_succ, <- Z.add_1_r, for_range_succ by lia.
      apply Hstep; [lia|]. apply IH. lia. }
  specialize (Hk (Z.to_nat n)). rewrite Z2Nat.id in Hk by done.
  apply Hk. lia.
Qed.

(** The rule for the two nested loops over the cells of a [w] by [h]
    grid: [P k] holds when the cells of index below [k] are done. *)
Lemma grid_loop_ind (P : Z -> S -> Prop) w h (body : Z -> Z -> S -> S) s :
  0 <= w -> 0 <= h ->
  P 0 s ->
  (forall x y t, 0 <= x < w -> 0 <= y < h ->
     P (y * w + x) t -> P (y * w + x + 1) (body x y t)) ->
  P (h * w) (for_range h (fun y => for_range w (fun x => body x y)) s).
Proof.
  intros Hw Hh H0 Hstep.
  apply (for_range_ind (fun y t => P (y * w) t)); [done | done |].
  intros y t Hy Ht.
  replace ((y + 1) * w) with (y * w + w) by lia.
  apply (for_range_ind (fun x t => P (y * w + x) t)); [done | |].
  - by rewrite Z.add_0_r.
  - intros x t' Hx Ht'. rewrite Z.add_assoc. by apply Hstep.
Qed.
End Loops.

(** The cells of a [w] by [h] grid and the indices below [w * h]. *)
Lemma cell_index_in_range w h x y :
  0 <= x < w -> 0 <= y < h -> 0 <= y * w + x < w * h.
Proof. intros Hx Hy. nia. Qed.

Lemma cell_index_inj w x y x' y' :
  0 <= x < w -> 0 <= x' < w -> y * w + x = y' * w + x' -> x = x' /\ y = y'.
Proof.
  intros Hx Hx' E.
  assert (y = y') as -> by (destruct (Z.lt_trichotomy y y') as [?|[?|?]]; nia).
  lia.
Qed.

Lemma index_cell w i :
  0 < w -> 0 <= i -> i = (i / w) * w + i mod w /\ 0 <= i mod w < w /\ 0 <= i / w.
Proof.
  intros Hw Hi. pose proof (Z.div_mod i w ltac:(lia)).
  pose proof (Z.mod_pos_bound i w Hw). pose proof (Z.div_pos i w Hi Hw). lia.
Qed.

Lemma for_range_inv {S : Type} (I : S -> Prop) n (body : Z -> S -> S) s :
  I s -> (forall i t, 0 <= i < n -> I t -> I (body i t)) ->
  I (for_range n body s).
Proof.
  intros Hs Hbody. destruct (Z.le_gt_cases 0 n) as [Hn|Hn].
  - by apply (for_range_ind (fun _ t => I t)).
  - rewrite for_range_nonpos by lia. done.
Qed.


Lemma same_settings_refl s : same_settings s s.
Proof. by repeat split. Qed.

Lemma same_lengths_refl s : same_lengths s s.
Proof. by repeat split. Qed.

Lemma same_settings_trans s t r :
  same_settings s t -> same_settings t r -> same_settings s r.
Proof. unfold same_settings. intuition congruence. Qed.

Lemma same_lengths_trans s t r :
  same_lengths s t -> same_lengths t r -> same_lengths s r.
Proof. unfold same_lengths. intuition congruence. Qed.

Lemma shape_transfer s t :
  same_settings s t -> same_lengths s t -> shape s -> shape t.
Proof.
  unfold same_settings, same_lengths, shape.
  intros (-> & -> & _) (-> & -> & -> & ->). done.
Qed.

Create HintDb sim.
#[local] Hint Resolve same_settings_refl same_lengths_refl : sim.

(** ** The solver *)

Section Solver.
Variable s : Sim.
Let w := gridSizeX s.
Let h := gridSizeY s.

Lemma solverCell_frame x y t :
  solver_frame s t -> solver_frame s (solverCell w h x y t).
Proof.
  unfold solver_frame, same_settings, same_lengths, solverCell. simpl.
  rewrite !len_set. tauto.
Qed.

Lemma solverCell_writes x y t :
  solver_frame s t ->
  uNext (solverCell w h x y t) = set (uNext t) (y * w + x) (nextU s x y) /\
  vNext (solverCell w h x y t) = set (vNext t) (y * w + x) (nextV s x y).
Proof.
  unfold solver_frame, same_settings, solverCell, nextU, nextV. simpl.
  intros (-> & -> & (_ & _ & _ & _ & _ & -> & -> & _) & _). done.
Qed.

(** After the two loops every cell of the next buffers holds its value. *)
Lemma solver_loop_spec :
  shape s ->
  let t := for_range h (fun y => for_range w (fun x => solverCell w h x y)) s in
  solver_frame s t /\
  forall x y, 0 <= x < w -> 0 <= y < h ->
    get (uNext t) (y * w + x) = nextU s x y /\
    get (vNext t) (y * w + x) = nextV s x y.
Proof.
  intros Hshape t.
  destruct (Z.le_gt_cases 0 w) as [Hw|Hw]; cycle 1.
  { split; [|intros; lia]. subst t.
    apply for_range_inv; [repeat split; auto with sim|].
    intros y t _ Ht. apply for_range_inv; [done|].
    intros x t' _ Ht'. by apply solverCell_frame. }
  destruct (Z.le_gt_cases 0 h) as [Hh|Hh]; cycle 1.
  { split; [|intros; lia]. subst t. rewrite for_range_nonpos by lia.
    repeat split; auto with sim. }
  set (P := fun (k : Z) (t : Sim) =>
    solver_frame s t /\
    forall x y, 0 <= x < w -> 0 <= y < h -> y * w + x < k ->
      get (uNext t) (y * w + x) = nextU s x y /\
      get (vNext t) (y * w + x) = nextV s x y).
  assert (P (h * w) t) as [Hframe Hcells].
  { subst t. apply grid_loop_ind; [done | done | |].
    - split; [repeat split; auto with sim|]. intros; lia.
    - intros x y t Hx Hy [Hframe Hcells].
      split; [by apply solverCell_frame|].
      intros x' y' Hx' Hy' Hlt.
      destruct (solverCell_writes x y t Hframe) as [-> ->].
      destruct Hframe as (_ & _ & _ & (_ & _ & HlU & HlV)).
      destruct Hshape as (_ & _ & HsU & HsV).
      pose proof (cell_index_in_range w h x y Hx Hy) as Hin.
      destruct (Z.eq_dec (y' * w + x') (y * w + x)) as [E|E].
      + destruct (cell_index_inj w x' y' x y Hx' Hx E) as [-> ->].
        rewrite !get_set_eq; [done | |]; fold w h in HsU, HsV; lia.
      + rewrite !get_set_ne by done. apply Hcells; [done | done | lia]. }
  split; [done|]. intros x y Hx Hy. apply Hcells; [done | done |].
  pose proof (cell_index_in_range w h x y Hx Hy). lia.
Qed.
End Solver.

Lemma noiseCell_frame random noiseScale s i t :
  same_settings s t /\ same_lengths s t ->
  same_settings s (noiseCell random noiseScale i t) /\
  same_lengths s (noiseCell random noiseScale i t).
Proof.
  unfold same_settings, same_lengths, noiseCell. simpl.
  rewrite !len_set. tauto.
Qed.

Lemma swapBuffers_fields t :
  u (swapBuffers t) = uNext t /\ v (swapBuffers t) = vNext t /\
  uNext (swapBuffers t) = u t /\ vNext (swapBuffers t) = v t /\
  same_settings t (swapBuffers t).
Proof. unfold swapBuffers, same_settings. simpl. tauto. Qed.

(** With the noise off, [updatePhysics] is the solver loop and the swap. *)
Lemma updatePhysics_quiet random s :
  noiseLevel s = 0%R ->
  updatePhysics random s =
  swapBuffers
    (for_range (gridSizeY s)
       (fun y => for_range (gridSizeX s)
                   (fun x => solverCell (gridSizeX s) (gridSizeY s) x y)) s).
Proof.
  intros Hn. unfold updatePhysics. rewrite Hn.
  destruct (Rgt_dec 0 0) as [Hgt|_]; [lra | done].
Qed.

(** One quiet step: the new field is what the loop wrote, cell by cell, and
    the old field is now the next buffer. *)
Lemma updatePhysics_spec random s :
  shape s -> noiseLevel s = 0%R ->
  let t := updatePhysics random s in
  same_settings s t /\ shape t /\
  uNext t = u s /\ vNext t = v s /\
  forall x y, 0 <= x < gridSizeX s -> 0 <= y < gridSizeY s ->
    get (u t) (y * gridSizeX s + x) = nextU s x y /\
    get (v t) (y * gridSizeX s + x) = nextV s x y.
Proof.
  intros Hshape Hn t. subst t. rewrite updatePhysics_quiet by done.
  destruct (solver_loop_spec s Hshape) as [(Hu & Hv & Hset & Hlen) Hcells].
  set (t := for_range _ _ s) in *.
  destruct (swapBuffers_fields t) as (-> & -> & EU & EV & Hswap).
  split; [by eapply same_settings_trans|].
  split.
  { destruct Hswap as (HX & HY & _). destruct Hset as (HX' & HY' & _).
    destruct (swapBuffers_fields t) as (E1 & E2 & E3 & E4 & _).
    destruct Hlen as (_ & _ & L3 & L4). destruct Hshape as (S1 & S2 & S3 & S4).
    unfold shape. rewrite E1, E2, E3, E4, HX, HY, HX', HY', Hu, Hv, L3, L4.
    done. }
  rewrite EU, EV. done.
Qed.

(** Any step, noisy or quiet, keeps the settings and the shape. *)
Lemma updatePhysics_settings random s : same_settings s (updatePhysics random s).
Proof.
  unfold updatePhysics.
  set (s1 := if Rgt_dec _ _ then _ else s).
  assert (same_settings s s1) as H1.
  { subst s1. destruct (Rgt_dec _ _); [|auto with sim].
    apply (for_range_inv (fun t => same_settings s t /\ same_lengths s t));
      [auto with sim|]. intros i t _ Ht. by apply noiseCell_frame. }
  set (s2 := for_range _ _ s1).
  assert (same_settings s1 s2) as H2.
  { subst s2. apply (for_range_inv (same_settings s1)); [auto with sim|].
    intros y t _ Ht. apply (for_range_inv (same_settings s1)); [done|].
    intros x t' _ Ht'. revert Ht'. unfold same_settings, solverCell. simpl. tauto. }
  destruct (swapBuffers_fields s2) as (_ & _ & _ & _ & H3).
  eauto using same_settings_trans.
Qed.

Lemma updatePhysics_shape random s : shape s -> shape (updatePhysics random s).
Proof.
  intros Hshape. unfold updatePhysics.
  set (s1 := if Rgt_dec _ _ then _ else s).
  assert (same_settings s s1 /\ same_lengths s s1) as [H1 L1].
  { subst s1. destruct (Rgt_dec _ _); [|auto with sim].
    apply (for_range_inv (fun t => same_settings s t /\ same_lengths s t));
      [auto with sim|]. intros i t _ Ht. by apply noiseCell_frame. }
  set (s2 := for_range _ _ s1).
  assert (same_settings s1 s2 /\ same_lengths s1 s2) as [H2 L2].
  { subst s2.
    apply (for_range_inv (fun t => same_settings s1 t /\ same_lengths s1 t));
      [auto with sim|].
    intros y t _ Ht.
    apply (for_range_inv (fun t => same_settings s1 t /\ same_lengths s1 t));
      [done|].
    intros x t' _. unfold same_settings, same_lengths, solverCell. simpl.
    rewrite !len_set. tauto. }
  assert (shape s2) as (A & B & C & D).
  { eapply shape_transfer; [exact H2 | exact L2 |].
    eapply shape_transfer; [exact H1 | exact L1 | done]. }
  unfold shape, swapBuffers. simpl. tauto.
Qed.

(** ** The stencil is periodic *)

Lemma rem_wrap_dec x n : 0 <= x < n -> Z.rem (x - 1 + n) n = (x - 1) mod n.
Proof.
  intros Hx. rewrite Z.rem_mod_nonneg by lia.
  replace (x - 1 + n) with (x - 1 + 1 * n) by lia. apply Z_mod_plus_full.
Qed.

Lemma rem_wrap_inc x n : 0 <= x < n -> Z.rem (x + 1) n = (x + 1) mod n.
Proof. intros Hx. apply Z.rem_mod_nonneg; lia. Qed.

Lemma laplacian_wraps a w h x y :
  0 <= x < w -> 0 <= y < h ->
  laplacian a w h x y = Spec.Laplacian a w h x y.
Proof.
  intros Hx Hy.
  unfold laplacian, Spec.Laplacian, Spec.cell,
    leftIndex, rightIndex, upIndex, downIndex.
  rewrite !rem_wrap_dec, !rem_wrap_inc by done.
  rewrite (Z.mod_small x w), (Z.mod_small y h) by done.
  done.
Qed.

(** Under the shape invariant the five reads of the stencil are inside the
    array. *)
Lemma stencil_reads_in_range w h x y :
  0 <= x < w -> 0 <= y < h ->
  0 <= leftIndex w x y < w * h /\ 0 <= rightIndex w x y < w * h /\
  0 <= upIndex w h x y < w * h /\ 0 <= downIndex w h x y < w * h /\
  0 <= y * w + x < w * h.
Proof.
  intros Hx Hy. unfold leftIndex, rightIndex, upIndex, downIndex.
  rewrite !rem_wrap_dec, !rem_wrap_inc by done.
  pose proof (Z.mod_pos_bound (x - 1) w ltac:(lia)).
  pose proof (Z.mod_pos_bound (x + 1) w ltac:(lia)).
  pose proof (Z.mod_pos_bound (y - 1) h ltac:(lia)).
  pose proof (Z.mod_pos_bound (y + 1) h ltac:(lia)).
  repeat split; try (apply cell_index_in_range; lia);
    apply (cell_index_in_range w h); lia.
Qed.

(** C1. With the noise off, one step writes into the next buffer, which the
    swap then makes the current one, for every cell [(x, y)] of the grid the
    value psi + dt * (D * Laplacian(psi) + psi * (1 - |psi|^2)), the real
    part into [u] and the imaginary part into [v]; the Laplacian is
    left + right + up + down - 4 * center with the neighbour indices wrapped
    modulo the width and the height.  The old field becomes the next
    buffer. *)
Theorem updatePhysics_euler_step random (s : Sim) (x y : Z) :
  shape s -> noiseLevel s = 0%R ->
  0 <= x < gridSizeX s -> 0 <= y < gridSizeY s ->
  let w := gridSizeX s in
  let h := gridSizeY s in
  let i := y * w + x in
  let re := get (u s) i in
  let im := get (v s) i in
  let t := updatePhysics random s in
  get (u t) i =
    Spec.euler (diffusion s) (dt s) (Spec.Laplacian (u s) w h x y) re re im /\
  get (v t) i =
    Spec.euler (diffusion s) (dt s) (Spec.Laplacian (v s) w h x y) im re im /\
  uNext t = u s /\ vNext t = v s.
Proof.
  intros Hshape Hquiet Hx Hy w h i re im t.
  destruct (updatePhysics_spec random s Hshape Hquiet)
    as (_ & _ & HU & HV & Hcells).
  destruct (Hcells x y Hx Hy) as [Eu Ev].
  subst t i w h. rewrite Eu, Ev. unfold nextU, nextV, Spec.euler.
  rewrite !laplacian_wraps by done. done.
Qed.

(** ** The scenario fields *)

Lemma uniform_shape w h re im : 0 <= w * h -> shape (uniform w h re im).
Proof.
  intros Hwh. unfold shape, uniform, len, new_Float32Array. simpl.
  rewrite !length_replicate. lia.
Qed.

Lemma uniform_cells w h re im i :
  0 <= i < w * h ->
  get (u (uniform w h re im)) i = re /\ get (v (uniform w h re im)) i = im.
Proof. intros Hi. unfold uniform. simpl. rewrite !get_replicate by lia. done. Qed.

Lemma single_shape w h x0 y0 re im : 0 <= w * h -> shape (single w h x0 y0 re im).
Proof.
  intros Hwh. pose proof (uniform_shape w h 0 0 Hwh) as Hs. revert Hs.
  unfold shape, single. simpl. rewrite !len_set. done.
Qed.

Lemma get_zeros n i : get (replicate n 0%R) i = 0%R.
Proof.
  unfold get. destruct (i <? 0); [done|].
  generalize (Z.to_nat i). induction n as [|n IH]; intros [|k]; simpl; auto.
Qed.

Lemma single_cells w h x0 y0 re im :
  0 <= x0 < w -> 0 <= y0 < h ->
  let s := single w h x0 y0 re im in
  get (u s) (y0 * w + x0) = re /\ get (v s) (y0 * w + x0) = im /\
  forall i, i <> y0 * w + x0 -> get (u s) i = 0%R /\ get (v s) i = 0%R.
Proof.
  intros Hx Hy s. subst s. unfold single, uniform. simpl.
  pose proof (cell_index_in_range w h x0 y0 Hx Hy) as Hin.
  rewrite !get_set_eq by (unfold len; rewrite length_replicate; lia).
  split; [done|]. split; [done|]. intros i Hi.
  rewrite !get_set_ne by done. rewrite !get_zeros. done.
Qed.

(** ** A uniform field of magnitude one is a fixed point *)

Lemma uniform_fixed_point random s a b :
  shape s -> noiseLevel s = 0%R ->
  0 <= gridSizeX s -> 0 <= gridSizeY s ->
  (forall i, 0 <= i < gridSizeX s * gridSizeY s ->
     get (u s) i = a /\ get (v s) i = b) ->
  (a * a + b * b = 1)%R ->
  u (updatePhysics random s) = u s /\ v (updatePhysics random s) = v s.
Proof.
  intros Hshape Hquiet Hw0 Hh0 Hcells Hmag.
  destruct (updatePhysics_spec random s Hshape Hquiet)
    as (Hset & (L1 & L2 & _) & _ & _ & Hnext).
  destruct Hset as (HX & HY & _). destruct Hshape as (S1 & S2 & _).
  set (w := gridSizeX s) in *. set (h := gridSizeY s) in *.
  assert (forall i, 0 <= i < w * h ->
            get (u (updatePhysics random s)) i = a /\
            get (v (updatePhysics random s)) i = b) as Hall.
  { intros i Hi.
    assert (0 < w) as Hw by nia.
    destruct (index_cell w i Hw ltac:(lia)) as (E & Hx & Hy0).
    set (x := i mod w) in *. set (y := i / w) in *.
    assert (0 <= y < h) as Hy
      by (split; [done | apply Z.div_lt_upper_bound; lia]).
    destruct (Hnext x y Hx Hy) as [Eu Ev]. rewrite E, Eu, Ev.
    unfold nextU, nextV, laplacian, leftIndex, rightIndex, upIndex, downIndex.
    fold w h.
    assert (forall x' y', 0 <= x' < w -> 0 <= y' < h ->
              get (u s) (y' * w + x') = a /\ get (v s) (y' * w + x') = b) as Hc.
    { intros x' y' Hx' Hy'. apply Hcells.
      by apply cell_index_in_range. }
    assert (0 <= Z.rem (x - 1 + w) w < w) as Hl
      by (rewrite rem_wrap_dec by done; apply Z.mod_pos_bound; lia).
    assert (0 <= Z.rem (x + 1) w < w) as Hr
      by (rewrite rem_wrap_inc by done; apply Z.mod_pos_bound; lia).
    assert (0 <= Z.rem (y - 1 + h) h < h) as Hu
      by (rewrite rem_wrap_dec by done; apply Z.mod_pos_bound; lia).
    assert (0 <= Z.rem (y + 1) h < h) as Hd
      by (rewrite rem_wrap_inc by done; apply Z.mod_pos_bound; lia).
    destruct (Hc x y Hx Hy) as [-> ->].
    destruct (Hc _ y Hl Hy) as [-> ->]. destruct (Hc _ y Hr Hy) as [-> ->].
    destruct (Hc x _ Hx Hu) as [-> ->]. destruct (Hc x _ Hx Hd) as [-> ->].
    rewrite Hmag. split; ring. }
  split; apply array_ext; try (rewrite ?L1, ?L2, ?S1, ?S2, ?HX, ?HY; done).
  - intros i Hi. rewrite L1, HX, HY in Hi. fold w h in Hi.
    destruct (Hall i Hi) as [-> _]. by destruct (Hcells i Hi) as [-> _].
  - intros i Hi. rewrite L2, HX, HY in Hi. fold w h in Hi.
    destruct (Hall i Hi) as [_ ->]. by destruct (Hcells i Hi) as [_ ->].
Qed.

(** C3. On the 4 by 4 grid whose cells all hold 1 + 0i, with diffusion 0.5,
    dt 0.2 and the noise off, one step leaves both arrays as they were. *)
Theorem uniform_4x4_step_unchanged (random : nat -> R) :
  let s := uniform 4 4 1 0 in
  diffusion s = 0.5%R /\ dt s = 0.2%R /\ noiseLevel s = 0%R /\
  u (updatePhysics random s) = u s /\ v (updatePhysics random s) = v s.
Proof.
  intros s. split; [done|]. split; [done|]. split; [done|].
  apply (uniform_fixed_point random s 1 0).
  - by apply uniform_shape.
  - done.
  - done.
  - done.
  - intros i Hi. by apply uniform_cells.
  - ring.
Qed.

(** The same after any number of quiet steps. *)
Lemma uniform_fixed_point_iter random s a b n :
  shape s -> noiseLevel s = 0%R ->
  0 <= gridSizeX s -> 0 <= gridSizeY s ->
  (forall i, 0 <= i < gridSizeX s * gridSizeY s ->
     get (u s) i = a /\ get (v s) i = b) ->
  (a * a + b * b = 1)%R ->
  u (Nat.iter n (updatePhysics random) s) = u s /\
  v (Nat.iter n (updatePhysics random) s) = v s.
Proof.
  intros Hshape Hquiet Hw Hh Hcells Hmag.
  assert (shape (Nat.iter n (updatePhysics random) s) /\
          same_settings s (Nat.iter n (updatePhysics random) s) /\
          u (Nat.iter n (updatePhysics random) s) = u s /\
          v (Nat.iter n (updatePhysics random) s) = v s) as (_ & _ & H).
  { induction n as [|n IH]; [simpl | rewrite !Nat.iter_succ].
    - split; [done|]. split; [auto with sim | done].
    - destruct IH as (Hshape' & Hset & Eu & Ev).
      set (t := Nat.iter n (updatePhysics random) s) in *.
      pose proof Hset as (HX & HY & _ & _ & _ & _ & _ & HN & _).
      assert (u (updatePhysics random t) = u t /\
              v (updatePhysics random t) = v t) as [Eu' Ev'].
      { apply (uniform_fixed_point random t a b); try done.
        - by rewrite HN.
        - by rewrite HX.
        - by rewrite HY.
        - rewrite HX, HY, Eu, Ev. done. }
      split; [by apply updatePhysics_shape|].
      split; [eapply same_settings_trans; [exact Hset|];
              apply updatePhysics_settings|].
      rewrite Eu', Ev'. done. }
  exact H.
Qed.

(** ** Diffusion across the seam *)

(** The indices of the wrap-around neighbours. *)
Lemma leftIndex_first w y : 0 < w -> leftIndex w 0 y = y * w + (w - 1).
Proof.
  intros Hw. unfold leftIndex. replace (0 - 1 + w) with (w - 1) by lia.
  rewrite Z.rem_small by lia. done.
Qed.

Lemma rightIndex_last w y : 0 < w -> rightIndex w (w - 1) y = y * w + 0.
Proof.
  intros Hw. unfold rightIndex. replace (w - 1 + 1) with w by lia.
  rewrite Z.rem_same by lia. done.
Qed.

Lemma upIndex_first w h x : 0 < h -> upIndex w h x 0 = (h - 1) * w + x.
Proof.
  intros Hh. unfold upIndex. replace (0 - 1 + h) with (h - 1) by lia.
  rewrite Z.rem_small by lia. done.
Qed.

Lemma downIndex_last w h x : 0 < h -> downIndex w h x (h - 1) = 0 * w + x.
Proof.
  intros Hh. unfold downIndex. replace (h - 1 + 1) with h by lia.
  rewrite Z.rem_same by lia. done.
Qed.

(** A zero cell next to the only nonzero cell is nonzero after a step. *)
Lemma step_spreads random s x0 y0 x y :
  shape s -> noiseLevel s = 0%R -> dt s <> 0%R -> diffusion s <> 0%R ->
  only_cell s x0 y0 ->
  0 <= x < gridSizeX s -> 0 <= y < gridSizeY s ->
  let w := gridSizeX s in
  let h := gridSizeY s in
  let p := y0 * w + x0 in
  y * w + x <> p ->
  leftIndex w x y = p \/ rightIndex w x y = p \/
  upIndex w h x y = p \/ downIndex w h x y = p ->
  nonzero_at (updatePhysics random s) x y.
Proof.
  intros Hshape Hquiet Hdt HD [Hp Hothers] Hx Hy w h p Hne Hnb.
  destruct (updatePhysics_spec random s Hshape Hquiet)
    as ((HX & _) & _ & _ & _ & Hnext).
  destruct (Hnext x y Hx Hy) as [Eu Ev].
  unfold nonzero_at. rewrite HX, Eu, Ev. clear Eu Ev Hnext.
  fold p in Hp, Hothers.
  set (a := get (u s) p) in *. set (b := get (v s) p) in *.
  set (ind := fun i : Z => if Z.eq_dec i p then 1%R else 0%R).
  assert (forall i, get (u s) i = (ind i * a)%R /\ get (v s) i = (ind i * b)%R)
    as Hind.
  { intros i. unfold ind. destruct (Z.eq_dec i p) as [->|Hi].
    - subst a b. split; ring.
    - destruct (Hothers i Hi) as [-> ->]. split; ring. }
  assert (forall i, (0 <= ind i)%R) as Hind0
    by (intros i; unfold ind; destruct (Z.eq_dec i p); lra).
  unfold nextU, nextV, laplacian. fold w h.
  destruct (Hothers (y * w + x) Hne) as [-> ->].
  set (iL := leftIndex w x y) in *. set (iR := rightIndex w x y) in *.
  set (iU := upIndex w h x y) in *. set (iD := downIndex w h x y) in *.
  destruct (Hind iL) as [-> ->]. destruct (Hind iR) as [-> ->].
  destruct (Hind iU) as [-> ->]. destruct (Hind iD) as [-> ->].
  set (k := (ind iL + ind iR + ind iU + ind iD)%R).
  assert (1 <= k)%R as Hk.
  { pose proof (Hind0 iL). pose proof (Hind0 iR).
    pose proof (Hind0 iU). pose proof (Hind0 iD).
    assert (ind p = 1%R) as Hpp
      by (unfold ind; destruct (Z.eq_dec p p); [done | lia]).
    subst k. destruct Hnb as [E|[E|[E|E]]]; rewrite E, Hpp; lra. }
  assert (dt s * diffusion s * k <> 0)%R as Hc.
  { apply Rmult_integral_contrapositive_currified;
      [apply Rmult_integral_contrapositive_currified; done | lra]. }
  destruct Hp as [Ha|Hb]; [left | right].
  - replace (_ + _)%R with (dt s * diffusion s * k * a)%R by (subst k; ring).
    by apply Rmult_integral_contrapositive_currified.
  - replace (_ + _)%R with (dt s * diffusion s * k * b)%R by (subst k; ring).
    by apply Rmult_integral_contrapositive_currified.
Qed.

(** C2. The stencil wraps: at [x = 0] the left neighbour is the cell at
    [x = w - 1] of the same row, at [x = w - 1] the right neighbour is the
    cell at [x = 0], and likewise for the rows [y = 0] and [y = h - 1].
    So when the field is zero except at one boundary cell, a quiet step with
    nonzero [dt] and [diffusion] makes the field nonzero at the wrap-around
    neighbour on the opposite edge (a different cell when the grid has at
    least two columns, or two rows for the vertical direction). *)
Theorem updatePhysics_periodic random (s : Sim) (x0 y0 : Z) :
  shape s -> noiseLevel s = 0%R -> dt s <> 0%R -> diffusion s <> 0%R ->
  0 <= x0 < gridSizeX s -> 0 <= y0 < gridSizeY s ->
  only_cell s x0 y0 ->
  let w := gridSizeX s in
  let h := gridSizeY s in
  let t := updatePhysics random s in
  (forall y, leftIndex w 0 y = y * w + (w - 1) /\
             rightIndex w (w - 1) y = y * w + 0) /\
  (forall x, upIndex w h x 0 = (h - 1) * w + x /\
             downIndex w h x (h - 1) = 0 * w + x) /\
  (2 <= w -> x0 = 0 -> nonzero_at t (w - 1) y0) /\
  (2 <= w -> x0 = w - 1 -> nonzero_at t 0 y0) /\
  (2 <= h -> y0 = 0 -> nonzero_at t x0 (h - 1)) /\
  (2 <= h -> y0 = h - 1 -> nonzero_at t x0 0).
Proof.
  intros Hshape Hquiet Hdt HD Hx0 Hy0 Honly w h t.
  split; [intros y; split; [apply leftIndex_first | apply rightIndex_last]; lia|].
  split; [intros x; split; [apply upIndex_first | apply downIndex_last]; lia|].
  repeat split; intros Hsize E; subst t;
    apply (step_spreads random s x0 y0); try done; fold w h; try lia.
  - right; left. rewrite rightIndex_last by lia. lia.
  - left. rewrite leftIndex_first by lia. lia.
  - nia.
  - right; right; right. rewrite downIndex_last by lia. lia.
  - nia.
  - right; right; left. rewrite upIndex_first by lia. lia.
Qed.

(** ** The injector loop *)

Section Injector.
Variable s : Sim.
Variables x1 y1 winding : R.
Let w := gridSizeX s.
Let h := gridSizeY s.

Lemma imprintCell_frame x y t :
  imprint_frame s t -> imprint_frame s (imprintCell w h x1 y1 winding x y t).
Proof.
  unfold imprint_frame, same_settings, same_lengths, imprintCell. simpl.
  rewrite !len_set. tauto.
Qed.

Lemma imprintCell_upto x y t :
  shape s -> 0 <= x < w -> 0 <= y < h ->
  imprint_upto s x1 y1 winding (y * w + x) t ->
  imprint_upto s x1 y1 winding (y * w + x + 1)
    (imprintCell w h x1 y1 winding x y t).
Proof.
  intros (SU & SV & _) Hx Hy (Hframe & Hdone & Htodo).
  split; [by apply imprintCell_frame|].
  destruct Hframe as (_ & _ & _ & (LU & LV & _)).
  pose proof (cell_index_in_range w h x y Hx Hy) as Hin.
  destruct (Htodo (y * w + x) ltac:(lia)) as [EU EV].
  assert (u (imprintCell w h x1 y1 winding x y t) =
            set (u t) (y * w + x)
              (imprintU w h x1 y1 winding x y
                 (get (u s) (y * w + x)) (get (v s) (y * w + x))) /\
          v (imprintCell w h x1 y1 winding x y t) =
            set (v t) (y * w + x)
              (imprintV w h x1 y1 winding x y
                 (get (u s) (y * w + x)) (get (v s) (y * w + x))))
    as [-> ->].
  { unfold imprintCell, imprintU, imprintV. simpl. rewrite EU, EV. done. }
  split.
  - intros x' y' Hx' Hy' Hlt.
    destruct (Z.eq_dec (y' * w + x') (y * w + x)) as [E|E].
    + destruct (cell_index_inj w x' y' x y Hx' Hx E) as [-> ->].
      rewrite !get_set_eq; [done | |]; fold w h in SU, SV; lia.
    + rewrite !get_set_ne by done. apply Hdone; [done | done | lia].
  - intros i Hi. rewrite !get_set_ne by lia. apply Htodo. lia.
Qed.

Lemma imprint_loop_spec :
  shape s ->
  let t :=
    for_range h
      (fun y => for_range w (fun x => imprintCell w h x1 y1 winding x y)) s in
  imprint_frame s t /\
  forall x y, 0 <= x < w -> 0 <= y < h ->
    get (u t) (y * w + x) =
      imprintU w h x1 y1 winding x y
        (get (u s) (y * w + x)) (get (v s) (y * w + x)) /\
    get (v t) (y * w + x) =
      imprintV w h x1 y1 winding x y
        (get (u s) (y * w + x)) (get (v s) (y * w + x)).
Proof.
  intros Hshape t.
  assert (imprint_frame s s) as Hrefl by (repeat split; auto with sim).
  destruct (Z.le_gt_cases 0 w) as [Hw|Hw]; cycle 1.
  { split; [|intros; lia]. subst t.
    apply for_range_inv; [done|]. intros y t _ Ht.
    apply for_range_inv; [done|]. intros x t' _ Ht'.
    by apply imprintCell_frame. }
  destruct (Z.le_gt_cases 0 h) as [Hh|Hh]; cycle 1.
  { split; [|intros; lia]. subst t. by rewrite for_range_nonpos by lia. }
  assert (imprint_upto s x1 y1 winding (h * w) t) as (Hframe & Hdone & _).
  { subst t. apply grid_loop_ind; [done | done | |].
    - split; [done|]. split; [intros; lia | done].
    - intros x y t Hx Hy Ht. by apply imprintCell_upto. }
  split; [done|]. intros x y Hx Hy. apply Hdone; [done | done |].
  pose proof (cell_index_in_range w h x y Hx Hy). lia.
Qed.
End Injector.

(** One call of the injector: every cell is rewritten from its own old
    value; settings, shape and next buffers stay. *)
Lemma imprintSingleVortex_spec cx cy winding s :
  shape s ->
  let w := gridSizeX s in
  let h := gridSizeY s in
  let x1 := Js.rem (cx + IZR w) (IZR w) in
  let y1 := Js.rem (cy + IZR h) (IZR h) in
  let t := imprintSingleVortex cx cy winding s in
  same_settings s t /\ shape t /\ uNext t = uNext s /\ vNext t = vNext s /\
  forall x y, 0 <= x < w -> 0 <= y < h ->
    get (u t) (y * w + x) =
      imprintU w h x1 y1 winding x y
        (get (u s) (y * w + x)) (get (v s) (y * w + x)) /\
    get (v t) (y * w + x) =
      imprintV w h x1 y1 winding x y
        (get (u s) (y * w + x)) (get (v s) (y * w + x)).
Proof.
  intros Hshape w h x1 y1 t.
  destruct (imprint_loop_spec s x1 y1 winding Hshape)
    as [(HU & HV & Hset & Hlen) Hcells].
  fold w h in Hcells. split; [done|]. split; [by eapply shape_transfer|].
  done.
Qed.

(** ** Real numbers: tanh, the soft-core profile, truncation, atan2 *)

(** Case analysis on every comparison of the goal, closing the cases that
    linear arithmetic refutes or proves. *)
Ltac case_comparisons :=
  repeat match goal with
  | |- context [Rgt_dec ?a ?b] => destruct (Rgt_dec a b)
  | |- context [Rlt_dec ?a ?b] => destruct (Rlt_dec a b)
  | |- context [Rle_dec ?a ?b] => destruct (Rle_dec a b)
  end; try lra.

Section RealFacts.
Local Open Scope R_scope.

Lemma tanh_exp x : tanh x = 1 - 2 / (exp (2 * x) + 1).
Proof.
  unfold tanh, sinh, cosh. rewrite exp_Ropp.
  replace (2 * x) with (x + x) by ring. rewrite exp_plus.
  pose proof (exp_pos x) as He. field. split; nra.
Qed.

Lemma tanh_zero : tanh 0 = 0.
Proof. rewrite tanh_exp, Rmult_0_r, exp_0. lra. Qed.

Lemma tanh_le x y : x <= y -> tanh x <= tanh y.
Proof.
  intros Hxy. rewrite !tanh_exp.
  pose proof (exp_pos (2 * x)) as Hx. pose proof (exp_pos (2 * y)) as Hy.
  assert (exp (2 * x) <= exp (2 * y)) as Hle.
  { destruct Hxy as [Hlt| ->]; [|lra]. left. apply exp_increasing. lra. }
  assert (/ (exp (2 * y) + 1) <= / (exp (2 * x) + 1))
    by (apply Rinv_le_contravar; lra).
  unfold Rdiv. lra.
Qed.

Lemma tanh_nonneg x : 0 <= x -> 0 <= tanh x.
Proof. intros Hx. rewrite <- tanh_zero. by apply tanh_le. Qed.

(** Bounds on the exponential, from [1 + y <= exp y] at [y = x / 2^n] and
    [n] squarings. *)
Lemma exp_square_lower a b y :
  0 <= a -> a <= exp y -> b <= a * a -> b <= exp (2 * y).
Proof.
  intros Ha Hy Hb. replace (2 * y) with (y + y) by ring. rewrite exp_plus. nra.
Qed.

Lemma exp_sqrt2_lower x : 1.41421 <= x -> 4.05038161 <= exp x.
Proof.
  intros Hx.
  replace (x) with (2 * (2 * (2 * (2 * (2 * (2 * (x / 64))))))) by lra.
  apply (exp_square_lower 2.01255599); [lra | | lra].
  apply (exp_square_lower 1.41864583); [lra | | lra].
  apply (exp_square_lower 1.19106920); [lra | | lra].
  apply (exp_square_lower 1.09136117); [lra | | lra].
  apply (exp_square_lower 1.04468233); [lra | | lra].
  apply (exp_square_lower 1.02209703); [lra | | lra].
  pose proof (exp_ineq1_le (x / 64)). lra.
Qed.

Lemma exp_sqrt2_upper x : x <= 1.414215 -> 0.241210410 <= exp (- x).
Proof.
  intros Hx.
  replace (- x) with (2 * (2 * (2 * (2 * (2 * (2 * (2 * (- x / 128)))))))) by lra.
  apply (exp_square_lower 0.491131765); [lra | | lra].
  apply (exp_square_lower 0.700807938); [lra | | lra].
  apply (exp_square_lower 0.837142723); [lra | | lra].
  apply (exp_square_lower 0.914955039); [lra | | lra].
  apply (exp_square_lower 0.956532822); [lra | | lra].
  apply (exp_square_lower 0.978024960); [lra | | lra].
  apply (exp_square_lower 0.988951445); [lra | | lra].
  pose proof (exp_ineq1_le (- x / 128)). lra.
Qed.

Lemma exp_2_upper x : x <= 2 -> 0.1350708629 <= exp (- x).
Proof.
  intros Hx.
  replace (- x) with (2 * (2 * (2 * (2 * (2 * (2 * (2 * (2 * (2 * (2 * (- x / 1024))))))))))) by lra.
  apply (exp_square_lower 0.3675198810); [lra | | lra].
  apply (exp_square_lower 0.6062341800); [lra | | lra].
  apply (exp_square_lower 0.7786104161); [lra | | lra].
  apply (exp_square_lower 0.8823890390); [lra | | lra].
  apply (exp_square_lower 0.9393556510); [lra | | lra].
  apply (exp_square_lower 0.9692036169); [lra | | lra].
  apply (exp_square_lower 0.9844813949); [lra | | lra].
  apply (exp_square_lower 0.9922103582); [lra | | lra].
  apply (exp_square_lower 0.9960975646); [lra | | lra].
  apply (exp_square_lower 0.9980468750); [lra | | lra].
  pose proof (exp_ineq1_le (- x / 1024)). lra.
Qed.

Lemma exp_2_lower x : 2 <= x -> 7.3746566928 <= exp x.
Proof.
  intros Hx.
  replace (x) with (2 * (2 * (2 * (2 * (2 * (2 * (2 * (2 * (2 * (2 * (x / 1024))))))))))) by lra.
  apply (exp_square_lower 2.7156319141); [lra | | lra].
  apply (exp_square_lower 1.6479174476); [lra | | lra].
  apply (exp_square_lower 1.2837123695); [lra | | lra].
  apply (exp_square_lower 1.1330103131); [lra | | lra].
  apply (exp_square_lower 1.0644295717); [lra | | lra].
  apply (exp_square_lower 1.0317119616); [lra | | lra].
  apply (exp_square_lower 1.0157322293); [lra | | lra].
  apply (exp_square_lower 1.0078354178); [lra | | lra].
  apply (exp_square_lower 1.0039100646); [lra | | lra].
  apply (exp_square_lower 1.0019531250); [lra | | lra].
  pose proof (exp_ineq1_le (x / 1024)). lra.
Qed.

Lemma tanh_between x lo hi :
  0 < lo -> lo <= exp (2 * x) -> hi <= exp (- (2 * x)) -> 0 < hi ->
  1 - 2 / (lo + 1) <= tanh x <= 1 - 2 / (/ hi + 1).
Proof.
  intros Hlo Hl Hh Hhi. rewrite tanh_exp.
  rewrite exp_Ropp in Hh. pose proof (exp_pos (2 * x)) as He.
  assert (exp (2 * x) <= / hi) as Hu.
  { rewrite <- (Rinv_inv (exp (2 * x))). apply Rinv_le_contravar; lra. }
  assert (0 < / hi) by (by apply Rinv_0_lt_compat).
  assert (/ (exp (2 * x) + 1) <= / (lo + 1)) by (apply Rinv_le_contravar; lra).
  assert (/ (/ hi + 1) <= / (exp (2 * x) + 1)) by (apply Rinv_le_contravar; lra).
  unfold Rdiv. lra.
Qed.

Lemma tanh_1_bounds : 0.76 < tanh 1 < 0.7625.
Proof.
  destruct (tanh_between 1 7.3746566928 0.1350708629) as [Hl Hu].
  - lra.
  - apply exp_2_lower. lra.
  - apply exp_2_upper. lra.
  - lra.
  - assert (0.76 < 1 - 2 / (7.3746566928 + 1)) by lra.
    assert (1 - 2 / (/ 0.1350708629 + 1) < 0.7625) by lra.
    lra.
Qed.

Lemma sqrt_8_bounds : 2.82842 < sqrt 8 < 2.82843.
Proof.
  split.
  - rewrite <- (sqrt_square 2.82842) by lra. apply sqrt_lt_1; lra.
  - rewrite <- (sqrt_square 2.82843) by lra. apply sqrt_lt_1; lra.
Qed.

Lemma tanh_sqrt8_bounds : 0.6 < tanh (sqrt 8 / 4) < 0.6125.
Proof.
  pose proof sqrt_8_bounds as [H1 H2].
  destruct (tanh_between (sqrt 8 / 4) 4.05038161 0.241210410) as [Hl Hu].
  - lra.
  - apply exp_sqrt2_lower. lra.
  - apply exp_sqrt2_upper. lra.
  - lra.
  - assert (0.6 < 1 - 2 / (4.05038161 + 1)) by lra.
    assert (1 - 2 / (/ 0.241210410 + 1) < 0.6125) by lra.
    lra.
Qed.

Lemma dist1_nonneg dx dy : 0 <= dist1 dx dy.
Proof. apply sqrt_pos. Qed.

Lemma coreProfile_range dist : 0 <= dist -> 0 <= coreProfile dist <= 1.
Proof.
  intros Hd. unfold coreProfile. split.
  - apply Rmin_glb; lra.
  - pose proof (Rmin_l 1.0 (dist / 4.0)). lra.
Qed.

(** The profile lies between 0.2 and 0.2 + 0.8 tanh 1, which is about
    0.81. *)
Lemma softProfile_range dist :
  0 <= dist ->
  0.2 <= softProfile dist <= 0.2 + 0.8 * tanh 1 /\
  0.808 < 0.2 + 0.8 * tanh 1 < 0.81.
Proof.
  intros Hd. destruct (coreProfile_range dist Hd) as [H0 H1].
  pose proof (tanh_nonneg _ H0). pose proof (tanh_le _ _ H1).
  pose proof tanh_1_bounds. unfold softProfile. lra.
Qed.

Lemma softProfile_sqrt8 : 0.68 < softProfile (sqrt 8) < 0.69.
Proof.
  pose proof sqrt_8_bounds. pose proof tanh_sqrt8_bounds.
  unfold softProfile, coreProfile.
  rewrite Rmin_right by lra. replace (sqrt 8 / 4.0) with (sqrt 8 / 4) by lra.
  lra.
Qed.

Lemma softProfile_centre : softProfile 0 = 0.2.
Proof.
  unfold softProfile, coreProfile.
  replace (0 / 4.0) with 0 by lra. rewrite Rmin_right by lra.
  rewrite tanh_zero. lra.
Qed.

Lemma softProfile_far dist : 4 <= dist -> softProfile dist = 0.2 + 0.8 * tanh 1.
Proof.
  intros Hd. unfold softProfile, coreProfile.
  rewrite Rmin_left by lra. f_equal. f_equal. f_equal. lra.
Qed.

(** A rotation keeps the magnitude; the profile scales it. *)
Lemma mag_rotate_scale u_ v_ theta p :
  0 <= p ->
  mag ((u_ * cos theta - v_ * sin theta) * p)
      ((u_ * sin theta + v_ * cos theta) * p) = p * mag u_ v_.
Proof.
  intros Hp. unfold mag.
  pose proof (sin2_cos2 theta) as H1. unfold Rsqr in H1.
  replace (_ + _) with ((p * p) * (u_ * u_ + v_ * v_)).
  - rewrite sqrt_mult by nra. by rewrite sqrt_square.
  - transitivity
      (p * p * (u_ * u_ + v_ * v_) * (sin theta * sin theta + cos theta * cos theta)).
    + rewrite H1. ring.
    + ring.
Qed.

Lemma mag_nonneg u_ v_ : 0 <= mag u_ v_.
Proof. apply sqrt_pos. Qed.

Lemma mag_scale k u_ v_ : 0 <= k -> mag (k * u_) (k * v_) = k * mag u_ v_.
Proof.
  intros Hk. unfold mag.
  replace (_ + _) with ((k * k) * (u_ * u_ + v_ * v_)) by ring.
  rewrite sqrt_mult by nra. by rewrite sqrt_square.
Qed.

(** Rotating by an angle and back gives the value back. *)
Lemma rotate_back u_ v_ theta p :
  let u1 := (u_ * cos theta - v_ * sin theta) * p in
  let v1 := (u_ * sin theta + v_ * cos theta) * p in
  (u1 * cos (theta * -1) - v1 * sin (theta * -1)) * p = p * p * u_ /\
  (u1 * sin (theta * -1) + v1 * cos (theta * -1)) * p = p * p * v_.
Proof.
  intros u1 v1. subst u1 v1.
  replace (theta * -1) with (- theta) by ring. rewrite cos_neg, sin_neg.
  pose proof (sin2_cos2 theta) as H1. unfold Rsqr in H1.
  split.
  - transitivity (p * p * u_ * (sin theta * sin theta + cos theta * cos theta)).
    + ring.
    + rewrite H1. ring.
  - transitivity (p * p * v_ * (sin theta * sin theta + cos theta * cos theta)).
    + ring.
    + rewrite H1. ring.
Qed.

(** [atan2] sees the direction only. *)
Lemma atan2_scale k y x : 0 < k -> Js.atan2 (k * y) (k * x) = Js.atan2 y x.
Proof.
  intros Hk. unfold Js.atan2.
  assert (x <> 0 -> k * y / (k * x) = y / x) as Hdiv by (intros; field; lra).
  destruct (Rlt_dec 0 x) as [Hx|Hx].
  { destruct (Rlt_dec 0 (k * x)); [|nra]. rewrite Hdiv by lra. done. }
  destruct (Rlt_dec 0 (k * x)); [nra|].
  destruct (Rlt_dec x 0) as [Hx'|Hx'].
  { destruct (Rlt_dec (k * x) 0); [|nra]. rewrite Hdiv by lra.
    destruct (Rle_dec 0 y), (Rle_dec 0 (k * y)); try nra; done. }
  destruct (Rlt_dec (k * x) 0); [nra|].
  destruct (Rlt_dec 0 y), (Rlt_dec 0 (k * y)); try nra; try done.
  destruct (Rlt_dec y 0), (Rlt_dec (k * y) 0); try nra; done.
Qed.

Lemma atan2_zero_pos x : 0 < x -> Js.atan2 0 x = 0.
Proof.
  intros Hx. unfold Js.atan2. destruct (Rlt_dec 0 x); [|lra].
  unfold Rdiv. rewrite Rmult_0_l. apply atan_0.
Qed.

Lemma atan2_zero_neg x : x < 0 -> Js.atan2 0 x = PI.
Proof.
  intros Hx. unfold Js.atan2.
  destruct (Rlt_dec 0 x); [lra|]. destruct (Rlt_dec x 0); [|lra].
  destruct (Rle_dec 0 0); [|lra].
  unfold Rdiv. rewrite Rmult_0_l, atan_0. lra.
Qed.

(** Truncation and remainder. *)
Lemma trunc_nonneg r z : IZR z <= r < IZR z + 1 -> 0 <= r -> Js.trunc r = z.
Proof.
  intros Hz Hr. unfold Js.trunc. destruct (Rle_dec 0 r); [|lra].
  symmetry. apply Int_part_spec. lra.
Qed.

Lemma trunc_neg r z : IZR z - 1 < r <= IZR z -> r < 0 -> Js.trunc r = z.
Proof.
  intros Hz Hr. unfold Js.trunc. destruct (Rle_dec 0 r); [lra|].
  rewrite <- (Int_part_spec (- r) (- z)); [lia|]. rewrite opp_IZR. lra.
Qed.

Lemma div_between a b lo hi :
  0 < b -> lo * b <= a < hi * b -> lo <= a / b < hi.
Proof.
  intros Hb [Hlo Hhi].
  assert (a = a / b * b) as E by (field; lra).
  set (q := a / b) in *. clearbody q. subst a. split; nra.
Qed.

Lemma div_between' a b lo hi :
  0 < b -> lo * b < a <= hi * b -> lo < a / b <= hi.
Proof.
  intros Hb [Hlo Hhi].
  assert (a = a / b * b) as E by (field; lra).
  set (q := a / b) in *. clearbody q. subst a. split; nra.
Qed.

Lemma rem_eval a b z :
  0 < b -> 0 <= a -> IZR z * b <= a < (IZR z + 1) * b ->
  Js.rem a b = a - IZR z * b.
Proof.
  intros Hb Ha Hz. unfold Js.rem.
  rewrite (trunc_nonneg (a / b) z).
  - ring.
  - by apply div_between.
  - assert (0 <= a / b < IZR z + 1) by (apply div_between; lra). lra.
Qed.

Lemma rem_eval_neg a b z :
  0 < b -> a < 0 -> (IZR z - 1) * b < a <= IZR z * b ->
  Js.rem a b = a - IZR z * b.
Proof.
  intros Hb Ha Hz. unfold Js.rem.
  rewrite (trunc_neg (a / b) z).
  - ring.
  - by apply div_between'.
  - apply Rdiv_neg_pos; lra.
Qed.

End RealFacts.

(** ** The injector, cell by cell *)

Lemma magAt_uniform w h x y :
  0 <= x < w -> 0 <= y < h -> magAt (uniform w h 1 0) x y = 1%R.
Proof.
  intros Hx Hy. unfold magAt.
  change (gridSizeX (uniform w h 1 0)) with w.
  destruct (uniform_cells w h 1 0 (y * w + x)) as [-> ->];
    [by apply cell_index_in_range|].
  unfold mag. replace (1 * 1 + 0 * 0)%R with 1%R by ring. apply sqrt_1.
Qed.


Lemma magAt_imprint cx cy winding s x y :
  shape s -> 0 <= x < gridSizeX s -> 0 <= y < gridSizeY s ->
  magAt (imprintSingleVortex cx cy winding s) x y =
    (softProfile (distance s cx cy x y) * magAt s x y)%R.
Proof.
  intros Hshape Hx Hy.
  destruct (imprintSingleVortex_spec cx cy winding s Hshape)
    as ((HX & _) & _ & _ & _ & Hcells).
  destruct (Hcells x y Hx Hy) as [Eu Ev].
  unfold magAt. rewrite HX, Eu, Ev. unfold imprintU, imprintV, distance.
  apply mag_rotate_scale.
  pose proof (softProfile_range _ (dist1_nonneg
    (dx1 (gridSizeX s) (Js.rem (cx + IZR (gridSizeX s)) (IZR (gridSizeX s))) x)
    (dy1 (gridSizeY s) (Js.rem (cy + IZR (gridSizeY s)) (IZR (gridSizeY s))) y))).
  lra.
Qed.

(** The centre and the distances on the 4 by 4 grid with centre (2, 2). *)
Lemma centre_2_of_4 : Js.rem (2 + IZR 4) (IZR 4) = 2%R.
Proof. rewrite (rem_eval _ _ 1); lra. Qed.

Lemma distance_4x4_centre s :
  gridSizeX s = 4 -> gridSizeY s = 4 -> distance s 2 2 2 2 = 0%R.
Proof.
  intros HX HY. unfold distance. rewrite HX, HY, centre_2_of_4.
  unfold dx1, dy1, shortest.
  case_comparisons.
  unfold dist1. replace (_ + _)%R with 0%R by lra. apply sqrt_0.
Qed.

Lemma distance_4x4_corner s :
  gridSizeX s = 4 -> gridSizeY s = 4 -> distance s 2 2 0 0 = sqrt 8.
Proof.
  intros HX HY. unfold distance. rewrite HX, HY, centre_2_of_4.
  unfold dx1, dy1, shortest.
  case_comparisons.
  unfold dist1. f_equal. lra.
Qed.

(** The far cell of the 4 by 4 scenario keeps the fraction
    [softProfile (sqrt 8)] of its magnitude. *)
Lemma imprint_4x4_corner s :
  shape s -> gridSizeX s = 4 -> gridSizeY s = 4 ->
  magAt (imprintSingleVortex 2 2 1 s) 0 0 =
    (softProfile (sqrt 8) * magAt s 0 0)%R.
Proof.
  intros Hshape HX HY.
  rewrite magAt_imprint by (rewrite ?HX, ?HY; done || lia).
  by rewrite distance_4x4_corner.
Qed.

(** C4, as stated, fails: on the 4 by 4 grid whose cells all hold 1 + 0i,
    after [imprint(2, 2, +1)] the magnitude of cell (0, 0) is not within 5%
    of the magnitude 1 that it had. *)
Lemma imprint_4x4_far_cell_not_retained :
  magAt (uniform 4 4 1 0) 0 0 = 1%R /\
  ~ Spec.within_5_percent
      (magAt (imprintSingleVortex 2 2 1 (uniform 4 4 1 0)) 0 0)
      (magAt (uniform 4 4 1 0) 0 0).
Proof.
  assert (magAt (uniform 4 4 1 0) 0 0 = 1%R) as E1
    by (apply magAt_uniform; lia).
  split; [exact E1|]. unfold Spec.within_5_percent.
  rewrite imprint_4x4_corner by (reflexivity || (apply uniform_shape; lia)).
  rewrite E1. pose proof softProfile_sqrt8 as [Hlo Hhi].
  rewrite Rabs_left by lra. lra.
Qed.

(** C4, amended.  On a 4 by 4 grid with every cell at magnitude 1, after
    [imprint(2, 2, +1)] the magnitude of cell (0, 0) is the soft-core
    profile at distance sqrt 8, that is 0.2 + 0.8 tanh (sqrt 8 / 4), a
    number between 0.68 and 0.69. *)
Theorem imprint_4x4_far_cell (s : Sim) :
  shape s -> gridSizeX s = 4 -> gridSizeY s = 4 ->
  (forall x y, 0 <= x < 4 -> 0 <= y < 4 -> magAt s x y = 1%R) ->
  let t := imprintSingleVortex 2 2 1 s in
  magAt t 0 0 = softProfile (sqrt 8) /\
  softProfile (sqrt 8) = (0.2 + 0.8 * tanh (sqrt 8 / 4))%R /\
  (0.68 < magAt t 0 0 < 0.69)%R.
Proof.
  intros Hshape HX HY Hmag t.
  assert (magAt t 0 0 = softProfile (sqrt 8)) as E.
  { subst t. rewrite imprint_4x4_corner, Hmag by (done || lia). ring. }
  split; [done|]. split.
  - pose proof sqrt_8_bounds. unfold softProfile, coreProfile.
    rewrite Rmin_right by lra. do 3 f_equal. lra.
  - rewrite E. apply softProfile_sqrt8.
Qed.

(** ** A vortex and then an anti-vortex at the same place *)

Lemma imprint_twice cx cy winding s x y :
  shape s -> 0 <= x < gridSizeX s -> 0 <= y < gridSizeY s ->
  let t :=
    imprintSingleVortex cx cy (winding * -1)
      (imprintSingleVortex cx cy winding s) in
  let p := softProfile (distance s cx cy x y) in
  let i := y * gridSizeX s + x in
  get (u t) i = (p * p * get (u s) i)%R /\
  get (v t) i = (p * p * get (v s) i)%R.
Proof.
  intros Hshape Hx Hy t p i.
  destruct (imprintSingleVortex_spec cx cy winding s Hshape)
    as (Hset1 & Hshape1 & _ & _ & Hcells1).
  set (s1 := imprintSingleVortex cx cy winding s) in *.
  destruct (imprintSingleVortex_spec cx cy (winding * -1) s1 Hshape1)
    as (_ & _ & _ & _ & Hcells2).
  destruct Hset1 as (HX & HY & _). rewrite HX, HY in Hcells2.
  destruct (Hcells1 x y Hx Hy) as [E1u E1v].
  destruct (Hcells2 x y Hx Hy) as [E2u E2v].
  subst t i. rewrite E2u, E2v, E1u, E1v. subst p.
  unfold imprintU, imprintV, distance.
  set (dx := dx1 _ _ x). set (dy := dy1 _ _ y).
  replace (Js.atan2 dy dx * (winding * -1))%R
    with (Js.atan2 dy dx * winding * -1)%R by ring.
  apply rotate_back.
Qed.

Lemma imprintSingleVortex_gridSizeX cx cy winding s :
  shape s -> gridSizeX (imprintSingleVortex cx cy winding s) = gridSizeX s.
Proof. intros Hshape. by apply imprintSingleVortex_spec. Qed.

Lemma magAt_imprint_twice cx cy winding s x y :
  shape s -> 0 <= x < gridSizeX s -> 0 <= y < gridSizeY s ->
  let t :=
    imprintSingleVortex cx cy (winding * -1)
      (imprintSingleVortex cx cy winding s) in
  let p := softProfile (distance s cx cy x y) in
  magAt t x y = (p * p * magAt s x y)%R.
Proof.
  intros Hshape Hx Hy t p.
  destruct (imprint_twice cx cy winding s x y Hshape Hx Hy) as [Eu Ev].
  assert (shape (imprintSingleVortex cx cy winding s)) as Hshape1
    by (by apply imprintSingleVortex_spec).
  unfold magAt. subst t.
  rewrite !imprintSingleVortex_gridSizeX by done.
  rewrite Eu, Ev. apply mag_scale.
  apply Rmult_le_pos; apply Rlt_le, Rlt_le_trans with 0.2%R; try lra;
    apply softProfile_range, dist1_nonneg.
Qed.

Lemma distance_8x8_four s :
  gridSizeX s = 8 -> gridSizeY s = 8 -> distance s 0 0 4 0 = 4%R.
Proof.
  intros HX HY. unfold distance. rewrite HX, HY.
  rewrite (rem_eval _ _ 1) by lra.
  unfold dx1, dy1, shortest.
  case_comparisons.
  unfold dist1. replace (_ + _)%R with (4 * 4)%R by lra.
  apply sqrt_square. lra.
Qed.

(** C6, as stated, fails: on the 8 by 8 grid whose cells all hold 1 + 0i,
    after [imprint(0, 0, +1)] and [imprint(0, 0, -1)] the magnitude of cell
    (4, 0), four cells away from the centre, is below 0.66, not within 5% of
    the magnitude 1 that it had. *)
Lemma imprint_toggle_not_restored :
  magAt (uniform 8 8 1 0) 4 0 = 1%R /\
  (magAt (imprintSingleVortex 0 0 (-1)
            (imprintSingleVortex 0 0 1 (uniform 8 8 1 0))) 4 0 < 0.66)%R /\
  ~ Spec.within_5_percent
      (magAt (imprintSingleVortex 0 0 (-1)
                (imprintSingleVortex 0 0 1 (uniform 8 8 1 0))) 4 0)
      (magAt (uniform 8 8 1 0) 4 0).
Proof.
  assert (shape (uniform 8 8 1 0)) as Hshape by (apply uniform_shape; lia).
  assert (magAt (uniform 8 8 1 0) 4 0 = 1%R) as E1
    by (apply magAt_uniform; lia).
  pose proof (magAt_imprint_twice 0 0 1 (uniform 8 8 1 0) 4 0 Hshape
                ltac:(cbn; lia) ltac:(cbn; lia)) as E.
  cbv zeta in E. replace (1 * -1)%R with (-1)%R in E by ring.
  rewrite distance_8x8_four, softProfile_far, E1 in E
    by (reflexivity || lra).
  pose proof tanh_1_bounds as Ht.
  set (m := magAt (imprintSingleVortex _ _ _ _) 4 0) in *. clearbody m.
  assert (m < 0.66)%R as Hlt by (rewrite E; nra).
  split; [done|]. split; [done|].
  unfold Spec.within_5_percent. rewrite E1. rewrite Rabs_left by lra. lra.
Qed.

(** C6, amended.  A vortex and then an anti-vortex at the same place give
    every cell its old value times the square of the soft-core profile at
    the distance of the cell, a positive number.  So the phase of the cell
    comes back to what it was, as an angle modulo 2 PI (in exact
    arithmetic; the stores of the program round, which near the cut of
    [atan2] can turn PI into -PI).  The magnitude does not come back: it
    is between 0.039 and 0.6561 times what it was. *)
Theorem imprint_toggle_restores_phase (cx cy : R) (s : Sim) (x y : Z) :
  shape s -> 0 <= x < gridSizeX s -> 0 <= y < gridSizeY s ->
  let t := imprintSingleVortex cx cy (-1) (imprintSingleVortex cx cy 1 s) in
  let p := softProfile (distance s cx cy x y) in
  let i := y * gridSizeX s + x in
  get (u t) i = (p * p * get (u s) i)%R /\
  get (v t) i = (p * p * get (v s) i)%R /\
  (0.999999 < cos (phaseAt t x y - phaseAt s x y))%R /\
  (0.039 * magAt s x y <= magAt t x y <= 0.6561 * magAt s x y)%R.
Proof.
  intros Hshape Hx Hy t p i.
  destruct (imprint_twice cx cy 1 s x y Hshape Hx Hy) as [Eu Ev].
  pose proof (magAt_imprint_twice cx cy 1 s x y Hshape Hx Hy) as Em.
  cbv zeta in Eu, Ev, Em. replace (1 * -1)%R with (-1)%R in * by ring.
  fold t p i in Eu, Ev, Em.
  assert (0.2 <= p <= 0.2 + 0.8 * tanh 1 /\ 0.808 < 0.2 + 0.8 * tanh 1 < 0.81)%R
    as [[Hlo Hhi] Hmax] by (apply softProfile_range, dist1_nonneg).
  split; [done|]. split; [done|].
  assert (phaseAt t x y = phaseAt s x y) as ->.
  { unfold phaseAt. subst t.
    rewrite !imprintSingleVortex_gridSizeX
      by (done || by apply imprintSingleVortex_spec).
    fold i. rewrite Eu, Ev. apply atan2_scale. nra. }
  assert (0 <= magAt s x y)%R as Hm by (unfold magAt; apply mag_nonneg). rewrite Em.
  assert (0.04 <= p * p <= 0.6561)%R as Hpp by nra.
  split; [|split; nra].
  replace (phaseAt s x y - phaseAt s x y)%R with 0%R by ring.
  rewrite cos_0. lra.
Qed.

(** ** The centre is wrapped for one period only *)

Lemma Int_part_plus_Z r k : Int_part (r + IZR k) = Int_part r + k.
Proof.
  symmetry. apply Int_part_spec. rewrite plus_IZR.
  destruct (base_Int_part r). lra.
Qed.

Lemma rem_period a b k :
  (0 < b)%R -> (0 <= a)%R -> (0 <= a + IZR k * b)%R ->
  Js.rem (a + IZR k * b) b = Js.rem a b.
Proof.
  intros Hb Ha Hk. unfold Js.rem, Js.trunc.
  assert ((a + IZR k * b) / b = a / b + IZR k)%R as -> by (field; lra).
  assert (0 <= a / b)%R.
  { unfold Rdiv. apply Rmult_le_pos; [done|]. by apply Rlt_le, Rinv_0_lt_compat. }
  assert (0 <= a / b + IZR k)%R.
  { replace (a / b + IZR k)%R with ((a + IZR k * b) / b)%R by (field; lra).
    unfold Rdiv. apply Rmult_le_pos; [done|]. by apply Rlt_le, Rinv_0_lt_compat. }
  destruct (Rle_dec 0 (a / b)); [|lra].
  destruct (Rle_dec 0 (a / b + IZR k)); [|lra].
  rewrite Int_part_plus_Z, plus_IZR. ring.
Qed.

(** Centres that are not below minus the width and minus the height are
    wrapped: adding whole periods to such a centre gives the same call. *)
Lemma imprint_centre_wrapped cx cy winding (k m : Z) s :
  0 < gridSizeX s -> 0 < gridSizeY s ->
  (- IZR (gridSizeX s) <= cx)%R ->
  (- IZR (gridSizeX s) <= cx + IZR k * IZR (gridSizeX s))%R ->
  (- IZR (gridSizeY s) <= cy)%R ->
  (- IZR (gridSizeY s) <= cy + IZR m * IZR (gridSizeY s))%R ->
  imprintSingleVortex (cx + IZR k * IZR (gridSizeX s))
    (cy + IZR m * IZR (gridSizeY s)) winding s =
  imprintSingleVortex cx cy winding s.
Proof.
  intros Hw Hh Hx Hxk Hy Hym. unfold imprintSingleVortex.
  apply IZR_lt in Hw, Hh.
  replace (cx + IZR k * IZR (gridSizeX s) + IZR (gridSizeX s))%R
    with (cx + IZR (gridSizeX s) + IZR k * IZR (gridSizeX s))%R by ring.
  replace (cy + IZR m * IZR (gridSizeY s) + IZR (gridSizeY s))%R
    with (cy + IZR (gridSizeY s) + IZR m * IZR (gridSizeY s))%R by ring.
  rewrite !rem_period by lra. done.
Qed.

(** C7 fails below minus the width.  On the 4 by 4 grid whose cells all hold
    1 + 0i, the centres [cx = 0.5] and [cx - 2 * width = -7.5] give cell
    (3, 0) values of opposite sign: [(cx + w) % w] is -3.5 for the second
    centre, the displacement to the cell is 2.5 the long way round instead
    of -1.5, and the two calls leave different fields. *)
Theorem imprint_centre_not_wrapped :
  let s := uniform 4 4 1 0 in
  let w := gridSizeX s in
  let a := imprintSingleVortex 0.5 0 1 s in
  let b := imprintSingleVortex (0.5 + IZR (-2) * IZR w) 0 1 s in
  (get (u a) (0 * w + 3) < 0)%R /\ (0 < get (u b) (0 * w + 3))%R /\ a <> b.
Proof.
  intros s w a b.
  assert (shape s) as Hshape by (apply uniform_shape; lia).
  destruct (uniform_cells 4 4 1 0 (0 * 4 + 3) ltac:(lia)) as [Hu Hv].
  fold s in Hu, Hv.
  assert (get (u a) (0 * w + 3) < 0)%R as Ha.
  { destruct (imprintSingleVortex_spec 0.5 0 1 s Hshape)
      as (_ & _ & _ & _ & Hcells).
    destruct (Hcells 3 0 ltac:(cbn; lia) ltac:(cbn; lia)) as [E _].
    fold a in E. subst w.
    change (gridSizeX s) with 4 in *. change (gridSizeY s) with 4 in *.
    rewrite E, Hu, Hv. unfold imprintU.
    rewrite (rem_eval (0.5 + 4) 4 1), (rem_eval (0 + 4) 4 1) by lra.
    set (dx := dx1 _ _ 3). set (dy := dy1 _ _ 0).
    assert (dx = (-1.5)%R) as Edx.
    { subst dx. unfold dx1, shortest.
      case_comparisons. }
    assert (dy = 0%R) as Edy.
    { subst dy. unfold dy1, shortest.
      case_comparisons. }
    rewrite Edx, Edy, atan2_zero_neg by lra.
    rewrite Rmult_1_r, cos_PI, sin_PI.
    pose proof (softProfile_range _ (dist1_nonneg (-1.5) 0)). lra. }
  assert (0 < get (u b) (0 * w + 3))%R as Hb.
  { destruct (imprintSingleVortex_spec (0.5 + IZR (-2) * IZR w) 0 1 s Hshape)
      as (_ & _ & _ & _ & Hcells).
    destruct (Hcells 3 0 ltac:(cbn; lia) ltac:(cbn; lia)) as [E _].
    fold b in E. subst w.
    change (gridSizeX s) with 4 in *. change (gridSizeY s) with 4 in *.
    rewrite E, Hu, Hv. unfold imprintU.
    rewrite (rem_eval_neg (0.5 + -2 * 4 + 4) 4 0), (rem_eval (0 + 4) 4 1) by lra.
    set (dx := dx1 _ _ 3). set (dy := dy1 _ _ 0).
    assert (dx = 2.5%R) as Edx.
    { subst dx. unfold dx1, shortest.
      case_comparisons. }
    assert (dy = 0%R) as Edy.
    { subst dy. unfold dy1, shortest.
      case_comparisons. }
    rewrite Edx, Edy, atan2_zero_pos by lra.
    rewrite Rmult_0_l, cos_0, sin_0.
    pose proof (softProfile_range _ (dist1_nonneg 2.5 0)). lra. }
  split; [exact Ha|]. split; [exact Hb|].
  intros Eab. rewrite Eab in Ha. lra.
Qed.

(** ** The hue wheel *)

Lemma hue_PI : hue PI = 180%R.
Proof.
  unfold hue. pose proof PI_RGT_0.
  replace (PI * 180 / PI + 360)%R with 540%R by (field; lra).
  rewrite (rem_eval 540 360 1); lra.
Qed.

Lemma hue_minus_PI : hue (- PI) = 180%R.
Proof.
  unfold hue. pose proof PI_RGT_0.
  replace (- PI * 180 / PI + 360)%R with 180%R by (field; lra).
  rewrite (rem_eval 180 360 0); lra.
Qed.

(** ** The shape of the buffers is invariant *)

Lemma allocate_shape this :
  0 <= gridSizeX this * gridSizeY this -> shape (allocate this).
Proof.
  intros Hn. unfold shape, allocate. simpl. rewrite !len_new by done. done.
Qed.

Lemma seedCell_frame random s i t :
  same_settings s t /\ same_lengths s t ->
  same_settings s (seedCell random i t) /\ same_lengths s (seedCell random i t).
Proof.
  unfold same_settings, same_lengths, seedCell. simpl.
  rewrite !len_set. tauto.
Qed.

Lemma initializeGrid_frame random s :
  same_settings s (initializeGrid random s) /\
  same_lengths s (initializeGrid random s).
Proof.
  unfold initializeGrid.
  apply (for_range_inv (fun t => same_settings s t /\ same_lengths s t));
    [auto with sim|].
  intros i t _ Ht. by apply seedCell_frame.
Qed.

Lemma initializeGrid_shape random s : shape s -> shape (initializeGrid random s).
Proof.
  intros Hshape. destruct (initializeGrid_frame random s) as [Hset Hlen].
  by eapply shape_transfer.
Qed.

Lemma imprintSingleVortex_shape cx cy winding s :
  shape s -> shape (imprintSingleVortex cx cy winding s).
Proof. intros Hshape. by apply imprintSingleVortex_spec. Qed.

Lemma spawnVortex_shape screenX screenY s :
  shape s -> shape (spawnVortex screenX screenY s).
Proof.
  intros Hshape. unfold spawnVortex.
  set (t := imprintSingleVortex _ _ _ s).
  assert (shape t) as Ht by (by apply imprintSingleVortex_shape).
  revert Ht. unfold shape, with_nextWinding. simpl. done.
Qed.

Lemma spawnVortex_grid screenX screenY s :
  shape s ->
  gridSizeX (spawnVortex screenX screenY s) = gridSizeX s /\
  gridSizeY (spawnVortex screenX screenY s) = gridSizeY s.
Proof.
  intros Hshape. unfold spawnVortex, with_nextWinding. simpl.
  destruct (imprintSingleVortex_spec (screenX / cellWidth s)
              (screenY / cellHeight s) (nextWinding s) s Hshape)
    as ((HX & HY & _) & _). done.
Qed.

(** Every call keeps the shape and the grid sizes. *)
Lemma perform_shape c s :
  shape s ->
  shape (perform c s) /\
  gridSizeX (perform c s) = gridSizeX s /\
  gridSizeY (perform c s) = gridSizeY s.
Proof.
  intros Hshape. destruct c as [random|cx cy winding|sx sy|random]; simpl.
  - split; [by apply updatePhysics_shape|].
    destruct (updatePhysics_settings random s) as (HX & HY & _). done.
  - split; [by apply imprintSingleVortex_shape|].
    destruct (imprintSingleVortex_spec cx cy winding s Hshape)
      as ((HX & HY & _) & _). done.
  - split; [by apply spawnVortex_shape | by apply spawnVortex_grid].
  - split; [by apply initializeGrid_shape|].
    destruct (initializeGrid_frame random s) as ((HX & HY & _) & _). done.
Qed.

Lemma run_shape cs s :
  shape s ->
  shape (run cs s) /\
  gridSizeX (run cs s) = gridSizeX s /\ gridSizeY (run cs s) = gridSizeY s.
Proof.
  unfold run. revert s. induction cs as [|c cs IH]; intros s Hshape; simpl.
  - done.
  - destruct (perform_shape c s Hshape) as (Hshape' & HX & HY).
    destruct (IH (perform c s) Hshape') as (H1 & H2 & H3).
    split; [done|]. split; congruence.
Qed.

Lemma ceil_div_pos a b : 0 < a -> 0 < b -> 0 < Js.ceil_div a b.
Proof.
  intros Ha Hb. unfold Js.ceil_div.
  assert (- a / b < 0) by (apply Z.div_lt_upper_bound; lia). lia.
Qed.

(** A container of width zero is not a valid size: [createImageData] throws
    before the arrays are replaced, and the object keeps its old arrays next
    to a grid size of zero. *)
Lemma setupCanvas_zero_width this clientHeight random :
  exists s,
    setupCanvas (Some (0, clientHeight)) random this = Thrown s /\
    gridSizeX s = 0 /\ u s = u this /\ v s = v this /\
    uNext s = uNext this /\ vNext s = vNext this.
Proof.
  unfold setupCanvas. eexists. split; [reflexivity|]. simpl. tauto.
Qed.

(** C9. For container sizes above zero [setupCanvas] completes; right after
    it the four arrays have length [gridSizeX * gridSizeY], the grid sizes
    being the container sizes divided by the cell size, rounded up; and
    after any further sequence of steps, imprints, spawns and reseedings
    the four arrays still have that length and the grid sizes are the
    same. *)
Theorem buffer_shape_invariant (this : Sim) (clientWidth clientHeight : Z)
    (random : nat -> R) (calls : list call) :
  0 < clientWidth -> 0 < clientHeight ->
  exists s,
    setupCanvas (Some (clientWidth, clientHeight)) random this = Normal s /\
    let w := gridSizeX s in
    let h := gridSizeY s in
    w = Js.ceil_div clientWidth (Z.max 2 (targetCellSize this)) /\
    h = Js.ceil_div clientHeight (Z.max 2 (targetCellSize this)) /\
    0 < w /\ 0 < h /\
    len (u s) = w * h /\ len (v s) = w * h /\
    len (uNext s) = w * h /\ len (vNext s) = w * h /\
    let t := run calls s in
    gridSizeX t = w /\ gridSizeY t = h /\
    len (u t) = w * h /\ len (v t) = w * h /\
    len (uNext t) = w * h /\ len (vNext t) = w * h.
Proof.
  intros Hcw Hch. unfold setupCanvas.
  set (cell := Z.max 2 (targetCellSize this)).
  set (gx := Js.ceil_div clientWidth cell).
  set (gy := Js.ceil_div clientHeight cell).
  assert (0 < gx) as Hgx by (apply ceil_div_pos; lia).
  assert (0 < gy) as Hgy by (apply ceil_div_pos; lia).
  set (s0 := with_grid gx gy _ _ this).
  change (gridSizeX s0) with gx. change (gridSizeY s0) with gy.
  destruct (gx =? 0) eqn:Ex; [lia|]. destruct (gy =? 0) eqn:Ey; [lia|].
  simpl. eexists. split; [reflexivity|].
  assert (shape (allocate s0)) as Hshape0 by (apply allocate_shape; simpl; nia).
  destruct (initializeGrid_frame random (allocate s0)) as [Hset Hlen].
  set (s := initializeGrid random (allocate s0)) in *.
  assert (shape s) as Hshape by (by eapply shape_transfer).
  assert (gridSizeX s = gx /\ gridSizeY s = gy) as [HX HY].
  { destruct Hset as (HX & HY & _). rewrite HX, HY. done. }
  destruct (run_shape calls s Hshape) as (Hshape' & HX' & HY').
  destruct Hshape as (A & B & C & D). destruct Hshape' as (A' & B' & C' & D').
  rewrite HX', HY' in *. rewrite HX, HY in *. repeat split; done.
Qed.

(** * The theorems at concrete inputs *)

(** A step of the field whose only nonzero cell is (0, 1), at cell (3, 1),
    its left neighbour across the seam. *)
Lemma updatePhysics_euler_step_witness :
  let s := single 4 4 0 1 2 3 in
  let t := updatePhysics (fun _ => 0%R) s in
  (shape s /\ noiseLevel s = 0%R /\
   0 <= 3 < gridSizeX s /\ 0 <= 1 < gridSizeY s) /\
  get (u t) (1 * 4 + 3) =
    Spec.euler (diffusion s) (dt s) (Spec.Laplacian (u s) 4 4 3 1)
      (get (u s) (1 * 4 + 3)) (get (u s) (1 * 4 + 3)) (get (v s) (1 * 4 + 3)) /\
  get (v t) (1 * 4 + 3) =
    Spec.euler (diffusion s) (dt s) (Spec.Laplacian (v s) 4 4 3 1)
      (get (v s) (1 * 4 + 3)) (get (u s) (1 * 4 + 3)) (get (v s) (1 * 4 + 3)) /\
  uNext t = u s /\ vNext t = v s.
Proof.
  intros s t.
  assert (shape s) as Hshape by (apply single_shape; lia).
  assert (noiseLevel s = 0%R) as Hquiet by reflexivity.
  assert (0 <= 3 < gridSizeX s) as Hx by (cbn; lia).
  assert (0 <= 1 < gridSizeY s) as Hy by (cbn; lia).
  split; [repeat split; assumption || lia|].
  exact (updatePhysics_euler_step (fun _ => 0%R) s 3 1 Hshape Hquiet Hx Hy).
Defined.

(** The field whose only nonzero cell is the corner (0, 0) of a 4 by 4
    grid: after one step the cells (3, 0) and (0, 3) are nonzero. *)
Lemma updatePhysics_periodic_witness :
  let s := single 4 4 0 0 1 0 in
  let t := updatePhysics (fun _ => 0%R) s in
  (shape s /\ noiseLevel s = 0%R /\ dt s <> 0%R /\ diffusion s <> 0%R /\
   only_cell s 0 0) /\
  nonzero_at t 3 0 /\ nonzero_at t 0 3.
Proof.
  intros s t.
  assert (shape s) as Hshape by (apply single_shape; lia).
  assert (noiseLevel s = 0%R) as Hquiet by reflexivity.
  assert (dt s <> 0%R) as Hdt by (cbn; lra).
  assert (diffusion s <> 0%R) as HD by (cbn; lra).
  assert (0 <= 0 < gridSizeX s) as Hx by (cbn; lia).
  assert (0 <= 0 < gridSizeY s) as Hy by (cbn; lia).
  assert (only_cell s 0 0) as Honly.
  { destruct (single_cells 4 4 0 0 1 0) as (Eu & Ev & Hothers); [lia | lia |].
    split; [left; fold s in Eu; change (gridSizeX s) with 4; rewrite Eu; lra|].
    exact Hothers. }
  split; [exact (conj Hshape (conj Hquiet (conj Hdt (conj HD Honly))))|].
  destruct (updatePhysics_periodic (fun _ => 0%R) s 0 0
              Hshape Hquiet Hdt HD Hx Hy Honly)
    as (_ & _ & Hleft & _ & Hup & _).
  split; [apply Hleft | apply Hup]; cbn; lia.
Defined.

(** The 4 by 4 scenario. *)
Lemma imprint_4x4_far_cell_witness :
  let s := uniform 4 4 1 0 in
  let t := imprintSingleVortex 2 2 1 s in
  (shape s /\ gridSizeX s = 4 /\ gridSizeY s = 4 /\
   forall x y, 0 <= x < 4 -> 0 <= y < 4 -> magAt s x y = 1%R) /\
  magAt t 0 0 = softProfile (sqrt 8) /\
  softProfile (sqrt 8) = (0.2 + 0.8 * tanh (sqrt 8 / 4))%R /\
  (0.68 < magAt t 0 0 < 0.69)%R.
Proof.
  intros s t.
  assert (shape s) as Hshape by (apply uniform_shape; lia).
  assert (forall x y, 0 <= x < 4 -> 0 <= y < 4 -> magAt s x y = 1%R) as Hmag
    by (intros x y Hx Hy; by apply magAt_uniform).
  split; [repeat split; assumption || reflexivity|].
  exact (imprint_4x4_far_cell s Hshape eq_refl eq_refl Hmag).
Defined.

(** The 8 by 8 grid, centre (0, 0), cell (4, 0). *)
Lemma imprint_toggle_restores_phase_witness :
  let s := uniform 8 8 1 0 in
  let t := imprintSingleVortex 0 0 (-1) (imprintSingleVortex 0 0 1 s) in
  let p := softProfile (distance s 0 0 4 0) in
  (shape s /\ 0 <= 4 < gridSizeX s /\ 0 <= 0 < gridSizeY s) /\
  get (u t) (0 * gridSizeX s + 4) = (p * p * get (u s) (0 * gridSizeX s + 4))%R /\
  get (v t) (0 * gridSizeX s + 4) = (p * p * get (v s) (0 * gridSizeX s + 4))%R /\
  (0.999999 < cos (phaseAt t 4 0 - phaseAt s 4 0))%R /\
  (0.039 * magAt s 4 0 <= magAt t 4 0 <= 0.6561 * magAt s 4 0)%R.
Proof.
  intros s t p.
  assert (shape s) as Hshape by (apply uniform_shape; lia).
  assert (0 <= 4 < gridSizeX s) as Hx by (cbn; lia).
  assert (0 <= 0 < gridSizeY s) as Hy by (cbn; lia).
  split; [repeat split; assumption || lia|].
  exact (imprint_toggle_restores_phase 0 0 s 4 0 Hshape Hx Hy).
Defined.

(** The program as constructed (empty arrays), a 48 by 36 container, then
    a step and an imprint: a 4 by 3 grid. *)
Lemma buffer_shape_invariant_witness :
  (0 < 48 /\ 0 < 36) /\
  exists s,
    setupCanvas (Some (48, 36)) (fun _ => 0%R) (uniform 0 0 0 0) = Normal s /\
    gridSizeX s = 4 /\ gridSizeY s = 3 /\
    len (u s) = 12 /\ len (v s) = 12 /\
    len (uNext s) = 12 /\ len (vNext s) = 12 /\
    let t := run [Step (fun _ => 0%R); Imprint 2 1 1] s in
    len (u t) = 12 /\ len (v t) = 12 /\
    len (uNext t) = 12 /\ len (vNext t) = 12.
Proof.
  split; [lia|].
  destruct (buffer_shape_invariant (uniform 0 0 0 0) 48 36 (fun _ => 0%R)
              [Step (fun _ => 0%R); Imprint 2 1 1])
    as (s & Hs & HX & HY & _ & _ & A & B & C & D & _ & _ & A' & B' & C' & D');
    [lia | lia |].
  exists s. split; [exact Hs|].
  change (Js.ceil_div 48 (Z.max 2 (targetCellSize (uniform 0 0 0 0)))) with 4
    in HX.
  change (Js.ceil_div 36 (Z.max 2 (targetCellSize (uniform 0 0 0 0)))) with 3
    in HY.
  rewrite HX, HY in *. repeat split; assumption.
Defined.

(** * More of the program, proved *)

(** ** The solver with the noise on *)

Lemma noiseCell_writes random scale i t :
  u (noiseCell random scale i t) =
    set (u t) i (get (u t) i + (random (2 * Z.to_nat i)%nat - 0.5) * scale)%R /\
  v (noiseCell random scale i t) =
    set (v t) i (get (v t) i + (random (2 * Z.to_nat i + 1)%nat - 0.5) * scale)%R /\
  uNext (noiseCell random scale i t) = uNext t /\
  vNext (noiseCell random scale i t) = vNext t.
Proof. unfold noiseCell. simpl. tauto. Qed.

(** The noise loop adds its perturbation to every cell of the current
    field and leaves everything else alone. *)
Lemma afterNoise_spec random s :
  shape s -> (noiseLevel s > 0)%R ->
  let p := afterNoise random s in
  same_settings s p /\ shape p /\ uNext p = uNext s /\ vNext p = vNext s /\
  forall i, 0 <= i < gridSizeX s * gridSizeY s ->
    get (u p) i = (get (u s) i + noiseU random s i)%R /\
    get (v p) i = (get (v s) i + noiseV random s i)%R.
Proof.
  intros Hshape Hnoise p. subst p. unfold afterNoise.
  destruct (Rgt_dec (noiseLevel s) 0) as [_|]; [|lra].
  set (n := gridSizeX s * gridSizeY s).
  set (scale := (noiseLevel s * 0.1)%R).
  set (P := fun (k : Z) (t : Sim) =>
    (same_settings s t /\ same_lengths s t) /\
    uNext t = uNext s /\ vNext t = vNext s /\
    (forall i, 0 <= i < k ->
       get (u t) i = (get (u s) i + noiseU random s i)%R /\
       get (v t) i = (get (v s) i + noiseV random s i)%R) /\
    (forall i, k <= i -> get (u t) i = get (u s) i /\ get (v t) i = get (v s) i)).
  assert (0 <= n) as Hn
    by (destruct Hshape as (SU0 & _); unfold len in SU0; subst n; lia).
  assert (P n (for_range n (noiseCell random scale) s))
    as ((Hset & Hlen) & HU & HV & Hdone & _).
  { apply for_range_ind; [done | |].
    - split; [auto with sim|]. repeat split; (done || intros; lia).
    - intros i t Hi (Hframe & HU & HV & Hdone & Htodo).
      destruct (noiseCell_writes random scale i t) as (Eu & Ev & EU & EV).
      split; [by apply noiseCell_frame|].
      rewrite EU, EV, Eu, Ev. split; [done|]. split; [done|].
      destruct Hframe as (_ & (LU & LV & _)).
      destruct Hshape as (SU & SV & _). fold n in SU, SV.
      destruct (Htodo i ltac:(lia)) as [-> ->].
      split.
      + intros j Hj. destruct (Z.eq_dec j i) as [->|Hne].
        * rewrite !get_set_eq by lia. done.
        * rewrite !get_set_ne by done. apply Hdone. lia.
      + intros j Hj. rewrite !get_set_ne by lia. apply Htodo. lia. }
  split; [done|]. split; [by eapply shape_transfer|]. done.
Qed.

Lemma afterNoise_quiet random s : (noiseLevel s <= 0)%R -> afterNoise random s = s.
Proof.
  intros Hq. unfold afterNoise. destruct (Rgt_dec (noiseLevel s) 0); [lra | done].
Qed.

Lemma afterNoise_frame random s :
  shape s ->
  same_settings s (afterNoise random s) /\ shape (afterNoise random s) /\
  uNext (afterNoise random s) = uNext s /\ vNext (afterNoise random s) = vNext s.
Proof.
  intros Hshape. destruct (Rle_or_lt (noiseLevel s) 0) as [Hq|Hn].
  - rewrite afterNoise_quiet by done. auto with sim.
  - destruct (afterNoise_spec random s Hshape Hn) as (A & B & C & D & _). done.
Qed.

(** A step is the solver loop on the field after the noise, then the swap. *)
Lemma updatePhysics_afterNoise random s :
  updatePhysics random s =
  swapBuffers
    (for_range (gridSizeY s)
       (fun y => for_range (gridSizeX s)
                   (fun x => solverCell (gridSizeX s) (gridSizeY s) x y))
       (afterNoise random s)).
Proof. reflexivity. Qed.

(** Any step, cell by cell: the values of the quiet step of the field after
    the noise. *)
Lemma updatePhysics_cells random s :
  shape s ->
  let p := afterNoise random s in
  let t := updatePhysics random s in
  uNext t = u p /\ vNext t = v p /\
  forall x y, 0 <= x < gridSizeX s -> 0 <= y < gridSizeY s ->
    get (u t) (y * gridSizeX s + x) = nextU p x y /\
    get (v t) (y * gridSizeX s + x) = nextV p x y.
Proof.
  intros Hshape p t. subst t. rewrite updatePhysics_afterNoise. fold p.
  destruct (afterNoise_frame random s Hshape) as ((HX & HY & _) & Hp & _).
  fold p in HX, HY, Hp. rewrite <- HX, <- HY.
  destruct (solver_loop_spec p Hp) as [(Hu & Hv & _) Hcells].
  set (t := for_range _ _ p) in *.
  destruct (swapBuffers_fields t) as (-> & -> & -> & -> & _).
  rewrite Hu, Hv. done.
Qed.

(** Arrays over the same grid with the same cells are the same array. *)
Lemma grid_ext w h (a b : list R) :
  0 <= w -> 0 <= h -> len a = w * h -> len b = w * h ->
  (forall x y, 0 <= x < w -> 0 <= y < h ->
     get a (y * w + x) = get b (y * w + x)) ->
  a = b.
Proof.
  intros Hw Hh La Lb Hcells. apply array_ext; [congruence|].
  intros i Hi. rewrite La in Hi.
  assert (0 < w) as Hw' by nia.
  destruct (index_cell w i Hw' ltac:(lia)) as (E & Hx & Hy0).
  assert (i / w < h) by (apply Z.div_lt_upper_bound; lia).
  rewrite E. apply Hcells; lia.
Qed.

(** X1. With the noise on, a step first adds to both parts of every cell of
    the current field a perturbation [(random - 0.5) * noiseLevel * 0.1],
    drawn for the real part and then for the imaginary part of each cell in
    index order, and then applies the Euler step to the perturbed field:
    the stencil of a cell reads the perturbed neighbours.  After the swap
    the next buffers hold the perturbed field.  For draws in [0, 1) no
    perturbation exceeds [0.05 * noiseLevel]. *)
Theorem updatePhysics_noise_before_stencil random (s : Sim) (x y : Z) :
  shape s -> (noiseLevel s > 0)%R ->
  0 <= x < gridSizeX s -> 0 <= y < gridSizeY s ->
  let w := gridSizeX s in
  let h := gridSizeY s in
  let i := y * w + x in
  let p := afterNoise random s in
  let t := updatePhysics random s in
  (forall j, 0 <= j < w * h ->
     get (u p) j = (get (u s) j + noiseU random s j)%R /\
     get (v p) j = (get (v s) j + noiseV random s j)%R) /\
  get (u t) i =
    Spec.euler (diffusion s) (dt s) (Spec.Laplacian (u p) w h x y)
      (get (u p) i) (get (u p) i) (get (v p) i) /\
  get (v t) i =
    Spec.euler (diffusion s) (dt s) (Spec.Laplacian (v p) w h x y)
      (get (v p) i) (get (u p) i) (get (v p) i) /\
  uNext t = u p /\ vNext t = v p /\
  ((forall k, 0 <= random k < 1)%R ->
   forall j, (Rabs (noiseU random s j) <= 0.05 * noiseLevel s)%R /\
             (Rabs (noiseV random s j) <= 0.05 * noiseLevel s)%R).
Proof.
  intros Hshape Hnoise Hx Hy w h i p t.
  destruct (afterNoise_spec random s Hshape Hnoise)
    as ((HX & HY & _ & _ & _ & HD & Hdt & _) & _ & _ & _ & Hp).
  destruct (updatePhysics_cells random s Hshape) as (HU & HV & Hcells).
  destruct (Hcells x y Hx Hy) as [Eu Ev].
  fold p in HX, HY, HD, Hdt, Hp, HU, HV, Eu, Ev. fold t in HU, HV, Eu, Ev.
  split; [exact Hp|]. fold w i in Eu, Ev.
  rewrite Eu, Ev. unfold nextU, nextV, Spec.euler.
  rewrite HX, HY, HD, Hdt. fold w h i.
  rewrite !laplacian_wraps by done.
  split; [done|]. split; [done|]. split; [done|]. split; [done|].
  intros Hrandom j. unfold noiseU, noiseV.
  pose proof (Hrandom (2 * Z.to_nat j)%nat).
  pose proof (Hrandom (2 * Z.to_nat j + 1)%nat).
  split; apply Rabs_le; split; nra.
Qed.

(** X2. The step never reads the next buffers: whatever they hold before
    the call, the new field is the same, and so are the next buffers
    after the call. *)
Theorem updatePhysics_ignores_next random (s : Sim) (a b : list R) :
  shape s -> 0 <= gridSizeX s -> 0 <= gridSizeY s ->
  len a = len (uNext s) -> len b = len (vNext s) ->
  let t := updatePhysics random s in
  let t' := updatePhysics random (with_next a b s) in
  u t' = u t /\ v t' = v t /\ uNext t' = uNext t /\ vNext t' = vNext t.
Proof.
  intros Hshape Hw Hh La Lb t t'. subst t t'.
  set (s' := with_next a b s).
  assert (shape s') as Hshape'.
  { destruct Hshape as (A & B & C & D). unfold shape, s', with_next. simpl.
    rewrite La, Lb. done. }
  assert (u (afterNoise random s') = u (afterNoise random s) /\
          v (afterNoise random s') = v (afterNoise random s)) as [EU EV].
  { destruct (Rle_or_lt (noiseLevel s) 0) as [Hq|Hn].
    - rewrite !afterNoise_quiet by done. done.
    - destruct (afterNoise_spec random s Hshape Hn)
        as (_ & (L1 & L2 & _) & _ & _ & Hp).
      destruct (afterNoise_spec random s' Hshape' Hn)
        as (_ & (L1' & L2' & _) & _ & _ & Hp').
      destruct (afterNoise_frame random s Hshape) as ((HX & HY & _) & _).
      destruct (afterNoise_frame random s' Hshape') as ((HX' & HY' & _) & _).
      split; apply array_ext;
        try (rewrite ?L1, ?L2, ?L1', ?L2', ?HX, ?HY, ?HX', ?HY'; done).
      + intros i Hi. rewrite L1', HX', HY' in Hi.
        destruct (Hp i Hi) as [-> _]. destruct (Hp' i Hi) as [-> _]. done.
      + intros i Hi. rewrite L2', HX', HY' in Hi.
        destruct (Hp i Hi) as [_ ->]. destruct (Hp' i Hi) as [_ ->]. done. }
  destruct (updatePhysics_cells random s Hshape) as (HU & HV & Hcells).
  destruct (updatePhysics_cells random s' Hshape') as (HU' & HV' & Hcells').
  cbv zeta in HU, HV, Hcells, HU', HV', Hcells'.
  assert (shape (updatePhysics random s)) as (L1 & L2 & _)
    by (by apply updatePhysics_shape).
  assert (shape (updatePhysics random s')) as (L1' & L2' & _)
    by (by apply updatePhysics_shape).
  destruct (updatePhysics_settings random s) as (HX & HY & _).
  destruct (updatePhysics_settings random s') as (HX' & HY' & _).
  destruct (afterNoise_frame random s Hshape)
    as ((PX & PY & _ & _ & _ & PD & Pdt & _) & _).
  destruct (afterNoise_frame random s' Hshape')
    as ((PX' & PY' & _ & _ & _ & PD' & Pdt' & _) & _).
  assert (forall x y, nextU (afterNoise random s') x y
                      = nextU (afterNoise random s) x y /\
                      nextV (afterNoise random s') x y
                      = nextV (afterNoise random s) x y) as Hnext.
  { intros x y. unfold nextU, nextV.
    rewrite EU, EV, PX, PY, PD, Pdt, PX', PY', PD', Pdt'. done. }
  split; [|split; [|split; [rewrite HU', HU | rewrite HV', HV]; done]].
  - apply (grid_ext (gridSizeX s) (gridSizeY s)); try done;
      [rewrite L1', HX', HY'; done | rewrite L1, HX, HY; done |].
    intros x y Hx Hy. destruct (Hcells x y Hx Hy) as [-> _].
    destruct (Hcells' x y Hx Hy) as [E _]. change (gridSizeX s') with (gridSizeX s) in E.
    rewrite E. apply Hnext.
  - apply (grid_ext (gridSizeX s) (gridSizeY s)); try done;
      [rewrite L2', HX', HY'; done | rewrite L2, HX, HY; done |].
    intros x y Hx Hy. destruct (Hcells x y Hx Hy) as [_ ->].
    destruct (Hcells' x y Hx Hy) as [_ E]. change (gridSizeX s') with (gridSizeX s) in E.
    rewrite E. apply Hnext.
Qed.

(** ** Symmetries of the quiet step *)

Lemma nth_zip_with (f : R -> R -> R) (a b : list R) (n : nat) :
  length a = length b -> (n < length a)%nat ->
  nth n (zip_with f a b) 0%R = f (nth n a 0%R) (nth n b 0%R).
Proof.
  revert b n. induction a as [|x a IH]; intros [|y b] [|n] Hlen Hn;
    simpl in *; try lia; [done|]. apply IH; lia.
Qed.

Lemma get_zip_with (f : R -> R -> R) (a b : list R) i :
  len a = len b -> 0 <= i < len a ->
  get (zip_with f a b) i = f (get a i) (get b i).
Proof.
  unfold len, get. intros Hlen Hi. destruct (i <? 0) eqn:E; [lia|].
  apply nth_zip_with; lia.
Qed.

Lemma len_zip_with (f : R -> R -> R) (a b : list R) :
  len a = len b -> len (zip_with f a b) = len a.
Proof. unfold len. intros Hlen. rewrite length_zip_with. lia. Qed.

Lemma rotate_spec theta s :
  shape s ->
  same_settings s (rotate theta s) /\ shape (rotate theta s) /\
  forall i, 0 <= i < gridSizeX s * gridSizeY s ->
    get (u (rotate theta s)) i
      = (get (u s) i * cos theta - get (v s) i * sin theta)%R /\
    get (v (rotate theta s)) i
      = (get (u s) i * sin theta + get (v s) i * cos theta)%R.
Proof.
  intros (A & B & C & D).
  split; [unfold rotate, same_settings; simpl; tauto|].
  split.
  - unfold shape, rotate. simpl. rewrite !len_zip_with by congruence. done.
  - intros i Hi. unfold rotate. simpl.
    rewrite !get_zip_with by (congruence || lia). done.
Qed.

(** The stencil is linear. *)
Lemma laplacian_linear (a b c : list R) w h x y (k m : R) :
  (forall i, 0 <= i < w * h -> get c i = (get a i * k + get b i * m)%R) ->
  0 <= x < w -> 0 <= y < h ->
  laplacian c w h x y = (laplacian a w h x y * k + laplacian b w h x y * m)%R.
Proof.
  intros Hc Hx Hy. unfold laplacian.
  destruct (stencil_reads_in_range w h x y Hx Hy) as (H1 & H2 & H3 & H4 & H5).
  rewrite !Hc by done. ring.
Qed.

(** X3. The quiet step commutes with a global change of phase: rotating
    every cell by the same angle and then stepping gives the field that
    stepping and then rotating gives. *)
Theorem updatePhysics_phase_symmetry random (theta : R) (s : Sim) :
  shape s -> noiseLevel s = 0%R -> 0 <= gridSizeX s -> 0 <= gridSizeY s ->
  u (updatePhysics random (rotate theta s))
    = u (rotate theta (updatePhysics random s)) /\
  v (updatePhysics random (rotate theta s))
    = v (rotate theta (updatePhysics random s)).
Proof.
  intros Hshape Hquiet Hw Hh.
  destruct (rotate_spec theta s Hshape)
    as ((RX & RY & _ & _ & _ & RD & Rdt & RN & _) & Hshape' & Hrot).
  set (s' := rotate theta s) in *.
  assert (noiseLevel s' = 0%R) as Hquiet' by congruence.
  destruct (updatePhysics_spec random s Hshape Hquiet)
    as ((TX & TY & _) & Hshapet & _ & _ & Hcells).
  destruct (updatePhysics_spec random s' Hshape' Hquiet')
    as ((TX' & TY' & _) & (L1 & L2 & _) & _ & _ & Hcells').
  set (t := updatePhysics random s) in *.
  set (t' := updatePhysics random s') in *.
  destruct (rotate_spec theta t Hshapet) as (_ & (M1 & M2 & _) & Hrott).
  assert (gridSizeX (rotate theta t) = gridSizeX s /\
          gridSizeY (rotate theta t) = gridSizeY s) as [QX QY].
  { destruct (rotate_spec theta t Hshapet) as ((QX & QY & _) & _).
    split; congruence. }
  rewrite QX, QY in M1, M2. rewrite TX, TY in Hrott.
  rewrite TX', TY', RX, RY in L1, L2.
  pose proof (sin2_cos2 theta) as Hsc. unfold Rsqr in Hsc.
  assert (forall x y, 0 <= x < gridSizeX s -> 0 <= y < gridSizeY s ->
            nextU s' x y
              = (nextU s x y * cos theta - nextV s x y * sin theta)%R /\
            nextV s' x y
              = (nextU s x y * sin theta + nextV s x y * cos theta)%R) as Hnext.
  { intros x y Hx Hy. unfold nextU, nextV. rewrite RX, RY, RD, Rdt.
    pose proof (cell_index_in_range _ _ x y Hx Hy) as Hi.
    rewrite (laplacian_linear (u s) (v s) (u s') _ _ _ _ (cos theta) (- sin theta))
      by (done || intros i Hin; destruct (Hrot i Hin) as [-> _]; ring).
    rewrite (laplacian_linear (u s) (v s) (v s') _ _ _ _ (sin theta) (cos theta))
      by (done || intros i Hin; destruct (Hrot i Hin) as [_ ->]; ring).
    destruct (Hrot _ Hi) as [-> ->].
    set (a := get (u s) _). set (b := get (v s) _).
    set (la := laplacian (u s) _ _ x y). set (lb := laplacian (v s) _ _ x y).
    replace ((a * cos theta - b * sin theta) * (a * cos theta - b * sin theta)
             + (a * sin theta + b * cos theta) * (a * sin theta + b * cos theta))%R
      with ((a * a + b * b) * (sin theta * sin theta + cos theta * cos theta))%R
      by ring.
    rewrite Hsc. split; ring. }
  split; apply (grid_ext (gridSizeX s) (gridSizeY s)); try done.
  - intros x y Hx Hy.
    pose proof (cell_index_in_range _ _ x y Hx Hy) as Hi.
    destruct (Hrott _ Hi) as [-> _].
    destruct (Hcells x y Hx Hy) as [-> ->].
    destruct (Hcells' x y) as [E _]; [by rewrite RX | by rewrite RY |].
    rewrite RX in E. rewrite E. by apply Hnext.
  - intros x y Hx Hy.
    pose proof (cell_index_in_range _ _ x y Hx Hy) as Hi.
    destruct (Hrott _ Hi) as [_ ->].
    destruct (Hcells x y Hx Hy) as [-> ->].
    destruct (Hcells' x y) as [_ E]; [by rewrite RX | by rewrite RY |].
    rewrite RX in E. rewrite E. by apply Hnext.
Qed.

Lemma len_remap f a : len (remap f a) = len a.
Proof. unfold len, remap. by rewrite length_map, length_seq. Qed.

Lemma get_remap f a i : 0 <= i < len a -> get (remap f a) i = get a (f i).
Proof.
  unfold len. intros Hi. unfold get at 1. destruct (i <? 0) eqn:E; [lia|].
  unfold remap. rewrite nth_lookup, list_lookup_fmap, lookup_seq_lt by lia.
  simpl. by rewrite Z2Nat.id by lia.
Qed.

Lemma cell_div_mod w x y : 0 <= x < w -> (y * w + x) / w = y /\ (y * w + x) mod w = x.
Proof.
  intros Hx. split.
  - rewrite Z.div_add_l by lia. rewrite Z.div_small by done. lia.
  - rewrite Z.add_comm, Z_mod_plus_full. by apply Z.mod_small.
Qed.

Lemma spec_cell_periodic a w h x y :
  Spec.cell a w h (x mod w) (y mod h) = Spec.cell a w h x y.
Proof. unfold Spec.cell. by rewrite !Zmod_mod. Qed.

Lemma spec_cell_in_range a w h x y :
  0 <= x < w -> 0 <= y < h -> Spec.cell a w h x y = get a (y * w + x).
Proof. intros Hx Hy. unfold Spec.cell. by rewrite !Z.mod_small. Qed.

Lemma spec_Laplacian_periodic a w h x y :
  Spec.Laplacian a w h (x mod w) (y mod h) = Spec.Laplacian a w h x y.
Proof.
  unfold Spec.Laplacian, Spec.cell.
  rewrite !Zminus_mod_idemp_l, !Zplus_mod_idemp_l, !Zmod_mod. done.
Qed.

Lemma nextU_spec s x y :
  0 <= x < gridSizeX s -> 0 <= y < gridSizeY s ->
  nextU s x y = specNextU s x y /\ nextV s x y = specNextV s x y.
Proof.
  intros Hx Hy. unfold nextU, nextV, specNextU, specNextV, Spec.euler.
  rewrite !laplacian_wraps, !spec_cell_in_range by done. done.
Qed.

Lemma specNext_periodic s x y :
  specNextU s (x mod gridSizeX s) (y mod gridSizeY s) = specNextU s x y /\
  specNextV s (x mod gridSizeX s) (y mod gridSizeY s) = specNextV s x y.
Proof.
  unfold specNextU, specNextV.
  rewrite !spec_Laplacian_periodic, !spec_cell_periodic. done.
Qed.

Lemma translate_spec dx dy s :
  shape s -> 0 < gridSizeX s -> 0 < gridSizeY s ->
  let s' := translate dx dy s in
  let w := gridSizeX s in
  let h := gridSizeY s in
  same_settings s s' /\ shape s' /\
  forall x y,
    Spec.cell (u s') w h x y = Spec.cell (u s) w h (x - dx) (y - dy) /\
    Spec.cell (v s') w h x y = Spec.cell (v s) w h (x - dx) (y - dy).
Proof.
  intros (A & B & C & D) Hw Hh s' w h.
  split; [unfold s', translate, same_settings; simpl; tauto|].
  split.
  - unfold shape, s', translate. simpl. rewrite !len_remap. done.
  - intros x y. unfold Spec.cell, s', translate. simpl. fold w h.
    pose proof (Z.mod_pos_bound x w Hw) as Hx.
    pose proof (Z.mod_pos_bound y h Hh) as Hy.
    pose proof (cell_index_in_range w h _ _ Hx Hy) as Hi.
    rewrite !get_remap by (rewrite ?A, ?B; done).
    unfold shiftIndex.
    destruct (cell_div_mod w (x mod w) (y mod h) Hx) as [-> ->].
    rewrite !Zminus_mod_idemp_l. done.
Qed.

(** X4. The quiet step commutes with every translation of the torus:
    moving the field by [dx] columns and [dy] rows (cells leaving on one
    edge come back on the opposite one) and then stepping gives the field
    that stepping and then moving gives.  No row or column of the grid is
    treated as a boundary. *)
Theorem updatePhysics_translation_symmetry random (dx dy : Z) (s : Sim) :
  shape s -> noiseLevel s = 0%R -> 0 < gridSizeX s -> 0 < gridSizeY s ->
  u (updatePhysics random (translate dx dy s))
    = u (translate dx dy (updatePhysics random s)) /\
  v (updatePhysics random (translate dx dy s))
    = v (translate dx dy (updatePhysics random s)).
Proof.
  intros Hshape Hquiet Hw Hh.
  destruct (translate_spec dx dy s Hshape Hw Hh)
    as ((RX & RY & _ & _ & _ & RD & Rdt & RN & _) & Hshape' & Hmove).
  set (s' := translate dx dy s) in *.
  assert (noiseLevel s' = 0%R) as Hquiet' by congruence.
  destruct (updatePhysics_spec random s Hshape Hquiet)
    as ((TX & TY & _) & Hshapet & _ & _ & Hcells).
  destruct (updatePhysics_spec random s' Hshape' Hquiet')
    as ((TX' & TY' & _) & (L1 & L2 & _) & _ & _ & Hcells').
  set (t := updatePhysics random s) in *.
  set (t' := updatePhysics random s') in *.
  destruct (translate_spec dx dy t Hshapet) as ((QX & QY & _) & (M1 & M2 & _) & Hmovet);
    [lia | lia |].
  rewrite QX, QY, TX, TY in M1, M2. rewrite TX, TY in Hmovet.
  rewrite TX', TY', RX, RY in L1, L2.
  set (w := gridSizeX s) in *. set (h := gridSizeY s) in *.
  assert (forall x y, specNextU s' x y = specNextU s (x - dx) (y - dy) /\
                      specNextV s' x y = specNextV s (x - dx) (y - dy)) as Hnext.
  { intros x y. unfold specNextU, specNextV, Spec.Laplacian.
    rewrite RX, RY, RD, Rdt. fold w h.
    destruct (Hmove x y) as [-> ->].
    destruct (Hmove (x - 1) y) as [-> ->]. destruct (Hmove (x + 1) y) as [-> ->].
    destruct (Hmove x (y - 1)) as [-> ->]. destruct (Hmove x (y + 1)) as [-> ->].
    replace (x - 1 - dx) with (x - dx - 1) by lia.
    replace (x + 1 - dx) with (x - dx + 1) by lia.
    replace (y - 1 - dy) with (y - dy - 1) by lia.
    replace (y + 1 - dy) with (y - dy + 1) by lia.
    done. }
  assert (forall x y, 0 <= x < w -> 0 <= y < h ->
            get (u t') (y * w + x) = get (u (translate dx dy t)) (y * w + x) /\
            get (v t') (y * w + x) = get (v (translate dx dy t)) (y * w + x))
    as Hall.
  { intros x y Hx Hy.
    destruct (Hcells' x y) as [Eu Ev]; [by rewrite RX | by rewrite RY |].
    rewrite RX in Eu, Ev. fold w in Eu, Ev. rewrite Eu, Ev.
    destruct (nextU_spec s' x y) as [-> ->]; [by rewrite RX | by rewrite RY |].
    destruct (Hnext x y) as [-> ->].
    destruct (specNext_periodic s (x - dx) (y - dy)) as [<- <-]. fold w h.
    pose proof (Z.mod_pos_bound (x - dx) w Hw) as Hx'.
    pose proof (Z.mod_pos_bound (y - dy) h Hh) as Hy'.
    destruct (nextU_spec s _ _ Hx' Hy') as [<- <-].
    destruct (Hcells _ _ Hx' Hy') as [<- <-]. fold w.
    destruct (Hmovet x y) as [Cu Cv].
    rewrite !spec_cell_in_range in Cu, Cv by done.
    rewrite Cu, Cv. unfold Spec.cell. done. }
  split; apply (grid_ext w h); try done; try lia;
    intros x y Hx Hy; by apply Hall.
Qed.

(** ** Uniform fields *)

Lemma uniform_next s a b x y :
  (forall i, 0 <= i < gridSizeX s * gridSizeY s ->
     get (u s) i = a /\ get (v s) i = b) ->
  0 <= x < gridSizeX s -> 0 <= y < gridSizeY s ->
  nextU s x y = (a * (1 + dt s * (1 - (a * a + b * b))))%R /\
  nextV s x y = (b * (1 + dt s * (1 - (a * a + b * b))))%R.
Proof.
  intros Hcells Hx Hy. unfold nextU, nextV, laplacian.
  destruct (stencil_reads_in_range _ _ x y Hx Hy) as (H1 & H2 & H3 & H4 & H5).
  destruct (Hcells _ H1) as [-> ->]. destruct (Hcells _ H2) as [-> ->].
  destruct (Hcells _ H3) as [-> ->]. destruct (Hcells _ H4) as [-> ->].
  destruct (Hcells _ H5) as [-> ->]. split; ring.
Qed.

(** X5. A uniform field stays uniform under the quiet step, whatever the
    diffusion: every cell [a + ib] becomes [k (a + ib)] with
    [k = 1 + dt (1 - |psi|^2)].  So the zero field and the fields of
    magnitude one are fixed points, and for [0 < dt <= 1/2] a uniform field
    of magnitude strictly between 0 and 1 keeps its phase and grows in
    magnitude without passing 1. *)
Theorem updatePhysics_uniform_relaxes random (s : Sim) (a b : R) :
  shape s -> noiseLevel s = 0%R -> 0 <= gridSizeX s -> 0 <= gridSizeY s ->
  (forall i, 0 <= i < gridSizeX s * gridSizeY s ->
     get (u s) i = a /\ get (v s) i = b) ->
  let k := (1 + dt s * (1 - (a * a + b * b)))%R in
  let t := updatePhysics random s in
  (forall i, 0 <= i < gridSizeX s * gridSizeY s ->
     get (u t) i = (a * k)%R /\ get (v t) i = (b * k)%R) /\
  ((a * a + b * b = 1)%R \/ (a = 0%R /\ b = 0%R) -> u t = u s /\ v t = v s) /\
  ((0 < dt s <= 1 / 2)%R -> (0 < a * a + b * b < 1)%R ->
   (mag a b < mag (a * k) (b * k) <= 1)%R /\
   Js.atan2 (b * k) (a * k) = Js.atan2 b a).
Proof.
  intros Hshape Hquiet Hw Hh Hcells k t.
  destruct (updatePhysics_spec random s Hshape Hquiet)
    as ((HX & HY & _) & (L1 & L2 & _) & _ & _ & Hnext).
  fold t in HX, HY, L1, L2, Hnext.
  assert (forall i, 0 <= i < gridSizeX s * gridSizeY s ->
            get (u t) i = (a * k)%R /\ get (v t) i = (b * k)%R) as Hall.
  { intros i Hi. assert (0 < gridSizeX s) as Hw' by nia.
    destruct (index_cell _ i Hw' ltac:(lia)) as (E & Hx & Hy0).
    assert (i / gridSizeX s < gridSizeY s)
      by (apply Z.div_lt_upper_bound; lia).
    rewrite E. destruct (Hnext (i mod gridSizeX s) (i / gridSizeX s))
      as [-> ->]; [done | lia |].
    apply uniform_next; (done || lia). }
  split; [exact Hall|]. split.
  - intros Hfix. destruct Hshape as (S1 & S2 & _).
    assert (forall c, c = a \/ c = b -> (c * k = c)%R) as Hk.
    { intros c Hc. subst k. destruct Hfix as [-> | [-> ->]].
      - ring.
      - destruct Hc as [-> | ->]; ring. }
    split; apply array_ext; try (rewrite ?L1, ?L2, ?S1, ?S2, ?HX, ?HY; done).
    + intros i Hi. rewrite L1, HX, HY in Hi.
      destruct (Hall i Hi) as [-> _]. destruct (Hcells i Hi) as [-> _].
      apply Hk. by left.
    + intros i Hi. rewrite L2, HX, HY in Hi.
      destruct (Hall i Hi) as [_ ->]. destruct (Hcells i Hi) as [_ ->].
      apply Hk. by right.
  - intros Hdt Hm.
    assert (1 < k)%R as Hk by (subst k; nra).
    rewrite (Rmult_comm a k), (Rmult_comm b k), mag_scale, atan2_scale by lra.
    split; [|done].
    pose proof (mag_nonneg a b) as Hm0.
    assert (mag a b * mag a b = a * a + b * b)%R as Hsq
      by (unfold mag; apply sqrt_sqrt; nra).
    set (m := mag a b) in *. clearbody m.
    assert (0 < m)%R by nra. assert (m < 1)%R by nra.
    split; [nra|]. subst k. rewrite <- Hsq.
    assert (0 <= (1 - m) * (1 - m) * (m + 2))%R by nra.
    nra.
Qed.

(** ** The injector: centres, displacements, composition *)

Section Displacement.
Local Open Scope R_scope.

(** The remainder of a dividend that is not negative. *)
Lemma rem_range a b :
  0 < b -> 0 <= a ->
  0 <= Js.rem a b < b /\ exists z : Z, Js.rem a b = a - IZR z * b.
Proof.
  intros Hb Ha. unfold Js.rem, Js.trunc.
  assert (0 <= a / b) as Hq.
  { unfold Rdiv. apply Rmult_le_pos; [done|]. by apply Rlt_le, Rinv_0_lt_compat. }
  destruct (Rle_dec 0 (a / b)); [|lra].
  destruct (base_Int_part (a / b)) as [Hlo Hhi].
  assert (a = a / b * b) as E by (field; lra).
  set (q := a / b) in *. set (z := Int_part q) in *.
  split; [|exists z; ring].
  clearbody q z. subst a. split; nra.
Qed.

(** Lines 213-218 give a displacement of at most half the circle that
    differs from the plain difference by a whole number of turns. *)
Lemma shortest_range d (n : Z) :
  (0 < n)%Z -> - IZR n < d < IZR n ->
  Rabs (shortest d n) <= IZR n / 2 /\
  exists j : Z, shortest d n = d + IZR j * IZR n.
Proof.
  intros Hn Hd. apply IZR_lt in Hn. unfold shortest.
  destruct (Rgt_dec d (IZR n / 2)) as [H1|H1].
  - destruct (Rlt_dec (d - IZR n) (- IZR n / 2)) as [H2|H2]; [lra|].
    split; [apply Rabs_le; lra | exists (-1)%Z; lra].
  - destruct (Rlt_dec d (- IZR n / 2)) as [H2|H2].
    + split; [apply Rabs_le; lra | exists 1%Z; lra].
    + split; [apply Rabs_le; lra | exists 0%Z; lra].
Qed.

Lemma Rabs_le_bounds x a : Rabs x <= a -> - a <= x <= a.
Proof. unfold Rabs. destruct (Rcase_abs x); lra. Qed.

Lemma Rabs_turns d (n k : Z) :
  (0 < n)%Z -> Rabs d <= IZR n / 2 -> Rabs d <= Rabs (d + IZR k * IZR n).
Proof.
  intros Hn Hd. apply IZR_lt in Hn.
  destruct (Z.eq_dec k 0%Z) as [->|Hk]; [rewrite Rmult_0_l, Rplus_0_r; lra|].
  assert (Rabs d <= IZR n / 2 /\ - (IZR n / 2) <= d <= IZR n / 2) as [_ [Hlo Hhi]].
  { split; [done|]. apply Rabs_le_bounds in Hd. lra. }
  destruct (Z_lt_le_dec k 0%Z) as [Hneg|Hpos].
  - assert (IZR k <= -1) by (apply IZR_le; lia).
    rewrite (Rabs_left (d + IZR k * IZR n)) by nra. nra.
  - assert (1 <= IZR k) by (apply IZR_le; lia).
    rewrite (Rabs_right (d + IZR k * IZR n)) by nra. nra.
Qed.

End Displacement.

(** X6. A centre that is not below minus the width and minus the height is
    wrapped into the grid, and the displacement from it to a cell is the
    shortest one on the torus: in each axis it is at most half the extent,
    it differs from the plain difference by a whole number of turns, and no
    other number of turns gives a shorter one.  The distance is then at
    most half the diagonal of the grid. *)
Theorem imprint_displacement_shortest (cx cy : R) (s : Sim) (x y : Z) :
  0 < gridSizeX s -> 0 < gridSizeY s ->
  (- IZR (gridSizeX s) <= cx)%R -> (- IZR (gridSizeY s) <= cy)%R ->
  0 <= x < gridSizeX s -> 0 <= y < gridSizeY s ->
  let w := gridSizeX s in
  let h := gridSizeY s in
  let x1 := Js.rem (cx + IZR w) (IZR w) in
  let y1 := Js.rem (cy + IZR h) (IZR h) in
  let dx := dx1 w x1 x in
  let dy := dy1 h y1 y in
  (0 <= x1 < IZR w)%R /\ (0 <= y1 < IZR h)%R /\
  (Rabs dx <= IZR w / 2)%R /\ (Rabs dy <= IZR h / 2)%R /\
  (exists k : Z, dx = IZR x - cx + IZR k * IZR w)%R /\
  (exists m : Z, dy = IZR y - cy + IZR m * IZR h)%R /\
  (forall k : Z, Rabs dx <= Rabs (IZR x - cx + IZR k * IZR w))%R /\
  (forall m : Z, Rabs dy <= Rabs (IZR y - cy + IZR m * IZR h))%R /\
  (distance s cx cy x y
   <= sqrt (IZR w / 2 * (IZR w / 2) + IZR h / 2 * (IZR h / 2)))%R.
Proof.
  intros Hw Hh Hcx Hcy Hx Hy w h x1 y1 dx dy.
  pose proof (IZR_lt _ _ Hw) as Hw'. pose proof (IZR_lt _ _ Hh) as Hh'.
  fold w in Hw'. fold h in Hh'. fold w in Hcx. fold h in Hcy.
  destruct (rem_range (cx + IZR w) (IZR w)) as [Hx1 [zx Ex]]; [lra | lra |].
  destruct (rem_range (cy + IZR h) (IZR h)) as [Hy1 [zy Ey]]; [lra | lra |].
  fold x1 in Hx1, Ex. fold y1 in Hy1, Ey.
  assert (0 <= IZR x <= IZR w - 1)%R as Hx'
    by (split; [apply IZR_le; lia | rewrite <- minus_IZR; apply IZR_le; lia]).
  assert (0 <= IZR y <= IZR h - 1)%R as Hy'
    by (split; [apply IZR_le; lia | rewrite <- minus_IZR; apply IZR_le; lia]).
  destruct (shortest_range (IZR x - x1) w Hw) as [Bx [jx Jx]]; [lra|].
  destruct (shortest_range (IZR y - y1) h Hh) as [By [jy Jy]]; [lra|].
  fold (dx1 w x1 x) in Bx, Jx. fold (dy1 h y1 y) in By, Jy.
  fold dx in Bx, Jx. fold dy in By, Jy.
  assert (dx = IZR x - cx + IZR (zx - 1 + jx) * IZR w)%R as Kx
    by (rewrite Jx, Ex, plus_IZR, minus_IZR; ring).
  assert (dy = IZR y - cy + IZR (zy - 1 + jy) * IZR h)%R as Ky
    by (rewrite Jy, Ey, plus_IZR, minus_IZR; ring).
  split; [done|]. split; [done|]. split; [done|]. split; [done|].
  split; [by eexists|]. split; [by eexists|].
  split; [|split].
  - intros k.
    replace (IZR x - cx + IZR k * IZR w)%R
      with (dx + IZR (k - (zx - 1 + jx)) * IZR w)%R
      by (rewrite Kx at 1; rewrite !minus_IZR, !plus_IZR; ring).
    by apply Rabs_turns.
  - intros m.
    replace (IZR y - cy + IZR m * IZR h)%R
      with (dy + IZR (m - (zy - 1 + jy)) * IZR h)%R
      by (rewrite Ky at 1; rewrite !minus_IZR, !plus_IZR; ring).
    by apply Rabs_turns.
  - unfold distance. fold w h x1 y1 dx dy. unfold dist1.
    apply sqrt_le_1_alt.
    apply Rabs_le_bounds in Bx, By.
    apply Rplus_le_compat; nra.
Qed.

(** X7. Two imprints at the same centre add their winding numbers: the
    field after [imprint(cx, cy, w1)] and [imprint(cx, cy, w2)] is the field
    after the single [imprint(cx, cy, w1 + w2)] with every cell scaled once
    more by the soft-core profile at its distance. *)
Theorem imprint_windings_add (cx cy w1 w2 : R) (s : Sim) (x y : Z) :
  shape s -> 0 <= x < gridSizeX s -> 0 <= y < gridSizeY s ->
  let t := imprintSingleVortex cx cy w2 (imprintSingleVortex cx cy w1 s) in
  let t12 := imprintSingleVortex cx cy (w1 + w2) s in
  let p := softProfile (distance s cx cy x y) in
  let i := y * gridSizeX s + x in
  get (u t) i = (p * get (u t12) i)%R /\ get (v t) i = (p * get (v t12) i)%R /\
  magAt t x y = (p * p * magAt s x y)%R.
Proof.
  intros Hshape Hx Hy t t12 p i.
  destruct (imprintSingleVortex_spec cx cy w1 s Hshape)
    as (Hset1 & Hshape1 & _ & _ & Hcells1).
  destruct (imprintSingleVortex_spec cx cy (w1 + w2) s Hshape)
    as (_ & _ & _ & _ & Hcells12).
  set (s1 := imprintSingleVortex cx cy w1 s) in *.
  destruct (imprintSingleVortex_spec cx cy w2 s1 Hshape1)
    as ((HX2 & _) & _ & _ & _ & Hcells2).
  destruct Hset1 as (HX & HY & _). rewrite HX, HY in Hcells2.
  destruct (Hcells1 x y Hx Hy) as [E1u E1v].
  destruct (Hcells2 x y Hx Hy) as [E2u E2v].
  destruct (Hcells12 x y Hx Hy) as [E3u E3v].
  fold t in E2u, E2v, HX2. fold t12 in E3u, E3v. fold i in E1u, E1v, E2u, E2v, E3u, E3v.
  assert (get (u t) i = (p * get (u t12) i)%R /\
          get (v t) i = (p * get (v t12) i)%R) as [Eu Ev].
  { rewrite E2u, E2v, E3u, E3v, E1u, E1v. subst p.
    unfold imprintU, imprintV, distance.
    set (dx := dx1 _ _ x). set (dy := dy1 _ _ y).
    rewrite Rmult_plus_distr_l, cos_plus, sin_plus. split; ring. }
  split; [done|]. split; [done|].
  unfold magAt at 1. rewrite HX2, HX. fold i. rewrite Eu, Ev.
  assert (0.2 <= p)%R as Hp by (apply softProfile_range, dist1_nonneg).
  rewrite mag_scale by lra.
  assert (mag (get (u t12) i) (get (v t12) i) = p * magAt s x y)%R as ->.
  { pose proof (magAt_imprint cx cy (w1 + w2) s x y Hshape Hx Hy) as E.
    unfold magAt at 1 in E.
    rewrite imprintSingleVortex_gridSizeX in E by done. exact E. }
  ring.
Qed.

(** ** Spawning *)

Lemma for_range_commute {S : Type} (g : S -> S) n (body : Z -> S -> S) s :
  (forall i t, body i (g t) = g (body i t)) ->
  for_range n body (g s) = g (for_range n body s).
Proof.
  intros Hg. unfold for_range. generalize (seq 0 (Z.to_nat n)). intros l.
  revert s. induction l as [|k l IH]; intros s; simpl; [done|].
  rewrite Hg. apply IH.
Qed.

(** The injector does not look at the winding flip-flop. *)
Lemma imprint_with_nextWinding cx cy winding n s :
  imprintSingleVortex cx cy winding (with_nextWinding n s) =
  with_nextWinding n (imprintSingleVortex cx cy winding s).
Proof.
  unfold imprintSingleVortex.
  change (gridSizeX (with_nextWinding n s)) with (gridSizeX s).
  change (gridSizeY (with_nextWinding n s)) with (gridSizeY s).
  apply for_range_commute. intros y t.
  apply for_range_commute. intros x t'. reflexivity.
Qed.

(** X8. Two spawns at the same screen position undo the twist: the winding
    flip-flop is back at its value, and every cell holds its old value
    times the square of the soft-core profile at its distance from the
    spawn point, a positive number.  So the phase of the cell is the phase
    it had, as an angle modulo 2 PI (in exact arithmetic; the stores of the
    program round, which near the cut of [atan2] can turn PI into -PI), and
    its magnitude is between 0.039 and 0.6561 times what it was. *)
Theorem spawnVortex_twice (screenX screenY : R) (s : Sim) (x y : Z) :
  shape s -> 0 <= x < gridSizeX s -> 0 <= y < gridSizeY s ->
  let t := spawnVortex screenX screenY (spawnVortex screenX screenY s) in
  let p :=
    softProfile
      (distance s (screenX / cellWidth s) (screenY / cellHeight s) x y) in
  let i := y * gridSizeX s + x in
  nextWinding (spawnVortex screenX screenY s) = (nextWinding s * -1)%R /\
  nextWinding t = nextWinding s /\
  get (u t) i = (p * p * get (u s) i)%R /\
  get (v t) i = (p * p * get (v s) i)%R /\
  (0.999999 < cos (phaseAt t x y - phaseAt s x y))%R /\
  (0.039 * magAt s x y <= magAt t x y <= 0.6561 * magAt s x y)%R.
Proof.
  intros Hshape Hx Hy t p i.
  set (cx := (screenX / cellWidth s)%R) in *.
  set (cy := (screenY / cellHeight s)%R) in *.
  set (nw := nextWinding s).
  set (s1 := imprintSingleVortex cx cy nw s).
  destruct (imprintSingleVortex_spec cx cy nw s Hshape)
    as ((HX & HY & CW & CH & _ & _ & _ & _ & NW) & Hshape1 & _).
  fold s1 in HX, HY, CW, CH, NW, Hshape1.
  assert (spawnVortex screenX screenY s
          = with_nextWinding (nw * -1)%R s1) as E1.
  { unfold spawnVortex. fold cx cy nw s1. by rewrite NW. }
  assert (t = with_nextWinding (nw * -1 * -1)%R
                (imprintSingleVortex cx cy (nw * -1) s1)) as Et.
  { subst t. rewrite E1. unfold spawnVortex at 1.
    change (cellWidth (with_nextWinding (nw * -1) s1)) with (cellWidth s1).
    change (cellHeight (with_nextWinding (nw * -1) s1)) with (cellHeight s1).
    change (nextWinding (with_nextWinding (nw * -1) s1)) with (nw * -1)%R.
    rewrite CW, CH. fold cx cy.
    rewrite imprint_with_nextWinding. reflexivity. }
  split; [by rewrite E1|]. split; [rewrite Et; simpl; ring|].
  destruct (imprint_twice cx cy nw s x y Hshape Hx Hy) as [Eu Ev].
  cbv zeta in Eu, Ev. fold s1 in Eu, Ev.
  set (t2 := imprintSingleVortex cx cy (nw * -1) s1) in *.
  assert (gridSizeX t2 = gridSizeX s) as HX2.
  { unfold t2. rewrite imprintSingleVortex_gridSizeX by done. exact HX. }
  assert (0.2 <= p <= 0.2 + 0.8 * tanh 1 /\ 0.808 < 0.2 + 0.8 * tanh 1 < 0.81)%R
    as [[Hlo Hhi] Hmax] by (apply softProfile_range, dist1_nonneg).
  assert (u t = u t2 /\ v t = v t2 /\ gridSizeX t = gridSizeX s)
    as (EU & EV & EX)
    by (rewrite Et; split; [reflexivity|]; split; [reflexivity | exact HX2]).
  fold p i in Eu, Ev.
  split; [by rewrite EU|]. split; [by rewrite EV|].
  assert (phaseAt t x y = phaseAt s x y) as ->.
  { unfold phaseAt. rewrite EX, EU, EV. fold i. rewrite Eu, Ev.
    apply atan2_scale. nra. }
  assert (magAt t x y = (p * p * magAt s x y)%R) as ->.
  { unfold magAt. rewrite EX, EU, EV. fold i. rewrite Eu, Ev.
    apply mag_scale. nra. }
  assert (0 <= magAt s x y)%R as Hm by (unfold magAt; apply mag_nonneg).
  assert (0.04 <= p * p <= 0.6561)%R as Hpp by nra.
  split; [|split; nra].
  replace (phaseAt s x y - phaseAt s x y)%R with 0%R by ring.
  rewrite cos_0. lra.
Qed.

(** X9. The winding flip-flop changes sign at every spawn and at no other
    call: after any sequence of calls it is its first value times -1 to the
    number of spawns, so from +1 it only ever takes the values +1 and
    -1. *)
Theorem nextWinding_flips (cs : list call) (s : Sim) :
  shape s ->
  nextWinding (run cs s) = (nextWinding s * (-1) ^ spawns cs)%R /\
  (nextWinding s = 1%R ->
   nextWinding (run cs s) = 1%R \/ nextWinding (run cs s) = (-1)%R).
Proof.
  intros Hshape.
  assert (nextWinding (run cs s) = (nextWinding s * (-1) ^ spawns cs)%R) as E.
  { unfold run. revert s Hshape.
    induction cs as [|c cs IH]; intros s Hshape; cbn [foldl spawns];
      [simpl; ring|].
    destruct (perform_shape c s Hshape) as (Hshape' & _).
    rewrite (IH _ Hshape').
    destruct c as [random|cx cy winding|sx sy|random]; cbn [perform spawns].
    - destruct (updatePhysics_settings random s)
        as (_ & _ & _ & _ & _ & _ & _ & _ & ->). done.
    - destruct (imprintSingleVortex_spec cx cy winding s Hshape)
        as ((_ & _ & _ & _ & _ & _ & _ & _ & ->) & _). done.
    - unfold spawnVortex, with_nextWinding. cbn [nextWinding pow].
      destruct (imprintSingleVortex_spec (sx / cellWidth s) (sy / cellHeight s)
                  (nextWinding s) s Hshape)
        as ((_ & _ & _ & _ & _ & _ & _ & _ & ->) & _). ring.
    - destruct (initializeGrid_frame random s)
        as ((_ & _ & _ & _ & _ & _ & _ & _ & ->) & _). done. }
  split; [exact E|]. intros H1. rewrite E, H1.
  generalize (spawns cs). intros n. induction n as [|n [IH|IH]]; simpl.
  - left. ring.
  - right. rewrite Rmult_1_l in IH. rewrite Rmult_1_l, IH. ring.
  - left. rewrite Rmult_1_l in IH. rewrite Rmult_1_l, IH. ring.
Qed.

(** ** Seeding and allocation *)

Lemma mag_polar m a : (0 <= m)%R -> mag (m * cos a) (m * sin a) = m.
Proof.
  intros Hm. rewrite mag_scale by done. unfold mag.
  pose proof (sin2_cos2 a) as H. unfold Rsqr in H.
  replace (cos a * cos a + sin a * sin a)%R with 1%R by lra.
  rewrite sqrt_1. ring.
Qed.

Lemma initializeGrid_cells random s :
  len (v s) = len (u s) ->
  let t := initializeGrid random s in
  forall i, 0 <= i < len (u s) ->
    get (u t) i = (seedMag random i * cos (seedAngle random i))%R /\
    get (v t) i = (seedMag random i * sin (seedAngle random i))%R.
Proof.
  intros Hlen t. subst t. unfold initializeGrid.
  set (n := len (u s)).
  set (P := fun (k : Z) (t : Sim) =>
    (len (u t) = n /\ len (v t) = n) /\
    forall i, 0 <= i < k ->
      get (u t) i = (seedMag random i * cos (seedAngle random i))%R /\
      get (v t) i = (seedMag random i * sin (seedAngle random i))%R).
  assert (P n (for_range n (seedCell random) s)) as [_ H].
  { apply for_range_ind; [unfold n, len; lia | |].
    - split; [done|]. intros; lia.
    - intros i t Hi [[LU LV] Hdone]. unfold P, seedCell. simpl.
      rewrite !len_set. split; [done|].
      intros j Hj. destruct (Z.eq_dec j i) as [->|Hne].
      + rewrite !get_set_eq by lia. done.
      + rewrite !get_set_ne by done. apply Hdone. lia. }
  exact H.
Qed.

(** What seeding writes and what it leaves. *)
Lemma initializeGrid_writes random (s : Sim) :
  shape s ->
  let t := initializeGrid random s in
  same_settings s t /\ shape t /\ uNext t = uNext s /\ vNext t = vNext s /\
  (forall i, 0 <= i < gridSizeX s * gridSizeY s ->
     get (u t) i = (seedMag random i * cos (seedAngle random i))%R /\
     get (v t) i = (seedMag random i * sin (seedAngle random i))%R).
Proof.
  intros Hshape t.
  destruct (initializeGrid_frame random s) as [Hset Hlen]. fold t in Hset, Hlen.
  pose proof Hshape as (SU & SV & _).
  pose proof (initializeGrid_cells random s ltac:(congruence)) as Hcells.
  fold t in Hcells. rewrite SU in Hcells.
  assert (uNext t = uNext s /\ vNext t = vNext s) as [HU HV].
  { subst t. unfold initializeGrid.
    apply (for_range_inv (fun t => uNext t = uNext s /\ vNext t = vNext s));
      [done|]. intros i t' _ Ht'. unfold seedCell. simpl. done. }
  split; [done|]. split; [by eapply shape_transfer|].
  split; [done|]. split; [done|]. done.
Qed.

(** X10. Seeding overwrites every cell of the field, whatever it held, with
    [mag (cos a + i sin a)] where [a] is [2 PI] times the first draw of the
    cell and [mag] is 0.1 plus 0.1 times the second; the next buffers, the
    settings and the lengths stay.  For draws in [0, 1) every cell gets a
    magnitude in [0.1, 0.2) and an angle in [0, 2 PI). *)
Theorem initializeGrid_seeds random (s : Sim) :
  shape s ->
  let t := initializeGrid random s in
  same_settings s t /\ shape t /\ uNext t = uNext s /\ vNext t = vNext s /\
  (forall i, 0 <= i < gridSizeX s * gridSizeY s ->
     get (u t) i = (seedMag random i * cos (seedAngle random i))%R /\
     get (v t) i = (seedMag random i * sin (seedAngle random i))%R) /\
  ((forall k, 0 <= random k < 1)%R ->
   forall i, 0 <= i < gridSizeX s * gridSizeY s ->
     (0.1 <= mag (get (u t) i) (get (v t) i) < 0.2)%R /\
     (0 <= seedAngle random i < 2 * PI)%R).
Proof.
  intros Hshape t.
  destruct (initializeGrid_writes random s Hshape)
    as (Hset & Hs & HU & HV & Hcells). fold t in Hset, Hs, HU, HV, Hcells.
  split; [done|]. split; [done|].
  split; [done|]. split; [done|]. split; [done|].
  intros Hrandom i Hi. destruct (Hcells i Hi) as [-> ->].
  pose proof (Hrandom (2 * Z.to_nat i)%nat) as H1.
  pose proof (Hrandom (2 * Z.to_nat i + 1)%nat) as H2.
  pose proof PI_RGT_0 as Hpi.
  assert (0.1 <= seedMag random i < 0.2)%R as Hm by (unfold seedMag; lra).
  rewrite mag_polar by lra. split; [done|]. unfold seedAngle. nra.
Qed.

Lemma ceil_div_bounds a b :
  0 < b -> (Js.ceil_div a b - 1) * b < a <= Js.ceil_div a b * b.
Proof.
  intros Hb. unfold Js.ceil_div.
  pose proof (Z.mul_div_le (- a) b Hb).
  pose proof (Z.mul_succ_div_gt (- a) b Hb). lia.
Qed.

Lemma setupCanvas_normal this clientWidth clientHeight random :
  0 < clientWidth -> 0 < clientHeight ->
  let safe := Z.max 2 (targetCellSize this) in
  let gx := Js.ceil_div clientWidth safe in
  let gy := Js.ceil_div clientHeight safe in
  0 < gx /\ 0 < gy /\
  setupCanvas (Some (clientWidth, clientHeight)) random this =
    Normal (initializeGrid random
              (allocate (with_grid gx gy (IZR clientWidth / IZR gx)%R
                           (IZR clientHeight / IZR gy)%R this))).
Proof.
  intros Hcw Hch safe gx gy.
  assert (0 < gx) as Hgx by (apply ceil_div_pos; lia).
  assert (0 < gy) as Hgy by (apply ceil_div_pos; lia).
  split; [done|]. split; [done|]. unfold setupCanvas. fold safe gx gy.
  set (s0 := with_grid gx gy _ _ this).
  change (gridSizeX s0) with gx. change (gridSizeY s0) with gy.
  destruct (gx =? 0) eqn:Ex; [lia|]. destruct (gy =? 0) eqn:Ey; [lia|].
  reflexivity.
Qed.

(** X11. The geometry that [setupCanvas] sets for a container of positive
    size: the cell size used is at least 2 pixels, the grid has just enough
    columns and rows of that size to cover the canvas, [cellWidth] times
    [gridSizeX] is the canvas width (likewise for the height), and so a
    pointer position on the canvas is a centre between 0 and the grid size
    for [spawnVortex]. *)
Theorem setupCanvas_geometry (this : Sim) (clientWidth clientHeight : Z)
    (random : nat -> R) :
  0 < clientWidth -> 0 < clientHeight ->
  exists s,
    setupCanvas (Some (clientWidth, clientHeight)) random this = Normal s /\
    let safe := Z.max 2 (targetCellSize this) in
    2 <= safe /\
    (gridSizeX s - 1) * safe < clientWidth <= gridSizeX s * safe /\
    (gridSizeY s - 1) * safe < clientHeight <= gridSizeY s * safe /\
    (cellWidth s * IZR (gridSizeX s) = IZR clientWidth)%R /\
    (cellHeight s * IZR (gridSizeY s) = IZR clientHeight)%R /\
    (0 < cellWidth s <= IZR safe)%R /\ (0 < cellHeight s <= IZR safe)%R /\
    (forall screenX, (0 <= screenX <= IZR clientWidth)%R ->
       (0 <= screenX / cellWidth s <= IZR (gridSizeX s))%R) /\
    (forall screenY, (0 <= screenY <= IZR clientHeight)%R ->
       (0 <= screenY / cellHeight s <= IZR (gridSizeY s))%R).
Proof.
  intros Hcw Hch.
  destruct (setupCanvas_normal this clientWidth clientHeight random Hcw Hch)
    as (Hgx & Hgy & E).
  set (safe := Z.max 2 (targetCellSize this)) in *.
  set (gx := Js.ceil_div clientWidth safe) in *.
  set (gy := Js.ceil_div clientHeight safe) in *.
  eexists. split; [exact E|]. cbv zeta.
  set (s0 := with_grid gx gy _ _ this).
  destruct (initializeGrid_frame random (allocate s0))
    as ((HX & HY & CW & CH & _) & _).
  rewrite HX, HY, CW, CH.
  change (gridSizeX (allocate s0)) with gx.
  change (gridSizeY (allocate s0)) with gy.
  change (cellWidth (allocate s0)) with (IZR clientWidth / IZR gx)%R.
  change (cellHeight (allocate s0)) with (IZR clientHeight / IZR gy)%R.
  assert (0 < safe) as Hsafe by lia.
  pose proof (ceil_div_bounds clientWidth safe Hsafe) as Bx.
  pose proof (ceil_div_bounds clientHeight safe Hsafe) as By.
  fold gx in Bx. fold gy in By.
  pose proof (IZR_lt _ _ Hgx) as Rgx. pose proof (IZR_lt _ _ Hgy) as Rgy.
  pose proof (IZR_lt _ _ Hcw) as Rcw. pose proof (IZR_lt _ _ Hch) as Rch.
  assert (IZR clientWidth <= IZR gx * IZR safe)%R as Ux
    by (rewrite <- mult_IZR; apply IZR_le; lia).
  assert (IZR clientHeight <= IZR gy * IZR safe)%R as Uy
    by (rewrite <- mult_IZR; apply IZR_le; lia).
  assert (forall c g : R, (0 < g)%R -> (c / g * g = c)%R) as Hdiv
    by (intros; field; lra).
  assert (forall c g k : R, (0 < g)%R -> (0 < c)%R -> (c <= g * k)%R ->
            (0 < c / g <= k)%R) as Hcell.
  { intros c g k Hg Hc Hk. pose proof (Hdiv c g Hg) as E'.
    set (q := (c / g)%R) in *. clearbody q. split; nra. }
  assert (forall c g p : R, (0 < g)%R -> (0 < c)%R -> (0 <= p <= c)%R ->
            (0 <= p / (c / g) <= g)%R) as Hmap.
  { intros c g p Hg Hc Hp.
    replace (p / (c / g))%R with (p * g / c)%R by (field; lra).
    assert (p * g / c * c = p * g)%R as E' by (field; lra).
    set (q := (p * g / c)%R) in *. clearbody q. split; nra. }
  split; [lia|]. split; [done|]. split; [done|].
  split; [by apply Hdiv|]. split; [by apply Hdiv|].
  split; [by apply Hcell|]. split; [by apply Hcell|].
  split; intros p Hp; by apply Hmap.
Qed.

(** X12. Resizing is a hard reset: for a container of positive size the
    simulation that [setupCanvas] leaves has zeroed next buffers and a
    freshly seeded field, and none of its four arrays depends on the arrays
    or on the grid that the simulation had before. *)
Theorem setupCanvas_hard_reset (this this' : Sim)
    (clientWidth clientHeight : Z) (random : nat -> R) :
  0 < clientWidth -> 0 < clientHeight ->
  targetCellSize this' = targetCellSize this ->
  exists s s',
    setupCanvas (Some (clientWidth, clientHeight)) random this = Normal s /\
    setupCanvas (Some (clientWidth, clientHeight)) random this' = Normal s' /\
    u s' = u s /\ v s' = v s /\
    uNext s = new_Float32Array (gridSizeX s * gridSizeY s) /\
    vNext s = new_Float32Array (gridSizeX s * gridSizeY s) /\
    uNext s' = uNext s /\ vNext s' = vNext s /\
    gridSizeX s' = gridSizeX s /\ gridSizeY s' = gridSizeY s /\
    forall i, 0 <= i < gridSizeX s * gridSizeY s ->
      get (u s) i = (seedMag random i * cos (seedAngle random i))%R /\
      get (v s) i = (seedMag random i * sin (seedAngle random i))%R.
Proof.
  intros Hcw Hch Htarget.
  destruct (setupCanvas_normal this clientWidth clientHeight random Hcw Hch)
    as (Hgx & Hgy & E).
  destruct (setupCanvas_normal this' clientWidth clientHeight random Hcw Hch)
    as (_ & _ & E').
  rewrite Htarget in E'.
  set (safe := Z.max 2 (targetCellSize this)) in *.
  set (gx := Js.ceil_div clientWidth safe) in *.
  set (gy := Js.ceil_div clientHeight safe) in *.
  set (a := allocate (with_grid gx gy _ _ this)) in *.
  set (a' := allocate (with_grid gx gy _ _ this')) in *.
  assert (shape a) as Ha by (apply allocate_shape; simpl; nia).
  assert (shape a') as Ha' by (apply allocate_shape; simpl; nia).
  destruct (initializeGrid_writes random a Ha)
    as ((HX & HY & _) & (L1 & L2 & _) & HU & HV & Hcells).
  destruct (initializeGrid_writes random a' Ha')
    as ((HX' & HY' & _) & (L1' & L2' & _) & HU' & HV' & Hcells').
  cbv zeta in *.
  change (gridSizeX a) with gx in *. change (gridSizeY a) with gy in *.
  change (gridSizeX a') with gx in *. change (gridSizeY a') with gy in *.
  exists (initializeGrid random a), (initializeGrid random a').
  split; [exact E|]. split; [exact E'|].
  rewrite HX, HY, HX', HY', HU, HV, HU', HV'.
  rewrite HX, HY in L1, L2. rewrite HX', HY' in L1', L2'.
  split; [|split].
  - apply array_ext; [congruence|]. intros i Hi. rewrite L1' in Hi.
    destruct (Hcells i Hi) as [-> _]. destruct (Hcells' i Hi) as [-> _]. done.
  - apply array_ext; [congruence|]. intros i Hi. rewrite L2' in Hi.
    destruct (Hcells i Hi) as [_ ->]. destruct (Hcells' i Hi) as [_ ->]. done.
  - repeat split; try reflexivity; apply Hcells; done.
Qed.

(** X13. When the width or the height of the container is zero (and
    neither is negative), [setupCanvas] throws after the grid sizes are
    set and before the arrays are replaced: the simulation keeps its four
    arrays next to a grid of zero cells, and has lost the shape invariant
    unless the field was empty. *)
Theorem setupCanvas_zero_size (this : Sim) (clientWidth clientHeight : Z)
    (random : nat -> R) :
  0 <= clientWidth -> 0 <= clientHeight ->
  clientWidth = 0 \/ clientHeight = 0 ->
  exists s,
    setupCanvas (Some (clientWidth, clientHeight)) random this = Thrown s /\
    u s = u this /\ v s = v this /\
    uNext s = uNext this /\ vNext s = vNext this /\
    gridSizeX s * gridSizeY s = 0 /\
    (len (u this) <> 0 -> ~ shape s).
Proof.
  intros Hcw Hch Hzero. unfold setupCanvas.
  set (safe := Z.max 2 (targetCellSize this)).
  set (gx := Js.ceil_div clientWidth safe).
  set (gy := Js.ceil_div clientHeight safe).
  assert (gx = 0 \/ gy = 0) as Hg.
  { destruct Hzero as [-> | ->]; [left | right]; reflexivity. }
  set (s0 := with_grid gx gy _ _ this).
  change (gridSizeX s0) with gx. change (gridSizeY s0) with gy.
  assert ((gx =? 0) || (gy =? 0) = true) as ->.
  { destruct Hg as [-> | ->]; [done|]. by rewrite orb_true_r. }
  exists s0. split; [done|].
  split; [done|]. split; [done|]. split; [done|]. split; [done|].
  assert (gx * gy = 0) as Hz by (destruct Hg as [-> | ->]; lia).
  split; [exact Hz|].
  intros Hlen (SU & _). change (u s0) with (u this) in SU.
  change (gridSizeX s0 * gridSizeY s0) with (gx * gy) in SU. congruence.
Qed.

(** ** Colours *)

Section Colours.
Local Open Scope R_scope.

Lemma atan2_range y x : - PI < Js.atan2 y x <= PI.
Proof.
  unfold Js.atan2. pose proof PI_RGT_0 as Hpi.
  pose proof (atan_bound (y / x)) as Hb.
  destruct (Rlt_dec 0 x) as [Hx|Hx]; [lra|].
  destruct (Rlt_dec x 0) as [Hx'|Hx'].
  - assert (0 < / - x) as Hinv by (apply Rinv_0_lt_compat; lra).
    assert (y / x = - y * / - x) as E by (field; lra).
    destruct (Rle_dec 0 y) as [Hy|Hy].
    + assert (y / x <= 0) as Hq by (rewrite E; nra).
      assert (atan (y / x) <= 0).
      { destruct Hq as [Hq| ->]; [|rewrite atan_0; lra].
        left. rewrite <- atan_0. by apply atan_increasing. }
      lra.
    + assert (0 < y / x) as Hq by (rewrite E; nra).
      assert (0 < atan (y / x))
        by (rewrite <- atan_0; by apply atan_increasing).
      lra.
  - destruct (Rlt_dec 0 y); [lra|]. destruct (Rlt_dec y 0); lra.
Qed.

(** The hue of an angle in (-PI, PI]. *)
Lemma hue_angle_range (a : R) : - PI < a <= PI -> 0 <= hue a < 360.
Proof.
  intros [Hlo Hhi]. unfold hue. pose proof PI_RGT_0 as Hpi.
  assert (a * 180 / PI = a / PI * 180) as -> by (field; lra).
  assert (-1 < a / PI <= 1) as Hq.
  { assert (a = a / PI * PI) as E by (field; lra).
    set (q := a / PI) in *. clearbody q. split; nra. }
  apply rem_range; lra.
Qed.

(** The hue as a fraction of the colour circle. *)
Lemma hue_fraction (u_ v_ : R) : 0 <= cellHue u_ v_ / 360 < 1.
Proof.
  pose proof (hue_angle_range (Js.atan2 v_ u_) (atan2_range v_ u_)) as H.
  unfold cellHue. lra.
Qed.

(** X14. The hue of every cell, and of every phase angle that [atan2] can
    give, lies in [0, 360). *)
Theorem hue_range (u_ v_ : R) :
  0 <= cellHue u_ v_ < 360 /\ 0 <= cellHue u_ v_ / 360 < 1.
Proof.
  unfold cellHue.
  pose proof (atan2_range v_ u_) as Hangle.
  pose proof (hue_angle_range (Js.atan2 v_ u_) Hangle) as Hhue.
  split; [exact Hhue | lra].
Qed.

Lemma round_range x : 0 <= x <= 1 -> (0 <= round (x * 255) <= 255)%Z.
Proof.
  intros Hx. unfold round.
  destruct (base_Int_part (x * 255 + 0.5)) as [Hlo Hhi].
  split.
  - apply Z.lt_succ_r, lt_IZR. rewrite succ_IZR. lra.
  - apply Z.lt_succ_r, lt_IZR. rewrite succ_IZR. lra.
Qed.

Lemma round_le x y : x <= y -> (round x <= round y)%Z.
Proof.
  intros Hxy. unfold round.
  destruct (base_Int_part (x + 0.5)) as [Hlo _].
  destruct (base_Int_part (y + 0.5)) as [_ Hhi].
  apply Z.lt_succ_r, lt_IZR. rewrite succ_IZR. lra.
Qed.

Lemma round_Z (z : Z) : round (IZR z) = z.
Proof. unfold round. symmetry. apply Int_part_spec. lra. Qed.

(** The cases of [hue2rgb p q t], from the first test to the last. *)
Ltac hue2rgb_cases t :=
  unfold hue2rgb; cbv zeta;
  destruct (Rlt_dec t 0);
  match goal with |- context [Rgt_dec ?a 1] => destruct (Rgt_dec a 1) end;
  try lra;
  repeat match goal with
  | |- context [Rlt_dec ?a ?b] => destruct (Rlt_dec a b); try lra
  end.

(** [hue2rgb] stays between its two levels. *)
Lemma hue2rgb_range p q t : p <= q -> -1 <= t <= 2 -> p <= hue2rgb p q t <= q.
Proof. intros Hpq Ht. hue2rgb_cases t; split; nra. Qed.

(** The two levels of [hslToRgb]. *)
Lemma hsl_levels s l :
  0 <= s <= 1 -> 0 <= l <= 1 ->
  let q := if Rlt_dec l 0.5 then l * (1 + s) else l + s - l * s in
  let p := 2 * l - q in
  0 <= p /\ p <= q /\ q <= 1.
Proof. intros Hs Hl q p. subst p q. destruct (Rlt_dec l 0.5); repeat split; nra. Qed.

(** X15. For a hue, a saturation and a lightness in [0, 1], [hslToRgb]
    gives three channels in 0..255; for saturation 0 they are equal, a
    grey. *)
Theorem hslToRgb_range (h s l : R) :
  0 <= h <= 1 -> 0 <= s <= 1 -> 0 <= l <= 1 ->
  let '(r, g, b) := hslToRgb h s l in
  (0 <= r <= 255 /\ 0 <= g <= 255 /\ 0 <= b <= 255)%Z /\
  (s = 0 -> r = round (l * 255) /\ g = r /\ b = r).
Proof.
  intros Hh Hs Hl. unfold hslToRgb.
  destruct (Req_dec_T s 0) as [Hs0|Hs0].
  - split; [|done]. repeat split; apply round_range; done.
  - destruct (hsl_levels s l Hs Hl) as (Hp & Hpq & Hq). cbv zeta in Hp, Hpq, Hq.
    set (q := if Rlt_dec l 0.5 then _ else _) in *. set (p := 2 * l - q) in *.
    pose proof (hue2rgb_range p q (h + 1 / 3) Hpq ltac:(lra)).
    pose proof (hue2rgb_range p q h Hpq ltac:(lra)).
    pose proof (hue2rgb_range p q (h - 1 / 3) Hpq ltac:(lra)).
    split; [|done]. repeat split; apply round_range; lra.
Qed.

(** With full saturation and a lightness of at most one half the lower
    level is 0 and the upper level is twice the lightness. *)
Lemma hsl_full_saturation l :
  0 <= l <= 0.5 ->
  (if Rlt_dec l 0.5 then l * (1 + 1.0) else l + 1.0 - l * 1.0) = 2 * l.
Proof. intros Hl. destruct (Rlt_dec l 0.5); lra. Qed.

Lemma hue2rgb_top q h :
  0 <= q -> 0 <= h < 1 ->
  hue2rgb 0 q (h + 1 / 3) = q \/ hue2rgb 0 q h = q \/ hue2rgb 0 q (h - 1 / 3) = q.
Proof.
  intros Hq Hh.
  destruct (Rlt_dec h (1 / 6)) as [H1|H1].
  { left. hue2rgb_cases (h + 1 / 3). }
  destruct (Rlt_dec h (1 / 2)) as [H2|H2].
  { right; left. hue2rgb_cases h. }
  destruct (Rlt_dec h (5 / 6)) as [H3|H3].
  { right; right. hue2rgb_cases (h - 1 / 3). }
  left. hue2rgb_cases (h + 1 / 3).
Qed.

Lemma hue2rgb_bottom q h :
  0 <= q -> 0 <= h < 1 ->
  hue2rgb 0 q (h + 1 / 3) = 0 \/ hue2rgb 0 q h = 0 \/ hue2rgb 0 q (h - 1 / 3) = 0.
Proof.
  intros Hq Hh.
  destruct (Rlt_dec h (1 / 3)) as [H1|H1].
  { right; right. hue2rgb_cases (h - 1 / 3). }
  destruct (Rlt_dec h (2 / 3)) as [H2|H2].
  { left. hue2rgb_cases (h + 1 / 3). }
  right; left. hue2rgb_cases h.
Qed.

(** X16. The colour of a cell is fully saturated and only as bright as the
    cell is large: with [top] the rounding of 255 times the magnitude
    clamped at 1, every channel lies between 0 and [top], one channel is
    [top] and one is 0.  So a cell of magnitude 0 is black, and cells of
    magnitude 1 or more have a channel at 255. *)
Theorem pixel_brightness (u_ v_ : R) :
  let top := round (Rmin 1 (mag u_ v_) * 255) in
  let '(r, g, b) := pixel u_ v_ in
  (0 <= top <= 255)%Z /\
  (0 <= r <= top /\ 0 <= g <= top /\ 0 <= b <= top)%Z /\
  (r = top \/ g = top \/ b = top) /\ (r = 0 \/ g = 0 \/ b = 0)%Z /\
  (mag u_ v_ = 0 -> (r, g, b) = (0, 0, 0)%Z) /\
  (1 <= mag u_ v_ -> top = 255%Z).
Proof.
  intros top. unfold pixel, hslToRgb.
  destruct (Req_dec_T 1.0 0) as [H10|_]; [lra|].
  pose proof (mag_nonneg u_ v_) as Hm.
  set (m := Rmin 1 (mag u_ v_)) in *.
  assert (0 <= m <= 1) as Hm1
    by (subst m; split; [apply Rmin_glb; lra | apply Rmin_l]).
  assert (lightness u_ v_ / 100 = m / 2) as ->.
  { unfold lightness. replace 1.0 with 1 by lra. fold m. lra. }
  rewrite hsl_full_saturation by lra.
  replace (2 * (m / 2) - 2 * (m / 2)) with 0 by lra.
  replace (2 * (m / 2)) with m by lra.
  pose proof (hue_fraction u_ v_) as Hh. set (h := cellHue u_ v_ / 360) in *.
  pose proof (hue2rgb_range 0 m (h + 1 / 3) ltac:(lra) ltac:(lra)) as Hr.
  pose proof (hue2rgb_range 0 m h ltac:(lra) ltac:(lra)) as Hg.
  pose proof (hue2rgb_range 0 m (h - 1 / 3) ltac:(lra) ltac:(lra)) as Hb.
  assert (round (0 * 255) = 0%Z) as R0
    by (rewrite Rmult_0_l; apply (round_Z 0)).
  assert (forall c, 0 <= c <= m -> (0 <= round (c * 255) <= top)%Z) as Hch.
  { intros c Hc. split; [rewrite <- R0|]; apply round_le; nra. }
  split; [apply round_range; done|].
  split; [repeat split; apply Hch; done|].
  split; [|split; [|split]].
  - destruct (hue2rgb_top m h) as [-> | [-> | ->]]; auto; lra.
  - destruct (hue2rgb_bottom m h) as [-> | [-> | ->]]; auto; lra.
  - intros Hz. assert (m = 0) as Hm0.
    { subst m. rewrite Hz. apply Rmin_right. lra. }
    rewrite Hm0 in Hr, Hg, Hb.
    replace (hue2rgb 0 m (h + 1 / 3)) with 0 by (rewrite Hm0; lra).
    replace (hue2rgb 0 m h) with 0 by (rewrite Hm0; lra).
    replace (hue2rgb 0 m (h - 1 / 3)) with 0 by (rewrite Hm0; lra).
    by rewrite R0.
  - intros H1. subst top. assert (m = 1) as -> by (subst m; by apply Rmin_left).
    rewrite Rmult_1_l. apply (round_Z 255).
Qed.

End Colours.

(** ** The pixel loop *)

Lemma length_set8 d i x : length (set8 d i x) = length d.
Proof. unfold set8. destruct (i <? 0); [done|]. by rewrite length_insert. Qed.

Lemma get8_set8_eq d i x :
  0 <= i < Z.of_nat (length d) -> 0 <= x <= 255 -> get8 (set8 d i x) i = x.
Proof.
  unfold get8, set8. intros Hi Hx. destruct (i <? 0) eqn:E; [lia|].
  rewrite nth_lookup, list_lookup_insert_eq by lia. simpl. lia.
Qed.

Lemma get8_set8_ne d i j x : i <> j -> get8 (set8 d i x) j = get8 d j.
Proof.
  unfold get8, set8. intros Hij.
  destruct (j <? 0) eqn:Ej; [done|]. destruct (i <? 0) eqn:Ei; [done|].
  rewrite !nth_lookup, list_lookup_insert_ne; [done | lia].
Qed.

Lemma get8_ext (d d' : list Z) :
  length d = length d' ->
  (forall i, 0 <= i < Z.of_nat (length d) -> get8 d i = get8 d' i) -> d = d'.
Proof.
  unfold get8. intros Hlen Hget.
  apply (nth_ext d d' 0 0); [done|]. intros n Hn.
  specialize (Hget (Z.of_nat n)).
  destruct (Z.of_nat n <? 0) eqn:E; [lia|].
  rewrite Nat2Z.id in Hget. apply Hget. lia.
Qed.

Lemma pixel_channels u_ v_ :
  let '(r, g, b) := pixel u_ v_ in
  0 <= r <= 255 /\ 0 <= g <= 255 /\ 0 <= b <= 255.
Proof.
  unfold pixel, hslToRgb.
  destruct (Req_dec_T 1.0 0) as [H10|_]; [lra|].
  pose proof (mag_nonneg u_ v_) as Hm.
  assert (0 <= lightness u_ v_ / 100 <= 1)%R as Hl.
  { unfold lightness. pose proof (Rmin_l 1.0 (mag u_ v_)).
    assert (0 <= Rmin 1.0 (mag u_ v_))%R by (apply Rmin_glb; lra). lra. }
  pose proof (hue_fraction u_ v_) as Hh.
  destruct (hsl_levels 1.0 (lightness u_ v_ / 100) ltac:(lra) Hl)
    as (Hp & Hpq & Hq). cbv zeta in Hp, Hpq, Hq.
  set (q := if Rlt_dec _ 0.5 then _ else _) in *.
  set (p := (2 * (lightness u_ v_ / 100) - q)%R) in *.
  set (h := (cellHue u_ v_ / 360)%R) in *.
  pose proof (hue2rgb_range p q (h + 1 / 3) Hpq ltac:(lra)).
  pose proof (hue2rgb_range p q h Hpq ltac:(lra)).
  pose proof (hue2rgb_range p q (h - 1 / 3) Hpq ltac:(lra)).
  repeat split; apply round_range; lra.
Qed.

(** What [drawCell] writes: the pixel of cell [i] into the four entries
    from [4 i] on. *)
Lemma drawCell_spec this i d :
  0 <= i -> 4 * i + 3 < Z.of_nat (length d) ->
  let d' := drawCell this i d in
  let '(r, g, b) := pixel (get (u this) i) (get (v this) i) in
  length d' = length d /\
  get8 d' (4 * i) = r /\ get8 d' (4 * i + 1) = g /\
  get8 d' (4 * i + 2) = b /\ get8 d' (4 * i + 3) = 255 /\
  forall j, (j < 4 * i \/ 4 * i + 3 < j) -> get8 d' j = get8 d j.
Proof.
  intros Hi Hlen d'. subst d'. unfold drawCell.
  change (hslToRgb _ 1.0 _) with (pixel (get (u this) i) (get (v this) i)).
  pose proof (pixel_channels (get (u this) i) (get (v this) i)) as Hch.
  destruct (pixel _ _) as [[r g] b]. destruct Hch as (Hr & Hg & Hb).
  replace (i * 4) with (4 * i) by lia.
  split; [by rewrite !length_set8|].
  repeat split.
  - rewrite !get8_set8_ne by lia. apply get8_set8_eq; lia.
  - rewrite !get8_set8_ne by lia.
    apply get8_set8_eq; [rewrite !length_set8; lia | lia].
  - rewrite !get8_set8_ne by lia.
    apply get8_set8_eq; [rewrite !length_set8; lia | lia].
  - apply get8_set8_eq; [rewrite !length_set8; lia | lia].
  - intros j Hj. rewrite !get8_set8_ne by lia. done.
Qed.

Lemma draw_loop_spec this d :
  Z.of_nat (length d) = 4 * len (u this) ->
  let d' := for_range (len (u this)) (drawCell this) d in
  length d' = length d /\
  forall i, 0 <= i < len (u this) ->
    let '(r, g, b) := pixel (get (u this) i) (get (v this) i) in
    get8 d' (4 * i) = r /\ get8 d' (4 * i + 1) = g /\
    get8 d' (4 * i + 2) = b /\ get8 d' (4 * i + 3) = 255.
Proof.
  intros Hlen d'. subst d'.
  set (n := len (u this)) in *.
  set (P := fun (k : Z) (e : list Z) =>
    length e = length d /\
    forall i, 0 <= i < k ->
      let '(r, g, b) := pixel (get (u this) i) (get (v this) i) in
      get8 e (4 * i) = r /\ get8 e (4 * i + 1) = g /\
      get8 e (4 * i + 2) = b /\ get8 e (4 * i + 3) = 255).
  assert (P n (for_range n (drawCell this) d)) as H.
  { apply for_range_ind; [unfold n, len; lia | |].
    - split; [done|]. intros; lia.
    - intros k e Hk [Le Hdone].
      pose proof (drawCell_spec this k e ltac:(lia) ltac:(lia)) as Hcell.
      cbv zeta in Hcell.
      split.
      + destruct (pixel (get (u this) k) (get (v this) k)) as [[r g] b].
        destruct Hcell as (-> & _). done.
      + intros i Hi. destruct (Z.eq_dec i k) as [->|Hne].
        * destruct (pixel (get (u this) k) (get (v this) k)) as [[r g] b].
          tauto.
        * specialize (Hdone i ltac:(lia)).
          assert (forall j, (j < 4 * k \/ 4 * k + 3 < j) ->
                    get8 (drawCell this k e) j = get8 e j) as Hother.
          { destruct (pixel (get (u this) k) (get (v this) k)) as [[r g] b].
            tauto. }
          destruct (pixel (get (u this) i) (get (v this) i)) as [[r g] b].
          rewrite !Hother by lia. done. }
  exact H.
Qed.

(** X17. [draw] does nothing without image data.  With the image data of
    the grid (four entries per cell) it writes the pixel of every cell,
    alpha 255, keeps the length, and the result depends on the field only,
    not on what the image held: drawing again without a step or an imprint
    in between gives the same image. *)
Theorem draw_fills_image (this : Sim) (data data0 : list Z) :
  Z.of_nat (length data) = 4 * len (u this) ->
  length data0 = length data ->
  draw None this = None /\
  exists image,
    draw (Some data) this = Some image /\
    length image = length data /\
    (forall i, 0 <= i < len (u this) ->
       (get8 image (4 * i), get8 image (4 * i + 1), get8 image (4 * i + 2))
         = pixel (get (u this) i) (get (v this) i) /\
       get8 image (4 * i + 3) = 255) /\
    draw (Some data0) this = Some image /\
    draw (Some image) this = Some image.
Proof.
  intros Hlen Hlen0. split; [done|].
  destruct (draw_loop_spec this data Hlen) as [L Hcells].
  set (image := for_range (len (u this)) (drawCell this) data) in *.
  exists image. split; [done|]. split; [done|].
  assert (forall e, length e = length data ->
            for_range (len (u this)) (drawCell this) e = image) as Hsame.
  { intros e He.
    destruct (draw_loop_spec this e ltac:(lia)) as [L' Hcells'].
    set (image' := for_range _ _ e) in *.
    apply get8_ext; [congruence|]. intros j Hj.
    assert (0 <= j / 4 < len (u this)) as Hi
      by (split; [apply Z.div_pos; lia | apply Z.div_lt_upper_bound; lia]).
    pose proof (Z.div_mod j 4 ltac:(lia)) as Ej.
    pose proof (Z.mod_pos_bound j 4 ltac:(lia)) as Hc.
    specialize (Hcells (j / 4) Hi). specialize (Hcells' (j / 4) Hi).
    destruct (pixel _ _) as [[r g] b].
    destruct Hcells as (A & B & C & D). destruct Hcells' as (A' & B' & C' & D').
    assert (j = 4 * (j / 4) \/ j = 4 * (j / 4) + 1 \/
            j = 4 * (j / 4) + 2 \/ j = 4 * (j / 4) + 3)
      as [E|[E|[E|E]]] by lia; rewrite E; congruence. }
  split.
  - intros i Hi. specialize (Hcells i Hi).
    destruct (pixel _ _) as [[r g] b].
    destruct Hcells as (-> & -> & -> & ->). done.
  - unfold draw. split; f_equal; apply Hsame; congruence.
Qed.

(** ** The application *)

Lemma length_drawCell this i d : length (drawCell this i d) = length d.
Proof.
  unfold drawCell. destruct (hslToRgb _ _ _) as [[r g] b].
  by rewrite !length_set8.
Qed.

Lemma draw_length image this :
  match draw image this, image with
  | Some d', Some d => length d' = length d
  | None, None => True
  | _, _ => False
  end.
Proof.
  destruct image as [d|]; simpl; [|done].
  apply (for_range_inv (fun e => length e = length d)); [done|].
  intros i e _ He. by rewrite length_drawCell.
Qed.

Lemma draw_fits image this this' :
  len (u this') = len (u this) ->
  match image with
  | Some d => Z.of_nat (length d) = 4 * len (u this)
  | None => True
  end ->
  match draw image this' with
  | Some d => Z.of_nat (length d) = 4 * len (u this)
  | None => True
  end.
Proof.
  intros Hlen Hfit. pose proof (draw_length image this') as H.
  destruct image as [d|], (draw _ this') as [d'|]; try done. congruence.
Qed.

(** Reduction of the record projections, leaving the calls of the
    simulation alone. *)
Ltac app_cbn :=
  cbn -[updatePhysics spawnVortex initializeGrid draw setupCanvas
        Z.mul Z.of_nat].

Lemma animate_ok random app : app_ok app -> app_ok (animate random app).
Proof.
  intros [Hshape Hfit]. unfold animate.
  destruct (isPaused app); app_cbn; [done|].
  set (body := fun (i : Z) (a : App) => with_frameCount _ _).
  assert (app_ok (for_range (simulationSpeed app) body app) /\
          len (u (sim (for_range (simulationSpeed app) body app)))
            = len (u (sim app)) /\
          offscreenImageData (for_range (simulationSpeed app) body app)
            = offscreenImageData app) as ([Hs Hf] & Hl & Hi).
  { apply (for_range_inv (fun a =>
      app_ok a /\ len (u (sim a)) = len (u (sim app)) /\
      offscreenImageData a = offscreenImageData app)); [done|].
    intros i a _ ([Hs Hf] & Hl & Hi). unfold body. app_cbn.
    pose proof (updatePhysics_shape (random (Z.to_nat i)) (sim a) Hs) as Hs'.
    destruct (updatePhysics_settings (random (Z.to_nat i)) (sim a))
      as (HX & HY & _).
    assert (len (u (updatePhysics (random (Z.to_nat i)) (sim a)))
            = len (u (sim a))) as Hl'.
    { destruct Hs as (-> & _). destruct Hs' as (-> & _). by rewrite HX, HY. }
    split; [|split; [congruence | done]].
    split; [done|]. unfold image_fits in *. app_cbn. rewrite Hl'. done. }
  set (a := for_range _ body app) in *.
  split; [done|]. unfold image_fits in *. app_cbn.
  apply draw_fits; done.
Qed.

Lemma app_ok_sim a b :
  offscreenImageData b = offscreenImageData a ->
  shape (sim b) -> len (u (sim b)) = len (u (sim a)) ->
  app_ok a -> app_ok b.
Proof.
  intros Hi Hs Hl [_ Hf]. split; [done|].
  unfold image_fits in *. rewrite Hi, Hl. done.
Qed.

Lemma spawn_len sx sy s :
  shape s -> len (u (spawnVortex sx sy s)) = len (u s).
Proof.
  intros Hshape.
  destruct (spawnVortex_shape sx sy s Hshape) as (-> & _).
  destruct (spawnVortex_grid sx sy s Hshape) as [-> ->].
  by destruct Hshape as (-> & _).
Qed.

(** An application whose simulation is that of [a] after a spawn, with the
    image of [a]. *)
Ltac spawn_ok a :=
  apply (app_ok_sim a);
  [reflexivity | by apply spawnVortex_shape | by apply spawn_len | done].

Lemma appSetupCanvas_ok container random app :
  app_ok app ->
  match container with Some (cw, ch) => 0 < cw /\ 0 < ch | None => True end ->
  app_ok (appSetupCanvas container random app).
Proof.
  intros Hok Hsized. unfold appSetupCanvas.
  destruct container as [[cw ch]|]; [|done]. destruct Hsized as [Hcw Hch].
  destruct (setupCanvas_normal (sim app) cw ch random Hcw Hch) as (Hgx & Hgy & ->).
  set (safe := Z.max 2 (targetCellSize (sim app))) in *.
  set (gx := Js.ceil_div cw safe) in *. set (gy := Js.ceil_div ch safe) in *.
  set (a := allocate _).
  assert (shape a) as Ha by (apply allocate_shape; app_cbn; nia).
  destruct (initializeGrid_frame random a) as [(HX & HY & _) Hlen].
  pose proof (initializeGrid_shape random a Ha) as Hs.
  split; [done|]. unfold image_fits. app_cbn.
  destruct Hs as (-> & _). rewrite length_replicate, HX, HY.
  change (gridSizeX a) with gx. change (gridSizeY a) with gy. nia.
Qed.

(** X18. From the construction on a container of positive size and through
    every sequence of frames, pointer and touch events, slider changes,
    resets and resizes to positive sizes, the four arrays keep one cell per
    grid cell and the image keeps four entries per cell, so the solver, the
    injector and the pixel loop never leave their arrays. *)
Theorem app_keeps_shape (clientWidth clientHeight : Z) (random : nat -> R)
    (es : list event) :
  0 < clientWidth -> 0 < clientHeight -> Forall sized es ->
  let app :=
    handleAll es (appSetupCanvas (Some (clientWidth, clientHeight)) random newApp)
  in
  shape (sim app) /\
  exists d, offscreenImageData app = Some d /\
            Z.of_nat (length d) = 4 * (gridSizeX (sim app) * gridSizeY (sim app)).
Proof.
  intros Hcw Hch Hes app.
  assert (app_ok newApp) as Hnew by (repeat split).
  pose proof (appSetupCanvas_ok (Some (clientWidth, clientHeight)) random
                newApp Hnew (conj Hcw Hch)) as H0.
  assert (offscreenImageData
            (appSetupCanvas (Some (clientWidth, clientHeight)) random newApp)
          <> None) as Hsome0.
  { unfold appSetupCanvas.
    destruct (setupCanvas_normal (sim newApp) clientWidth clientHeight random
                Hcw Hch) as (_ & _ & ->). done. }
  set (app0 := appSetupCanvas _ random newApp) in *.
  assert (app_ok app /\ offscreenImageData app <> None) as [[Hshape Hfit] Hsome].
  { subst app. unfold handleAll. clearbody app0. revert app0 H0 Hsome0.
    induction Hes as [|e es He Hes IH]; intros a Ha Hsome; app_cbn; [done|].
    apply IH.
    - pose proof Ha as [Hs Hf]. destruct e; app_cbn; try done.
      + by apply animate_ok.
      + unfold canvasMouseDown. destruct (isDraggingPanel a); app_cbn; [done|].
        destruct coords as [c|]; [|done]. spawn_ok a.
      + unfold canvasMove. destruct (isMouseDownOnCanvas a); [|done].
        destruct coords as [c|]; [|done]. destruct (Rgt_dec _ 30); [|done].
        destruct (hasShownEpilepsyWarning a); app_cbn; [|done].
        spawn_ok a.
      + unfold windowMouseUp. app_cbn. by destruct (isDraggingPanel a).
      + unfold canvasTouchStart. destruct coords as [c|]; [|done].
        spawn_ok a.
      + unfold canvasMove. destruct (isMouseDownOnCanvas a); [|done].
        destruct coords as [c|]; [|done]. destruct (Rgt_dec _ 30); [|done].
        destruct (hasShownEpilepsyWarning a); app_cbn; [|done].
        spawn_ok a.
      + unfold panelMouseDown. by destruct (wide && negb isInput).
      + unfold resolutionChange. by apply appSetupCanvas_ok.
      + by apply appSetupCanvas_ok.
      + unfold resetClick.
        destruct (initializeGrid_frame random0 (sim a)) as [Hset (LU & _)].
        split; [by apply initializeGrid_shape|].
        unfold image_fits in *. app_cbn. rewrite LU. done.
      + split; [done|]. unfold image_fits in *. app_cbn.
        by apply draw_fits.
    - destruct e; app_cbn; try done.
      + unfold animate. destruct (isPaused a); app_cbn; [done|].
        set (b := for_range _ _ a).
        assert (offscreenImageData b = offscreenImageData a) as Hb.
        { apply (for_range_inv (fun x => offscreenImageData x
                                          = offscreenImageData a)); done. }
        pose proof (draw_length (offscreenImageData b) (sim b)) as Hd.
        rewrite Hb in *. destruct (offscreenImageData a); [|done].
        destruct (draw _ _); done.
      + unfold canvasMouseDown. destruct (isDraggingPanel a); app_cbn; [done|].
        by destruct coords.
      + unfold canvasMove. destruct (isMouseDownOnCanvas a); [|done].
        destruct coords as [c|]; [|done]. destruct (Rgt_dec _ 30); [|done].
        by destruct (hasShownEpilepsyWarning a).
      + unfold windowMouseUp. app_cbn. by destruct (isDraggingPanel a).
      + unfold canvasTouchStart. by destruct coords.
      + unfold canvasMove. destruct (isMouseDownOnCanvas a); [|done].
        destruct coords as [c|]; [|done]. destruct (Rgt_dec _ 30); [|done].
        by destruct (hasShownEpilepsyWarning a).
      + unfold panelMouseDown. by destruct (wide && negb isInput).
      + unfold resolutionChange, appSetupCanvas.
        destruct (setupCanvas _ _ _); [|done]. by destruct container.
      + unfold appSetupCanvas.
        destruct (setupCanvas _ _ _); [|done]. by destruct container.
      + pose proof (draw_length (offscreenImageData a) (sim a)) as Hd.
        destruct (offscreenImageData a); [|done].
        unfold smoothChange. app_cbn. destruct (draw _ _); done. }
  split; [done|]. unfold image_fits in Hfit.
  destruct (offscreenImageData app) as [d|]; [|done].
  exists d. split; [done|]. destruct Hshape as (<- & _). done.
Qed.

Lemma animate_flags random app :
  let app' := animate random app in
  hasShownEpilepsyWarning app' = hasShownEpilepsyWarning app /\
  alerts app' = alerts app /\
  isMouseDownOnCanvas app' = isMouseDownOnCanvas app /\
  lastSpawnPos app' = lastSpawnPos app /\
  isPaused app' = isPaused app /\ simulationSpeed app' = simulationSpeed app /\
  isDraggingPanel app' = isDraggingPanel app.
Proof.
  unfold animate. destruct (isPaused app) eqn:Hp; app_cbn; [by rewrite Hp|].
  apply (for_range_inv (fun a =>
    hasShownEpilepsyWarning a = hasShownEpilepsyWarning app /\
    alerts a = alerts app /\
    isMouseDownOnCanvas a = isMouseDownOnCanvas app /\
    lastSpawnPos a = lastSpawnPos app /\
    isPaused a = false /\ simulationSpeed a = simulationSpeed app /\
    isDraggingPanel a = isDraggingPanel app)); [done|].
  intros i a _ Ha. exact Ha.
Qed.

Lemma appSetupCanvas_flags container random app :
  let app' := appSetupCanvas container random app in
  hasShownEpilepsyWarning app' = hasShownEpilepsyWarning app /\
  alerts app' = alerts app.
Proof.
  unfold appSetupCanvas. destruct (setupCanvas _ _ _); [|done].
  by destruct container.
Qed.

(** X19. The epilepsy warning is shown at most once: through every sequence
    of events the number of alerts is 1 if the warning flag is set and 0 if
    it is not, and a flag that is set stays set. *)
Theorem warning_shown_once (es : list event) (app : App) :
  warned_once app ->
  let app' := handleAll es app in
  warned_once app' /\ (alerts app' <= 1)%nat /\
  (hasShownEpilepsyWarning app = true -> hasShownEpilepsyWarning app' = true).
Proof.
  intros Hw app'.
  assert (warned_once app' /\
          (hasShownEpilepsyWarning app = true ->
           hasShownEpilepsyWarning app' = true)) as [H1 H2].
  { subst app'. unfold handleAll. revert app Hw.
    induction es as [|e es IH]; intros app Hw; cbn [foldl]; [done|].
    assert (warned_once (handle e app) /\
            (hasShownEpilepsyWarning app = true ->
             hasShownEpilepsyWarning (handle e app) = true)) as [Hw' Hk].
    { unfold warned_once in *.
      assert (forall coords,
                alerts (canvasMove coords app)
                = (if hasShownEpilepsyWarning (canvasMove coords app)
                   then 1%nat else 0%nat) /\
                (hasShownEpilepsyWarning app = true ->
                 hasShownEpilepsyWarning (canvasMove coords app) = true))
        as Hmove.
      { intros coords. unfold canvasMove.
        destruct (isMouseDownOnCanvas app); [|done].
        destruct coords as [c|]; [|done]. destruct (Rgt_dec _ 30); [|done].
        destruct (hasShownEpilepsyWarning app) eqn:Hh; app_cbn.
        - by rewrite Hh.
        - rewrite Hw. done. }
      destruct e; cbn [handle]; try apply Hmove; try done.
      - destruct (animate_flags random app) as (-> & -> & _). done.
      - unfold canvasMouseDown. destruct (isDraggingPanel app); [done|].
        by destruct coords.
      - unfold windowMouseUp. app_cbn. by destruct (isDraggingPanel app).
      - unfold canvasTouchStart. by destruct coords.
      - unfold panelMouseDown. by destruct (wide && negb isInput).
      - unfold resolutionChange.
        match goal with |- context [appSetupCanvas ?c ?r ?a] =>
          destruct (appSetupCanvas_flags c r a) as [-> ->] end. done.
      - destruct (appSetupCanvas_flags container random app) as [-> ->]. done. }
    destruct (IH _ Hw') as [Hf Hkeep]. split; [done|]. auto. }
  split; [done|]. split; [|done].
  unfold warned_once in H1. rewrite H1.
  destruct (hasShownEpilepsyWarning app'); lia.
Qed.

Lemma move_mouse_up coords app :
  isMouseDownOnCanvas app = false -> canvasMove coords app = app.
Proof. intros H. unfold canvasMove. by rewrite H. Qed.

(** The three ways a move can end. *)
Lemma canvasMove_cases coords app :
  canvasMove coords app = app \/
  (hasShownEpilepsyWarning app = false /\
   canvasMove coords app =
     alert (with_isMouseDownOnCanvas false
              (with_hasShownEpilepsyWarning true app))) \/
  (hasShownEpilepsyWarning app = true /\ isMouseDownOnCanvas app = true /\
   exists c, coords = Some c /\
     (hypot (fst c - fst (lastSpawnPos app)) (snd c - snd (lastSpawnPos app))
      > 30)%R /\
     canvasMove coords app =
       with_lastSpawnPos c
         (with_sim (spawnVortex (fst c) (snd c) (sim app)) app)).
Proof.
  unfold canvasMove.
  destruct (isMouseDownOnCanvas app); [|by left].
  destruct coords as [c|]; [|by left].
  destruct (Rgt_dec _ 30) as [Hd|]; [|by left].
  destruct (hasShownEpilepsyWarning app); cbn [negb].
  - right; right. split; [done|]. split; [done|]. by exists c.
  - right; left. done.
Qed.

(** X20. Dragging before the warning has been shown never spawns a vortex:
    through every sequence of pointer and touch moves from a state whose
    warning flag is not set, the simulation is untouched and at most one
    alert is raised; when one is raised the flag is set and the button
    counts as released, so the rest of the drag does nothing either. *)
Theorem first_drag_spawns_nothing (es : list event) (app : App) :
  Forall is_move es -> hasShownEpilepsyWarning app = false ->
  let app' := handleAll es app in
  sim app' = sim app /\ lastSpawnPos app' = lastSpawnPos app /\
  ((hasShownEpilepsyWarning app' = false /\ alerts app' = alerts app /\
    isMouseDownOnCanvas app' = isMouseDownOnCanvas app) \/
   (hasShownEpilepsyWarning app' = true /\
    alerts app' = Datatypes.S (alerts app) /\
    isMouseDownOnCanvas app' = false)).
Proof.
  intros Hes Hflag app'. subst app'. unfold handleAll.
  assert (forall es a, Forall is_move es -> isMouseDownOnCanvas a = false ->
            foldl (fun a e => handle e a) a es = a) as Hup.
  { intros es0 a H0 Ha. induction H0 as [|e es0 He _ IH]; cbn [foldl]; [done|].
    destruct e; try (by destruct He); cbn [handle];
      by rewrite move_mouse_up. }
  revert app Hflag. induction Hes as [|e es He Hes IH]; intros app Hflag;
    cbn [foldl]; [split; [done|]; split; [done|]; by left|].
  assert (handle e app = canvasMove
            match e with MouseMove c | TouchMove c => c | _ => None end app)
    as -> by (destruct e; try reflexivity; destruct He).
  set (coords := match e with MouseMove c | TouchMove c => c | _ => None end).
  destruct (canvasMove_cases coords app) as [-> | [[_ ->] | [Hshown _]]].
  - by apply IH.
  - rewrite Hup by done. app_cbn.
    split; [done|]. split; [done|]. by right.
  - congruence.
Qed.

(** The state of the application after the first [n] turns of the loop of
    [animate]. *)
Lemma animate_loop random app n :
  0 <= n ->
  let body := fun (i : Z) (app : App) =>
    with_frameCount
      (frameCount (with_sim (updatePhysics (random (Z.to_nat i)) (sim app)) app)
       + 1)
      (with_sim (updatePhysics (random (Z.to_nat i)) (sim app)) app) in
  let a := for_range n body app in
  sim a = run (frameSteps random (Z.to_nat n)) (sim app) /\
  frameCount a = frameCount app + n /\
  offscreenImageData a = offscreenImageData app.
Proof.
  intros Hn body a. subst a.
  apply (for_range_ind (fun i a =>
    sim a = run (frameSteps random (Z.to_nat i)) (sim app) /\
    frameCount a = frameCount app + i /\
    offscreenImageData a = offscreenImageData app)); [done | | ].
  - split; [done|]. split; [lia | done].
  - intros i a Hi (Hs & Hf & Him). unfold body. app_cbn.
    split; [|split; [lia | done]].
    replace (Z.to_nat (i + 1)) with (Datatypes.S (Z.to_nat i)) by lia.
    unfold frameSteps, run. rewrite seq_S, map_app, foldl_app. cbn [map foldl].
    rewrite Hs. reflexivity.
Qed.

(** X21. A frame while the simulation is paused changes nothing.  A running
    frame performs as many solver steps as the speed says (none for a speed
    of zero or less), counts each of them in [frameCount], and then draws
    the field it has reached into the image; the step number [k] of the
    frame runs on the field that step [k - 1] has left. *)
Theorem animate_frame random (app : App) :
  let n := Z.to_nat (simulationSpeed app) in
  let app' := animate random app in
  (isPaused app = true -> app' = app) /\
  (isPaused app = false ->
   sim app' = run (frameSteps random n) (sim app) /\
   frameCount app' = frameCount app + Z.max 0 (simulationSpeed app) /\
   offscreenImageData app' = draw (offscreenImageData app) (sim app') /\
   (simulationSpeed app <= 0 -> sim app' = sim app)).
Proof.
  intros n app'. subst n app'. unfold animate.
  split; intros ->; cbn [negb]; [done|].
  destruct (Z.le_gt_cases 0 (simulationSpeed app)) as [Hn|Hn].
  - destruct (animate_loop random app (simulationSpeed app) Hn)
      as (Hs & Hf & Him).
    cbv zeta in Hs, Hf, Him.
    set (a := for_range _ _ app) in *. app_cbn.
    split; [done|]. split; [lia|]. split; [by rewrite Him|].
    intros H0. rewrite Hs. by replace (simulationSpeed app) with 0 by lia.
  - rewrite for_range_nonpos by lia. app_cbn.
    replace (Z.to_nat (simulationSpeed app)) with 0%nat by lia.
    split; [done|]. split; [lia|]. done.
Qed.

Lemma cellSizeOf_cases val :
  (val = 1 /\ cellSizeOf val = 24) \/ (val = 2 /\ cellSizeOf val = 18) \/
  (val = 4 /\ cellSizeOf val = 8) \/ (val = 5 /\ cellSizeOf val = 4) \/
  ((val < 1 \/ val = 3 \/ 5 < val) /\ cellSizeOf val = 12).
Proof.
  unfold cellSizeOf.
  destruct (Z.ltb_spec (val - 1) 0) as [Hneg|Hpos].
  { right; right; right; right. split; [lia | done]. }
  destruct (Z.le_gt_cases val 5) as [Hle|Hgt].
  - assert (val = 1 \/ val = 2 \/ val = 3 \/ val = 4 \/ val = 5)
      as [-> | [-> | [-> | [-> | ->]]]] by lia; cbn.
    + by left.
    + right; left. done.
    + right; right; right; right. split; [lia | done].
    + right; right; left. done.
    + right; right; right; left. done.
  - right; right; right; right. split; [lia|].
    rewrite (proj2 (lookup_ge_None _ _)); [done|]. cbn. lia.
Qed.

Lemma ceil_div_antitone a b b' :
  0 < b' <= b -> 0 <= a -> Js.ceil_div a b <= Js.ceil_div a b'.
Proof.
  intros Hb Ha.
  pose proof (ceil_div_bounds a b ltac:(lia)).
  pose proof (ceil_div_bounds a b' ltac:(lia)).
  set (c := Js.ceil_div a b) in *. set (c' := Js.ceil_div a b') in *.
  assert (0 <= c') by nia.
  destruct (Z.le_gt_cases c c') as [|Hgt]; [done|].
  assert (c' * b' <= c' * b) by nia.
  assert (c' * b <= (c - 1) * b) by nia. lia.
Qed.

(** X22. The resolution slider: positions 1 to 5 choose cells of 24, 18,
    12, 8 and 4 pixels, every other position chooses 12.  The choice is at
    least 2, so the floor of [setupCanvas] never applies and the new grid
    has just enough cells of the chosen size to cover the container; a
    higher position never gives a coarser grid.  The change resets the
    field but keeps the noise level, the winding flip-flop and the frame
    count. *)
Theorem resolution_slider (val clientWidth clientHeight : Z)
    (random : nat -> R) (app : App) :
  0 < clientWidth -> 0 < clientHeight ->
  let size := cellSizeOf val in
  let app' :=
    resolutionChange val (Some (clientWidth, clientHeight)) random app in
  In size [24; 18; 12; 8; 4] /\
  (val < 1 \/ 5 < val -> size = 12) /\
  targetCellSize (sim app') = size /\
  gridSizeX (sim app') = Js.ceil_div clientWidth size /\
  gridSizeY (sim app') = Js.ceil_div clientHeight size /\
  (forall val' random', 1 <= val <= val' -> val' <= 5 ->
     let app'' :=
       resolutionChange val' (Some (clientWidth, clientHeight)) random' app in
     gridSizeX (sim app') <= gridSizeX (sim app'') /\
     gridSizeY (sim app') <= gridSizeY (sim app'')) /\
  noiseLevel (sim app') = noiseLevel (sim app) /\
  nextWinding (sim app') = nextWinding (sim app) /\
  frameCount app' = frameCount app.
Proof.
  intros Hcw Hch size app'.
  assert (forall v r,
    let a := resolutionChange v (Some (clientWidth, clientHeight)) r app in
    targetCellSize (sim a) = cellSizeOf v /\
    gridSizeX (sim a) = Js.ceil_div clientWidth (cellSizeOf v) /\
    gridSizeY (sim a) = Js.ceil_div clientHeight (cellSizeOf v) /\
    noiseLevel (sim a) = noiseLevel (sim app) /\
    nextWinding (sim a) = nextWinding (sim app) /\
    frameCount a = frameCount app) as Hres.
  { intros v r a. subst a. unfold resolutionChange, appSetupCanvas.
    set (app0 := with_sim _ app).
    destruct (setupCanvas_normal (sim app0) clientWidth clientHeight r Hcw Hch)
      as (_ & _ & ->).
    change (targetCellSize (sim app0)) with (cellSizeOf v).
    assert (Z.max 2 (cellSizeOf v) = cellSizeOf v) as ->.
    { destruct (cellSizeOf_cases v)
        as [[_ ->] | [[_ ->] | [[_ ->] | [[_ ->] | [_ ->]]]]]; lia. }
    set (a := allocate _).
    destruct (initializeGrid_frame r a)
      as [(HX & HY & _ & _ & HT & _ & _ & HN & HW) _].
    app_cbn. rewrite HX, HY, HT, HN, HW. done. }
  destruct (Hres val random) as (HT & HX & HY & HN & HW & HF).
  fold app' in HT, HX, HY, HN, HW, HF. fold size in HT, HX, HY.
  split.
  { subst size. destruct (cellSizeOf_cases val)
      as [[_ ->] | [[_ ->] | [[_ ->] | [[_ ->] | [_ ->]]]]]; cbn; tauto. }
  split.
  { intros Hout. subst size. destruct (cellSizeOf_cases val)
      as [[? ?] | [[? ?] | [[? ?] | [[? ?] | [_ ?]]]]]; lia || done. }
  split; [done|]. split; [done|]. split; [done|].
  split; [|done].
  intros val' random' Hv Hv' app''.
  destruct (Hres val' random') as (_ & HX' & HY' & _). fold app'' in HX', HY'.
  rewrite HX, HY, HX', HY'. subst size.
  assert (0 < cellSizeOf val' <= cellSizeOf val) as Hsizes.
  { destruct (cellSizeOf_cases val)
      as [[? ->] | [[? ->] | [[? ->] | [[? ->] | [? ->]]]]];
    destruct (cellSizeOf_cases val')
      as [[? ->] | [[? ->] | [[? ->] | [[? ->] | [? ->]]]]]; lia. }
  split; apply ceil_div_antitone; lia.
Qed.

(** * The further theorems at concrete inputs *)

(** A noisy step of the uniform 4 by 4 field, at cell (1, 2). *)
Lemma updatePhysics_noise_before_stencil_witness :
  let random := fun _ : nat => 0.75%R in
  let s := with_noiseLevel 1 (uniform 4 4 1 0) in
  let p := afterNoise random s in
  let t := updatePhysics random s in
  (shape s /\ (noiseLevel s > 0)%R /\
   0 <= 1 < gridSizeX s /\ 0 <= 2 < gridSizeY s) /\
  get (u p) 9 = (get (u s) 9 + noiseU random s 9)%R /\
  get (u t) (2 * 4 + 1) =
    Spec.euler (diffusion s) (dt s) (Spec.Laplacian (u p) 4 4 1 2)
      (get (u p) (2 * 4 + 1)) (get (u p) (2 * 4 + 1)) (get (v p) (2 * 4 + 1)) /\
  uNext t = u p /\ vNext t = v p.
Proof.
  intros random s p t.
  assert (shape s) as Hshape by (apply (uniform_shape 4 4 1 0); lia).
  assert (noiseLevel s > 0)%R as Hnoise by (cbn; lra).
  assert (0 <= 1 < gridSizeX s) as Hx by (cbn; lia).
  assert (0 <= 2 < gridSizeY s) as Hy by (cbn; lia).
  split; [exact (conj Hshape (conj Hnoise (conj Hx Hy)))|].
  destruct (updatePhysics_noise_before_stencil random s 1 2 Hshape Hnoise Hx Hy)
    as (Hp & HU & _ & HN & HM & _).
  split; [apply Hp; cbn; lia|].
  split; [exact HU|]. split; [exact HN | exact HM].
Defined.

(** The uniform 4 by 4 field with other numbers in the next buffers. *)
Lemma updatePhysics_ignores_next_witness :
  let s := uniform 4 4 1 0 in
  let a := replicate 16 5%R in
  let b := replicate 16 7%R in
  let t := updatePhysics (fun _ => 0%R) s in
  let t' := updatePhysics (fun _ => 0%R) (with_next a b s) in
  (shape s /\ 0 <= gridSizeX s /\ 0 <= gridSizeY s /\
   len a = len (uNext s) /\ len b = len (vNext s)) /\
  u t' = u t /\ v t' = v t /\ uNext t' = uNext t /\ vNext t' = vNext t.
Proof.
  intros s a b t t'.
  assert (shape s) as Hshape by (apply uniform_shape; lia).
  assert (0 <= gridSizeX s) as Hx by (cbn; lia).
  assert (0 <= gridSizeY s) as Hy by (cbn; lia).
  assert (len a = len (uNext s)) as Ha by reflexivity.
  assert (len b = len (vNext s)) as Hb by reflexivity.
  split; [exact (conj Hshape (conj Hx (conj Hy (conj Ha Hb))))|].
  exact (updatePhysics_ignores_next (fun _ => 0%R) s a b Hshape Hx Hy Ha Hb).
Defined.

(** The field with one nonzero cell, turned by one radian. *)
Lemma updatePhysics_phase_symmetry_witness :
  let s := single 4 4 0 1 2 3 in
  let random := fun _ : nat => 0%R in
  (shape s /\ noiseLevel s = 0%R /\ 0 <= gridSizeX s /\ 0 <= gridSizeY s) /\
  u (updatePhysics random (rotate 1 s)) = u (rotate 1 (updatePhysics random s)) /\
  v (updatePhysics random (rotate 1 s)) = v (rotate 1 (updatePhysics random s)).
Proof.
  intros s random.
  assert (shape s) as Hshape by (apply single_shape; lia).
  assert (noiseLevel s = 0%R) as Hquiet by reflexivity.
  assert (0 <= gridSizeX s) as Hx by (cbn; lia).
  assert (0 <= gridSizeY s) as Hy by (cbn; lia).
  split; [exact (conj Hshape (conj Hquiet (conj Hx Hy)))|].
  exact (updatePhysics_phase_symmetry random 1 s Hshape Hquiet Hx Hy).
Defined.

(** The field with one nonzero cell, moved by one column and three rows. *)
Lemma updatePhysics_translation_symmetry_witness :
  let s := single 4 4 0 1 2 3 in
  let random := fun _ : nat => 0%R in
  (shape s /\ noiseLevel s = 0%R /\ 0 < gridSizeX s /\ 0 < gridSizeY s) /\
  u (updatePhysics random (translate 1 3 s))
    = u (translate 1 3 (updatePhysics random s)) /\
  v (updatePhysics random (translate 1 3 s))
    = v (translate 1 3 (updatePhysics random s)).
Proof.
  intros s random.
  assert (shape s) as Hshape by (apply single_shape; lia).
  assert (noiseLevel s = 0%R) as Hquiet by reflexivity.
  assert (0 < gridSizeX s) as Hx by (cbn; lia).
  assert (0 < gridSizeY s) as Hy by (cbn; lia).
  split; [exact (conj Hshape (conj Hquiet (conj Hx Hy)))|].
  exact (updatePhysics_translation_symmetry random 1 3 s Hshape Hquiet Hx Hy).
Defined.

(** The uniform 4 by 4 field of magnitude one half. *)
Lemma updatePhysics_uniform_relaxes_witness :
  let s := uniform 4 4 0.5 0 in
  let k := (1 + dt s * (1 - (0.5 * 0.5 + 0 * 0)))%R in
  let t := updatePhysics (fun _ => 0%R) s in
  (shape s /\ noiseLevel s = 0%R /\ 0 <= gridSizeX s /\ 0 <= gridSizeY s /\
   forall i, 0 <= i < gridSizeX s * gridSizeY s ->
     get (u s) i = 0.5%R /\ get (v s) i = 0%R) /\
  (forall i, 0 <= i < gridSizeX s * gridSizeY s ->
     get (u t) i = (0.5 * k)%R /\ get (v t) i = (0 * k)%R) /\
  (mag 0.5 0 < mag (0.5 * k) (0 * k) <= 1)%R /\
  Js.atan2 (0 * k) (0.5 * k) = Js.atan2 0 0.5.
Proof.
  intros s k t.
  assert (shape s) as Hshape by (apply uniform_shape; lia).
  assert (noiseLevel s = 0%R) as Hquiet by reflexivity.
  assert (0 <= gridSizeX s) as Hx by (cbn; lia).
  assert (0 <= gridSizeY s) as Hy by (cbn; lia).
  assert (forall i, 0 <= i < gridSizeX s * gridSizeY s ->
            get (u s) i = 0.5%R /\ get (v s) i = 0%R) as Hcells
    by (intros i Hi; apply uniform_cells; exact Hi).
  split; [exact (conj Hshape (conj Hquiet (conj Hx (conj Hy Hcells))))|].
  destruct (updatePhysics_uniform_relaxes (fun _ => 0%R) s 0.5 0
              Hshape Hquiet Hx Hy Hcells) as (Hall & _ & Hgrow).
  split; [exact Hall|]. apply Hgrow; cbn; lra.
Defined.

(** A centre left of and below the 4 by 4 grid, seen from cell (0, 0). *)
Lemma imprint_displacement_shortest_witness :
  let s := uniform 4 4 1 0 in
  let x1 := Js.rem (-1 + IZR 4) (IZR 4) in
  let y1 := Js.rem (5 + IZR 4) (IZR 4) in
  (0 < gridSizeX s /\ 0 < gridSizeY s /\
   (- IZR (gridSizeX s) <= -1)%R /\ (- IZR (gridSizeY s) <= 5)%R /\
   0 <= 0 < gridSizeX s /\ 0 <= 0 < gridSizeY s) /\
  (0 <= x1 < IZR 4)%R /\ (0 <= y1 < IZR 4)%R /\
  (Rabs (dx1 4 x1 0) <= IZR 4 / 2)%R /\ (Rabs (dy1 4 y1 0) <= IZR 4 / 2)%R.
Proof.
  intros s x1 y1.
  assert (0 < gridSizeX s) as Hw by (cbn; lia).
  assert (0 < gridSizeY s) as Hh by (cbn; lia).
  assert (- IZR (gridSizeX s) <= -1)%R as Hcx by (cbn; lra).
  assert (- IZR (gridSizeY s) <= 5)%R as Hcy by (cbn; lra).
  assert (0 <= 0 < gridSizeX s) as Hx by (cbn; lia).
  assert (0 <= 0 < gridSizeY s) as Hy by (cbn; lia).
  split; [exact (conj Hw (conj Hh (conj Hcx (conj Hcy (conj Hx Hy)))))|].
  destruct (imprint_displacement_shortest (-1) 5 s 0 0 Hw Hh Hcx Hcy Hx Hy)
    as (A & B & C & D & _).
  exact (conj A (conj B (conj C D))).
Defined.

(** Two imprints of winding 1 at (2, 2) on the 4 by 4 field, cell (0, 0). *)
Lemma imprint_windings_add_witness :
  let s := uniform 4 4 1 0 in
  let t := imprintSingleVortex 2 2 1 (imprintSingleVortex 2 2 1 s) in
  let t12 := imprintSingleVortex 2 2 (1 + 1) s in
  let p := softProfile (distance s 2 2 0 0) in
  let i := 0 * gridSizeX s + 0 in
  (shape s /\ 0 <= 0 < gridSizeX s /\ 0 <= 0 < gridSizeY s) /\
  get (u t) i = (p * get (u t12) i)%R /\ get (v t) i = (p * get (v t12) i)%R /\
  magAt t 0 0 = (p * p * magAt s 0 0)%R.
Proof.
  intros s t t12 p i.
  assert (shape s) as Hshape by (apply uniform_shape; lia).
  assert (0 <= 0 < gridSizeX s) as Hx by (cbn; lia).
  assert (0 <= 0 < gridSizeY s) as Hy by (cbn; lia).
  split; [exact (conj Hshape (conj Hx Hy))|].
  exact (imprint_windings_add 2 2 1 1 s 0 0 Hshape Hx Hy).
Defined.

(** Two clicks on the same point of the 4 by 4 field, cell (0, 0). *)
Lemma spawnVortex_twice_witness :
  let s := uniform 4 4 1 0 in
  let t := spawnVortex 2 2 (spawnVortex 2 2 s) in
  (shape s /\ 0 <= 0 < gridSizeX s /\ 0 <= 0 < gridSizeY s) /\
  nextWinding (spawnVortex 2 2 s) = (nextWinding s * -1)%R /\
  nextWinding t = nextWinding s /\
  (0.999999 < cos (phaseAt t 0 0 - phaseAt s 0 0))%R /\
  (0.039 * magAt s 0 0 <= magAt t 0 0 <= 0.6561 * magAt s 0 0)%R.
Proof.
  intros s t.
  assert (shape s) as Hshape by (apply uniform_shape; lia).
  assert (0 <= 0 < gridSizeX s) as Hx by (cbn; lia).
  assert (0 <= 0 < gridSizeY s) as Hy by (cbn; lia).
  split; [exact (conj Hshape (conj Hx Hy))|].
  destruct (spawnVortex_twice 2 2 s 0 0 Hshape Hx Hy)
    as (A & B & _ & _ & C & D).
  exact (conj A (conj B (conj C D))).
Defined.

(** Three spawns among a step and a reseeding. *)
Lemma nextWinding_flips_witness :
  let s := uniform 4 4 1 0 in
  let cs := [Spawn 1 1; Step (fun _ => 0%R); Spawn 2 2; Seed (fun _ => 0%R);
             Spawn 0 0] in
  shape s /\
  nextWinding (run cs s) = (nextWinding s * (-1) ^ spawns cs)%R /\
  (nextWinding (run cs s) = 1%R \/ nextWinding (run cs s) = (-1)%R).
Proof.
  intros s cs.
  assert (shape s) as Hshape by (apply uniform_shape; lia).
  split; [exact Hshape|].
  destruct (nextWinding_flips cs s Hshape) as [A B].
  split; [exact A | exact (B eq_refl)].
Defined.

(** Seeding the uniform 4 by 4 field with every draw one half. *)
Lemma initializeGrid_seeds_witness :
  let random := fun _ : nat => 0.5%R in
  let s := uniform 4 4 1 0 in
  let t := initializeGrid random s in
  shape s /\
  same_settings s t /\ shape t /\ uNext t = uNext s /\ vNext t = vNext s /\
  (forall i, 0 <= i < gridSizeX s * gridSizeY s ->
     get (u t) i = (seedMag random i * cos (seedAngle random i))%R /\
     get (v t) i = (seedMag random i * sin (seedAngle random i))%R).
Proof.
  intros random s t.
  assert (shape s) as Hshape by (apply uniform_shape; lia).
  split; [exact Hshape|].
  destruct (initializeGrid_seeds random s Hshape) as (A & B & C & D & E & _).
  exact (conj A (conj B (conj C (conj D E)))).
Defined.

(** The program as constructed, in a container of 50 by 36 pixels. *)
Lemma setupCanvas_geometry_witness :
  (0 < 50 /\ 0 < 36) /\
  exists s,
    setupCanvas (Some (50, 36)) (fun _ => 0%R) (sim newApp) = Normal s /\
    let safe := Z.max 2 (targetCellSize (sim newApp)) in
    2 <= safe /\
    (gridSizeX s - 1) * safe < 50 <= gridSizeX s * safe /\
    (gridSizeY s - 1) * safe < 36 <= gridSizeY s * safe /\
    (cellWidth s * IZR (gridSizeX s) = IZR 50)%R /\
    (cellHeight s * IZR (gridSizeY s) = IZR 36)%R.
Proof.
  split; [lia|].
  destruct (setupCanvas_geometry (sim newApp) 50 36 (fun _ => 0%R))
    as (s & Hs & A & B & C & D & E & _); [lia | lia |].
  exists s. exact (conj Hs (conj A (conj B (conj C (conj D E))))).
Defined.

(** The same container for the program as constructed and for a simulation
    that holds the uniform 4 by 4 field. *)
Lemma setupCanvas_hard_reset_witness :
  (0 < 48 /\ 0 < 36 /\
   targetCellSize (uniform 4 4 1 0) = targetCellSize (sim newApp)) /\
  exists s s',
    setupCanvas (Some (48, 36)) (fun _ => 0.5%R) (sim newApp) = Normal s /\
    setupCanvas (Some (48, 36)) (fun _ => 0.5%R) (uniform 4 4 1 0) = Normal s' /\
    u s' = u s /\ v s' = v s /\ uNext s' = uNext s /\ vNext s' = vNext s.
Proof.
  split; [split; [lia|]; split; [lia | reflexivity]|].
  destruct (setupCanvas_hard_reset (sim newApp) (uniform 4 4 1 0) 48 36
              (fun _ => 0.5%R))
    as (s & s' & Hs & Hs' & A & B & _ & _ & C & D & _);
    [lia | lia | reflexivity |].
  exists s, s'. exact (conj Hs (conj Hs' (conj A (conj B (conj C D))))).
Defined.

(** A container of width zero around the uniform 4 by 4 field. *)
Lemma setupCanvas_zero_size_witness :
  (0 <= 0 /\ 0 <= 36 /\ (0 = 0 \/ 36 = 0)) /\
  exists s,
    setupCanvas (Some (0, 36)) (fun _ => 0%R) (uniform 4 4 1 0) = Thrown s /\
    u s = u (uniform 4 4 1 0) /\ v s = v (uniform 4 4 1 0) /\
    gridSizeX s * gridSizeY s = 0 /\ ~ shape s.
Proof.
  split; [split; [lia|]; split; [lia | left; reflexivity]|].
  destruct (setupCanvas_zero_size (uniform 4 4 1 0) 0 36 (fun _ => 0%R))
    as (s & Hs & A & B & _ & _ & C & D); [lia | lia | left; reflexivity |].
  exists s. split; [exact Hs|]. split; [exact A|]. split; [exact B|].
  split; [exact C|]. apply D.
  destruct (uniform_shape 4 4 1 0) as (-> & _); cbn; lia.
Defined.

(** A grey: saturation 0 at half lightness. *)
Lemma hslToRgb_range_witness :
  ((0 <= 0.5 <= 1)%R /\ (0 <= 0 <= 1)%R /\ (0 <= 0.5 <= 1)%R) /\
  let '(r, g, b) := hslToRgb 0.5 0 0.5 in
  (0 <= r <= 255 /\ 0 <= g <= 255 /\ 0 <= b <= 255) /\
  r = round (0.5 * 255) /\ g = r /\ b = r.
Proof.
  assert (0 <= 0.5 <= 1)%R as Hh by lra.
  assert (0 <= 0 <= 1)%R as Hs by lra.
  split; [exact (conj Hh (conj Hs Hh))|].
  pose proof (hslToRgb_range 0.5 0 0.5 Hh Hs Hh) as H.
  destruct (hslToRgb 0.5 0 0.5) as [[r g] b]. destruct H as [Hrange Hgrey].
  split; [exact Hrange | exact (Hgrey eq_refl)].
Defined.

(** The uniform 2 by 2 field drawn into an image of zeros and into an image
    of sevens. *)
Lemma draw_fills_image_witness :
  let this := uniform 2 2 1 0 in
  let data := replicate 16 0 in
  let data0 := replicate 16 7 in
  (Z.of_nat (length data) = 4 * len (u this) /\ length data0 = length data) /\
  draw None this = None /\
  exists image,
    draw (Some data) this = Some image /\
    length image = length data /\
    (forall i, 0 <= i < len (u this) -> get8 image (4 * i + 3) = 255) /\
    draw (Some data0) this = Some image /\
    draw (Some image) this = Some image.
Proof.
  intros this data data0.
  assert (Z.of_nat (length data) = 4 * len (u this)) as Hlen by reflexivity.
  assert (length data0 = length data) as Hlen0 by reflexivity.
  split; [exact (conj Hlen Hlen0)|].
  destruct (draw_fills_image this data data0 Hlen Hlen0)
    as (Hnone & image & Hd & Hl & Hpx & Hd0 & Hagain).
  split; [exact Hnone|]. exists image.
  split; [exact Hd|]. split; [exact Hl|].
  split; [intros i Hi; apply (Hpx i Hi)|]. split; [exact Hd0 | exact Hagain].
Defined.

(** A click, a frame, a resize and a drag after the construction. *)
Lemma app_keeps_shape_witness :
  let es :=
    [MouseDown (Some (10, 10)%R); Frame (fun _ _ => 0.5%R);
     Resize (Some (96, 36)) (fun _ => 0.5%R); MouseMove (Some (50, 50)%R)] in
  let app :=
    handleAll es (appSetupCanvas (Some (48, 36)) (fun _ => 0.5%R) newApp) in
  (0 < 48 /\ 0 < 36 /\ Forall sized es) /\
  shape (sim app) /\
  exists d, offscreenImageData app = Some d /\
            Z.of_nat (length d) = 4 * (gridSizeX (sim app) * gridSizeY (sim app)).
Proof.
  intros es app.
  assert (Forall sized es) as Hes.
  { constructor; [exact I|]. constructor; [exact I|].
    constructor; [split; lia|]. constructor; [exact I|].
    constructor. }
  assert (0 < 48) as Hw by lia. assert (0 < 36) as Hh by lia.
  split; [exact (conj Hw (conj Hh Hes))|].
  exact (app_keeps_shape 48 36 (fun _ => 0.5%R) es Hw Hh Hes).
Defined.

(** Two drags of 40 pixels, each after a click. *)
Lemma warning_shown_once_witness :
  let es :=
    [MouseDown (Some (0, 0)%R); MouseMove (Some (40, 0)%R);
     MouseDown (Some (0, 0)%R); MouseMove (Some (40, 0)%R)] in
  let app' := handleAll es newApp in
  warned_once newApp /\
  warned_once app' /\ (alerts app' <= 1)%nat.
Proof.
  intros es app'.
  assert (warned_once newApp) as H0 by reflexivity.
  split; [exact H0|].
  destruct (warning_shown_once es newApp H0) as (A & B & _).
  exact (conj A B).
Defined.

(** A mouse move and a touch move with the button down, before any
    warning. *)
Lemma first_drag_spawns_nothing_witness :
  let app := with_isMouseDownOnCanvas true newApp in
  let es := [MouseMove (Some (40, 0)%R); TouchMove (Some (80, 0)%R)] in
  let app' := handleAll es app in
  (Forall is_move es /\ hasShownEpilepsyWarning app = false) /\
  sim app' = sim app /\ lastSpawnPos app' = lastSpawnPos app.
Proof.
  intros app es app'.
  assert (Forall is_move es) as Hes.
  { constructor; [exact I|]. constructor; [exact I|].
    constructor. }
  assert (hasShownEpilepsyWarning app = false) as Hflag by reflexivity.
  split; [exact (conj Hes Hflag)|].
  destruct (first_drag_spawns_nothing es app Hes Hflag) as (A & B & _).
  exact (conj A B).
Defined.

(** The finest position of the slider in a container of 48 by 36 pixels. *)
Lemma resolution_slider_witness :
  let app' := resolutionChange 5 (Some (48, 36)) (fun _ => 0.5%R) newApp in
  (0 < 48 /\ 0 < 36) /\
  targetCellSize (sim app') = cellSizeOf 5 /\
  gridSizeX (sim app') = Js.ceil_div 48 (cellSizeOf 5) /\
  gridSizeY (sim app') = Js.ceil_div 36 (cellSizeOf 5).
Proof.
  intros app'.
  assert (0 < 48) as Hw by lia. assert (0 < 36) as Hh by lia.
  split; [exact (conj Hw Hh)|].
  destruct (resolution_slider 5 48 36 (fun _ => 0.5%R) newApp Hw Hh)
    as (_ & _ & A & B & C & _).
  exact (conj A (conj B C)).
Defined.

(** * Rounding *)

(** ** Powers of two, binades and the nearest integer *)

Section Rounding.
Local Open Scope R_scope.
Import Ieee.

Lemma bpow_pos e : 0 < bpow e.
Proof. apply powerRZ_lt. lra. Qed.

Lemma bpow_add a b : bpow (a + b) = bpow a * bpow b.
Proof. apply powerRZ_add. lra. Qed.

Lemma bpow_opp a : bpow (- a) = / bpow a.
Proof. apply powerRZ_neg'. Qed.

Lemma bpow_nat n : (0 <= n)%Z -> bpow n = IZR (2 ^ n).
Proof.
  intros Hn. destruct n as [|p|p]; [reflexivity | | lia].
  unfold bpow. change (2 ^ Z.pos p)%Z with (Z.pow_pos 2 p).
  by rewrite Zpower_pos_powerRZ.
Qed.

Lemma bpow_ge_1 n : (0 <= n)%Z -> 1 <= bpow n.
Proof.
  intros Hn. rewrite bpow_nat by done. apply IZR_le.
  pose proof (Z.pow_pos_nonneg 2 n). lia.
Qed.

Lemma bpow_le a b : (a <= b)%Z -> bpow a <= bpow b.
Proof.
  intros Hab. replace b with (a + (b - a))%Z by lia. rewrite bpow_add.
  pose proof (bpow_pos a). pose proof (bpow_ge_1 (b - a) ltac:(lia)). nra.
Qed.

Lemma bpow_lt a b : (a < b)%Z -> bpow a < bpow b.
Proof.
  intros Hab. replace b with (a + (b - a))%Z by lia. rewrite bpow_add.
  pose proof (bpow_pos a).
  assert (2 <= bpow (b - a)).
  { rewrite bpow_nat by lia. apply IZR_le.
    replace (b - a)%Z with (Z.succ (b - a - 1)) by lia.
    rewrite Z.pow_succ_r by lia.
    pose proof (Z.pow_pos_nonneg 2 (b - a - 1)). lia. }
  nra.
Qed.

Lemma ln_2_pos : 0 < ln 2.
Proof. rewrite <- ln_1. apply ln_increasing; lra. Qed.

Lemma bpow_ln e : ln (bpow e) = IZR e * ln 2.
Proof. unfold bpow. rewrite powerRZ_Rpower by lra. apply ln_Rpower. Qed.

Lemma mag2_bounds x :
  x <> 0 -> bpow (mag2 x - 1) <= Rabs x < bpow (mag2 x).
Proof.
  intros Hx. unfold mag2.
  assert (0 < Rabs x) as Hax by (by apply Rabs_pos_lt).
  pose proof ln_2_pos as H2.
  set (L := ln (Rabs x) / ln 2).
  destruct (base_Int_part L) as [Hlo Hhi].
  set (k := Int_part L) in *.
  assert (ln (Rabs x) = L * ln 2) as EL by (unfold L; field; lra).
  replace (k + 1 - 1)%Z with k by lia.
  split.
  - destruct (Rle_lt_dec (bpow k) (Rabs x)) as [|Hlt]; [done|].
    apply ln_increasing in Hlt; [|done]. rewrite bpow_ln, EL in Hlt. nra.
  - apply ln_lt_inv; [done | apply bpow_pos |].
    rewrite bpow_ln, EL, plus_IZR. nra.
Qed.

Lemma mag2_unique x e :
  bpow (e - 1) <= Rabs x < bpow e -> mag2 x = e.
Proof.
  intros [Hlo Hhi].
  assert (x <> 0) as Hx.
  { intros ->. rewrite Rabs_R0 in Hlo. pose proof (bpow_pos (e - 1)). lra. }
  destruct (mag2_bounds x Hx) as [Mlo Mhi].
  destruct (Z.lt_trichotomy (mag2 x) e) as [Hlt | [Heq | Hgt]]; [|done|].
  - pose proof (bpow_le (mag2 x) (e - 1) ltac:(lia)). lra.
  - pose proof (bpow_le e (mag2 x - 1) ltac:(lia)). lra.
Qed.

Lemma Int_part_IZR n : Int_part (IZR n) = n.
Proof. symmetry. apply Int_part_spec. lra. Qed.

Lemma nearest_even_IZR n : nearest_even (IZR n) = n.
Proof.
  unfold nearest_even. rewrite Int_part_IZR.
  destruct (Rlt_dec _ _) as [|Hn]; [done|]. exfalso. apply Hn. lra.
Qed.

Lemma nearest_even_close r n :
  Rabs (r - IZR n) < 1 / 2 -> nearest_even r = n.
Proof.
  intros Hr. apply Rabs_def2 in Hr. destruct Hr as [Hhi Hlo].
  unfold nearest_even.
  destruct (Rle_lt_dec (IZR n) r) as [Hle|Hlt].
  - assert (Int_part r = n) as -> by (symmetry; apply Int_part_spec; lra).
    destruct (Rlt_dec _ _) as [|Hn]; [done|]. lra.
  - assert (Int_part r = (n - 1)%Z) as ->.
    { symmetry. apply Int_part_spec. rewrite minus_IZR. lra. }
    rewrite minus_IZR.
    destruct (Rlt_dec _ _) as [|_]; [lra|].
    destruct (Rgt_dec _ _) as [|Hn]; [lia|]. lra.
Qed.

Lemma nearest_even_error r : Rabs (IZR (nearest_even r) - r) <= 1 / 2.
Proof.
  unfold nearest_even. destruct (base_Int_part r) as [Hlo Hhi].
  set (f := Int_part r) in *.
  destruct (Rlt_dec _ _) as [Hd|Hd].
  - apply Rabs_le. lra.
  - assert (Rabs (IZR (f + 1) - r) <= 1 / 2) as Hup
      by (rewrite plus_IZR; apply Rabs_le; lra).
    destruct (Rgt_dec _ _) as [Hg|Hg]; [done|].
    destruct (Z.even f); [|done]. apply Rabs_le. lra.
Qed.

Lemma rnd_0 p emin : rnd p emin 0 = 0.
Proof. unfold rnd. by destruct (Req_dec_T 0 0). Qed.

(** A number with a significand of fewer than [p] bits is not changed. *)
Lemma rnd_exact p emin m e :
  (Z.abs m < 2 ^ p)%Z -> (emin <= e)%Z ->
  rnd p emin (IZR m * bpow e) = IZR m * bpow e.
Proof.
  intros Hm He. unfold rnd.
  destruct (Req_dec_T _ 0) as [E0|Hne]; [done|].
  assert (m <> 0%Z) as Hm0 by (intros ->; apply Hne; lra).
  set (k := (Z.log2 (Z.abs m) + 1)%Z).
  destruct (Z.log2_spec (Z.abs m) ltac:(lia)) as [Klo Khi].
  pose proof (Z.log2_nonneg (Z.abs m)) as Hk0.
  replace (Z.succ (Z.log2 (Z.abs m))) with k in Khi by (unfold k; lia).
  replace (Z.log2 (Z.abs m)) with (k - 1)%Z in Klo by (unfold k; lia).
  assert (k <= p)%Z as Hkp.
  { destruct (Z.le_gt_cases k p) as [|Hgt]; [done|].
    pose proof (Z.pow_le_mono_r 2 p (k - 1) ltac:(lia) ltac:(lia)). lia. }
  assert (mag2 (IZR m * bpow e) = (e + k)%Z) as ->.
  { apply mag2_unique. pose proof (bpow_pos e) as He0.
    rewrite Rabs_mult, (Rabs_pos_eq (bpow e)) by lra.
    rewrite <- abs_IZR.
    replace (e + k - 1)%Z with ((k - 1) + e)%Z by lia.
    replace (e + k)%Z with (k + e)%Z by lia.
    assert (1 <= k)%Z as Hk1 by (unfold k; lia).
    rewrite !bpow_add, (bpow_nat (k - 1)), (bpow_nat k) by lia.
    apply IZR_le in Klo. apply IZR_lt in Khi. nra. }
  set (e' := Z.max (e + k - p) emin).
  assert (e' <= e)%Z as He' by (unfold e'; lia).
  assert (bpow e = IZR (2 ^ (e - e')) * bpow e') as Ee.
  { rewrite <- bpow_nat by lia. rewrite <- bpow_add. f_equal. lia. }
  pose proof (bpow_pos e') as Hpos.
  replace (IZR m * bpow e / bpow e') with (IZR (m * 2 ^ (e - e'))).
  2:{ rewrite mult_IZR, Ee. field. lra. }
  rewrite nearest_even_IZR, mult_IZR, Ee. ring.
Qed.

(** The value of a rounding, from the binade of the argument and the
    integer nearest to its scaled value. *)
Lemma rnd_eval p emin x e m :
  bpow (e + p - 1) <= Rabs x < bpow (e + p) -> (emin <= e)%Z ->
  Rabs (x / bpow e - IZR m) < 1 / 2 ->
  rnd p emin x = IZR m * bpow e.
Proof.
  intros Hx He Hm. unfold rnd.
  destruct (Req_dec_T x 0) as [->|_].
  { rewrite Rabs_R0 in Hx. pose proof (bpow_pos (e + p - 1)). lra. }
  rewrite (mag2_unique x (e + p)) by done.
  replace (Z.max (e + p - p) emin) with e by lia.
  by rewrite (nearest_even_close _ m).
Qed.

(** The relative error of a rounding in the normal range. *)
Lemma rnd_error p emin x :
  bpow (emin + p - 1) <= Rabs x ->
  Rabs (rnd p emin x - x) <= bpow (- p) * Rabs x.
Proof.
  intros Hx. unfold rnd.
  destruct (Req_dec_T x 0) as [->|Hne].
  { rewrite Rabs_R0 in Hx. pose proof (bpow_pos (emin + p - 1)). lra. }
  destruct (mag2_bounds x Hne) as [Mlo Mhi].
  assert (emin + p <= mag2 x)%Z as Hmag.
  { destruct (Z.le_gt_cases (emin + p) (mag2 x)) as [|Hgt]; [done|].
    pose proof (bpow_le (mag2 x) (emin + p - 1) ltac:(lia)). lra. }
  replace (Z.max (mag2 x - p) emin) with (mag2 x - p)%Z by lia.
  set (e := (mag2 x - p)%Z) in *.
  pose proof (bpow_pos e) as Hpos.
  pose proof (nearest_even_error (x / bpow e)) as Herr.
  set (n := nearest_even (x / bpow e)) in *.
  replace (IZR n * bpow e - x) with ((IZR n - x / bpow e) * bpow e)
    by (field; lra).
  rewrite Rabs_mult, (Rabs_pos_eq (bpow e)) by lra.
  assert (bpow e = 2 * (bpow (- p) * bpow (mag2 x - 1))) as Ee.
  { replace e with (1 + (- p + (mag2 x - 1)))%Z by (unfold e; lia).
    rewrite !bpow_add. f_equal. unfold bpow. simpl. lra. }
  pose proof (bpow_pos (- p)). pose proof (Rabs_pos (IZR n - x / bpow e)).
  nra.
Qed.

End Rounding.

(** ** Literals *)

Lemma bpow_neg_lit p : Ieee.bpow (Z.neg p) = (/ IZR (Z.pow_pos 2 p))%R.
Proof.
  change (Z.neg p) with (- Z.pos p). rewrite bpow_opp. f_equal.
  by rewrite bpow_nat.
Qed.

Lemma bpow_pos_lit p : Ieee.bpow (Z.pos p) = IZR (Z.pow_pos 2 p).
Proof. by rewrite bpow_nat. Qed.

Lemma bpow_0 : Ieee.bpow 0 = 1%R.
Proof. reflexivity. Qed.

(** The powers of two of the goal with a literal exponent, as numerals. *)
Ltac bpow_eval :=
  repeat match goal with
  | |- context [Ieee.bpow (Z.neg ?p)] =>
      rewrite (bpow_neg_lit p);
      let n := eval vm_compute in (Z.pow_pos 2 p) in
      change (Z.pow_pos 2 p) with n
  | |- context [Ieee.bpow (Z.pos ?p)] =>
      rewrite (bpow_pos_lit p);
      let n := eval vm_compute in (Z.pow_pos 2 p) in
      change (Z.pow_pos 2 p) with n
  | |- context [Ieee.bpow 0] => rewrite bpow_0
  end.

Section Literals.
Local Open Scope R_scope.

Lemma binary64_IZR n : (Z.abs n < 2 ^ 53)%Z -> Ieee.binary64 (IZR n) = IZR n.
Proof.
  intros Hn. unfold Ieee.binary64.
  replace (IZR n) with (IZR n * Ieee.bpow 0) at 1 by (rewrite bpow_0; ring).
  rewrite rnd_exact by (done || lia). rewrite bpow_0. ring.
Qed.

Lemma binary64_0 : Ieee.binary64 0 = 0.
Proof. apply rnd_0. Qed.

Lemma binary32_0 : Ieee.binary32 0 = 0.
Proof. apply rnd_0. Qed.

(** A cell of a [Float32Array] is read without rounding. *)
Lemma F32_binary64 x : Ieee.F32 x -> Ieee.binary64 x = x.
Proof.
  intros (m & e & -> & Hm & He). apply rnd_exact; [|lia].
  pose proof (Z.pow_lt_mono_r 2 24 53). lia.
Qed.

Lemma F32_1 : Ieee.F32 1.
Proof.
  exists 1%Z, 0%Z. split; [rewrite bpow_0; ring|]. split; [reflexivity | lia].
Qed.

Lemma F32_0 : Ieee.F32 0.
Proof.
  exists 0%Z, 0%Z. split; [ring|]. split; [reflexivity | lia].
Qed.

(** The literal [0.2] of line 231, as a JavaScript number. *)
Lemma binary64_fifth :
  Ieee.binary64 0.2 = 7205759403792794 * Ieee.bpow (-55).
Proof.
  unfold Ieee.binary64. apply rnd_eval; [| lia |].
  - rewrite Rabs_pos_eq by lra.
    replace (-55 + 53 - 1)%Z with (-3)%Z by lia.
    replace (-55 + 53)%Z with (-2)%Z by lia. bpow_eval. lra.
  - bpow_eval. apply Rabs_def1; lra.
Qed.

Lemma binary64_fifth_idem :
  Ieee.binary64 (Ieee.binary64 0.2) = Ieee.binary64 0.2.
Proof. rewrite binary64_fifth. apply rnd_exact; [reflexivity | lia]. Qed.

Lemma fifth_bounds :
  0.2 <= Ieee.binary64 0.2 <= 0.2000000000000001.
Proof. rewrite binary64_fifth. bpow_eval. lra. Qed.

(** The same number in a cell of a [Float32Array]. *)
Lemma binary32_fifth :
  Ieee.binary32 (Ieee.binary64 0.2) = 13421773 / 67108864.
Proof.
  rewrite binary64_fifth. unfold Ieee.binary32.
  rewrite (rnd_eval 24 (-149) _ (-26) 13421773); [bpow_eval; lra | | lia |].
  - rewrite Rabs_pos_eq by (bpow_eval; lra).
    replace (-26 + 24 - 1)%Z with (-3)%Z by lia.
    replace (-26 + 24)%Z with (-2)%Z by lia. bpow_eval. lra.
  - bpow_eval. apply Rabs_def1; lra.
Qed.

End Literals.

(** ** The injector in IEEE arithmetic *)

Section IeeeInjector.
Variable M : Ieee.MathLib.
Variable s : Sim.
Variables x1 y1 winding : R.
Let w := gridSizeX s.
Let h := gridSizeY s.

(** While the loop runs, the cells of index below [k] hold their new value
    and the others their old one; the lengths stay. *)
Let upto (k : Z) (t : Sim) : Prop :=
  same_lengths s t /\
  (forall x y, 0 <= x < w -> 0 <= y < h -> y * w + x < k ->
     get (u t) (y * w + x) =
       Ieee.imprintU M w h x1 y1 winding x y
         (get (u s) (y * w + x)) (get (v s) (y * w + x)) /\
     get (v t) (y * w + x) =
       Ieee.imprintV M w h x1 y1 winding x y
         (get (u s) (y * w + x)) (get (v s) (y * w + x))) /\
  (forall i, k <= i -> get (u t) i = get (u s) i /\ get (v t) i = get (v s) i).

Lemma Ieee_imprintCell_upto x y t :
  shape s -> 0 <= x < w -> 0 <= y < h ->
  upto (y * w + x) t ->
  upto (y * w + x + 1) (Ieee.imprintCell M w h x1 y1 winding x y t).
Proof.
  intros (SU & SV & _) Hx Hy ((LU & LV & LUN & LVN) & Hdone & Htodo).
  pose proof (cell_index_in_range w h x y Hx Hy) as Hin.
  destruct (Htodo (y * w + x) ltac:(lia)) as [EU EV].
  assert (u (Ieee.imprintCell M w h x1 y1 winding x y t) =
            set (u t) (y * w + x)
              (Ieee.imprintU M w h x1 y1 winding x y
                 (get (u s) (y * w + x)) (get (v s) (y * w + x))) /\
          v (Ieee.imprintCell M w h x1 y1 winding x y t) =
            set (v t) (y * w + x)
              (Ieee.imprintV M w h x1 y1 winding x y
                 (get (u s) (y * w + x)) (get (v s) (y * w + x))) /\
          uNext (Ieee.imprintCell M w h x1 y1 winding x y t) = uNext t /\
          vNext (Ieee.imprintCell M w h x1 y1 winding x y t) = vNext t)
    as (EU' & EV' & EUN & EVN).
  { unfold Ieee.imprintCell, Ieee.imprintU, Ieee.imprintV. simpl.
    rewrite EU, EV. done. }
  split.
  { unfold same_lengths. rewrite EU', EV', EUN, EVN, !len_set. done. }
  rewrite EU', EV'. split.
  - intros x' y' Hx' Hy' Hlt.
    destruct (Z.eq_dec (y' * w + x') (y * w + x)) as [E|E].
    + destruct (cell_index_inj w x' y' x y Hx' Hx E) as [-> ->].
      rewrite !get_set_eq; [done | |]; fold w h in SU, SV; lia.
    + rewrite !get_set_ne by done. apply Hdone; [done | done | lia].
  - intros i Hi. rewrite !get_set_ne by lia. apply Htodo. lia.
Qed.

Lemma Ieee_imprint_loop_spec :
  shape s -> 0 <= w -> 0 <= h ->
  let t :=
    for_range h
      (fun y => for_range w (fun x => Ieee.imprintCell M w h x1 y1 winding x y))
      s in
  same_lengths s t /\
  forall x y, 0 <= x < w -> 0 <= y < h ->
    get (u t) (y * w + x) =
      Ieee.imprintU M w h x1 y1 winding x y
        (get (u s) (y * w + x)) (get (v s) (y * w + x)) /\
    get (v t) (y * w + x) =
      Ieee.imprintV M w h x1 y1 winding x y
        (get (u s) (y * w + x)) (get (v s) (y * w + x)).
Proof.
  intros Hshape Hw Hh t.
  assert (upto (h * w) t) as (Hlen & Hdone & _).
  { subst t. apply grid_loop_ind; [done | done | |].
    - split; [apply same_lengths_refl|]. split; [intros; lia | done].
    - intros x y t Hx Hy Ht. by apply Ieee_imprintCell_upto. }
  split; [done|]. intros x y Hx Hy. apply Hdone; [done | done |].
  pose proof (cell_index_in_range w h x y Hx Hy). lia.
Qed.
End IeeeInjector.

Section IeeeCore.
Local Open Scope R_scope.
Variable M : Ieee.MathLib.
Hypothesis HM : Ieee.ecma M.

(** The cell at the centre: no displacement on the grid of 4 cells. *)
Lemma Ieee_shortest_0 : Ieee.shortest 0 4 = 0.
Proof.
  unfold Ieee.shortest, Ieee.div.
  replace (IZR 4 / 2) with (IZR 2) by lra.
  replace (- IZR 4 / 2) with (IZR (-2)) by lra.
  rewrite !binary64_IZR by (cbn; lia).
  destruct (Rgt_dec 0 (IZR 2)) as [H|_]; [lra|].
  destruct (Rlt_dec 0 (IZR (-2))) as [H|_]; [lra | done].
Qed.

(** At distance zero from the centre the injector stores the cell times
    the literal [0.2], rounded twice: as a JavaScript number and as a cell
    of the [Float32Array]. *)
Lemma Ieee_imprint_centre winding u_ v_ :
  Ieee.F32 u_ -> Ieee.F32 v_ ->
  Ieee.imprintU M 4 4 2 2 winding 2 2 u_ v_
    = Ieee.binary32 (Ieee.mul u_ (Ieee.binary64 0.2)) /\
  Ieee.imprintV M 4 4 2 2 winding 2 2 u_ v_
    = Ieee.binary32 (Ieee.mul v_ (Ieee.binary64 0.2)).
Proof.
  intros Hu Hv. destruct HM as (Hsqrt & Hatan & Htanh & Hcos & Hsin).
  unfold Ieee.imprintU, Ieee.imprintV.
  assert (Ieee.sub (IZR 2) 2 = 0) as ->.
  { unfold Ieee.sub. replace (IZR 2 - 2) with 0 by lra. apply binary64_0. }
  rewrite Ieee_shortest_0. cbv zeta. rewrite Hatan.
  assert (forall a, Ieee.mul 0 a = 0) as Hmul0l.
  { intros a. unfold Ieee.mul. rewrite Rmult_0_l. apply binary64_0. }
  assert (forall a, Ieee.mul a 0 = 0) as Hmul0r.
  { intros a. unfold Ieee.mul. rewrite Rmult_0_r. apply binary64_0. }
  assert (forall a, Ieee.F32 a -> Ieee.mul a 1 = a) as Hmul1.
  { intros a Ha. unfold Ieee.mul. rewrite Rmult_1_r. by apply F32_binary64. }
  assert (Ieee.add 0 0 = 0) as Hadd0.
  { unfold Ieee.add. rewrite Rplus_0_l. apply binary64_0. }
  rewrite !Hmul0l, Hadd0, Hsqrt.
  assert (Ieee.div 0 4 = 0) as ->.
  { unfold Ieee.div. replace (0 / 4) with 0 by lra. apply binary64_0. }
  rewrite Rmin_right by lra. rewrite Htanh, Hmul0r, Hcos, Hsin.
  assert (Ieee.add (Ieee.binary64 0.2) 0 = Ieee.binary64 0.2) as ->.
  { unfold Ieee.add. rewrite Rplus_0_r, binary64_fifth.
    apply rnd_exact; [|lia]. reflexivity. }
  rewrite !Hmul0r, !Hmul1 by done.
  assert (Ieee.sub u_ 0 = u_) as ->.
  { unfold Ieee.sub. rewrite Rminus_0_r. by apply F32_binary64. }
  assert (Ieee.add 0 v_ = v_) as ->.
  { unfold Ieee.add. rewrite Rplus_0_l. by apply F32_binary64. }
  done.
Qed.

End IeeeCore.

Section IeeeBounds.
Local Open Scope R_scope.

Lemma Rabs_near a b e : Rabs (a - b) <= e -> Rabs b - e <= Rabs a <= Rabs b + e.
Proof.
  unfold Rabs. destruct (Rcase_abs (a - b)), (Rcase_abs a), (Rcase_abs b); lra.
Qed.

Lemma Rabs_square x : Rabs x * Rabs x = x * x.
Proof. unfold Rabs. destruct (Rcase_abs x); ring. Qed.

(** Components that shrink by a factor between [lo] and [hi] give a
    magnitude that shrinks by such a factor. *)
Lemma mag_between lo hi u_ v_ u' v' :
  0 <= lo <= hi ->
  lo * Rabs u_ <= Rabs u' <= hi * Rabs u_ ->
  lo * Rabs v_ <= Rabs v' <= hi * Rabs v_ ->
  lo * mag u_ v_ <= mag u' v' <= hi * mag u_ v_.
Proof.
  intros Hlo Hu Hv.
  pose proof (Rabs_pos u_). pose proof (Rabs_pos v_).
  pose proof (Rabs_pos u'). pose proof (Rabs_pos v').
  destruct Hlo as [Hlo Hhi]. assert (0 <= hi) as Hhi0 by lra.
  rewrite <- (mag_scale lo), <- (mag_scale hi) by done.
  assert (forall k a, k * a * (k * a) = k * Rabs a * (k * Rabs a)) as Esq.
  { intros k a. transitivity (k * k * (Rabs a * Rabs a)); [|ring].
    rewrite Rabs_square. ring. }
  unfold mag. rewrite <- (Rabs_square u'), <- (Rabs_square v').
  rewrite (Esq lo u_), (Esq lo v_), (Esq hi u_), (Esq hi v_).
  assert (forall a b, 0 <= a <= b -> a * a <= b * b) as Hsq
    by (intros a b Hab; nra).
  pose proof (Hsq (lo * Rabs u_) (Rabs u') ltac:(nra)).
  pose proof (Hsq (lo * Rabs v_) (Rabs v') ltac:(nra)).
  pose proof (Hsq (Rabs u') (hi * Rabs u_) ltac:(nra)).
  pose proof (Hsq (Rabs v') (hi * Rabs v_) ltac:(nra)).
  split; apply sqrt_le_1_alt; lra.
Qed.

End IeeeBounds.

Section IeeeFifth.
Local Open Scope R_scope.

(** A cell that is zero or in the normal range of the [Float32Array], times
    the literal [0.2] and stored: one fifth of it, up to one part in ten
    million. *)
Lemma fifth_component a :
  a = 0 \/ Ieee.bpow (-123) <= Rabs a ->
  0.1999999 * Rabs a
    <= Rabs (Ieee.binary32 (Ieee.mul a (Ieee.binary64 0.2)))
    <= 0.2000001 * Rabs a.
Proof.
  intros [->|Ha].
  { unfold Ieee.mul. rewrite Rmult_0_l, binary64_0, binary32_0, Rabs_R0. lra. }
  rewrite binary64_fifth. unfold Ieee.mul, Ieee.binary64, Ieee.binary32.
  replace (7205759403792794 * Ieee.bpow (-55))
    with (7205759403792794 / 36028797018963968) by (bpow_eval; lra).
  set (d := 7205759403792794 / 36028797018963968).
  assert (0.2 <= d <= 0.2000000000000001) as Hd by (unfold d; lra).
  pose proof (Rabs_pos a) as Ha0.
  pose proof (bpow_pos (-123)) as Hb.
  assert (Ieee.bpow (-126) = Ieee.bpow (-123) / 8) as E126.
  { replace (-126)%Z with (-123 + -3)%Z by lia. rewrite bpow_add.
    bpow_eval. lra. }
  pose proof (bpow_le (-1074 + 53 - 1) (-126) ltac:(lia)) as Hmin.
  assert (Rabs (a * d) = Rabs a * d) as Ex.
  { rewrite Rabs_mult, (Rabs_pos_eq d) by lra. done. }
  assert (0.2 * Rabs a <= Rabs a * d <= 0.2000000000000001 * Rabs a) as Hx
    by nra.
  pose proof (rnd_error 53 (-1074) (a * d) ltac:(rewrite Ex; lra)) as H64.
  set (y := Ieee.rnd 53 (-1074) (a * d)) in *.
  apply Rabs_near in H64. rewrite Ex in H64.
  set (X := Rabs a * d) in *.
  assert (Ieee.bpow (-53) = / 9007199254740992) as E53 by (bpow_eval; lra).
  change (Z.opp 53) with (Z.neg 53) in H64. rewrite E53 in H64.
  pose proof (rnd_error 24 (-149) y) as H32.
  replace (-149 + 24 - 1)%Z with (-126)%Z in H32 by lia.
  specialize (H32 ltac:(lra)).
  apply Rabs_near in H32.
  assert (Ieee.bpow (-24) = / 16777216) as E24 by (bpow_eval; lra).
  change (Z.opp 24) with (Z.neg 24) in H32. rewrite E24 in H32. lra.
Qed.

End IeeeFifth.

(** The centre cell of the 4 by 4 scenario in IEEE arithmetic. *)
Lemma Ieee_imprint_4x4_centre M s :
  Ieee.ecma M -> shape s -> gridSizeX s = 4 -> gridSizeY s = 4 ->
  Ieee.F32 (get (u s) (2 * 4 + 2)) -> Ieee.F32 (get (v s) (2 * 4 + 2)) ->
  let t := Ieee.imprintSingleVortex M 2 2 1 s in
  gridSizeX t = 4 /\
  get (u t) (2 * 4 + 2) =
    Ieee.binary32 (Ieee.mul (get (u s) (2 * 4 + 2)) (Ieee.binary64 0.2)) /\
  get (v t) (2 * 4 + 2) =
    Ieee.binary32 (Ieee.mul (get (v s) (2 * 4 + 2)) (Ieee.binary64 0.2)).
Proof.
  intros HM Hshape HX HY Fu Fv t.
  assert (Js.rem (Ieee.add 2 (IZR 4)) (IZR 4) = 2%R) as Ecentre.
  { unfold Ieee.add. replace (2 + IZR 4)%R with (IZR 6) by lra.
    rewrite binary64_IZR by (cbn; lia). rewrite (rem_eval _ _ 1); lra. }
  assert (gridSizeX t = 4) as HXt.
  { rewrite <- HX. subst t. unfold Ieee.imprintSingleVortex.
    apply (for_range_inv (fun t => gridSizeX t = gridSizeX s)); [done|].
    intros y t Hy Ht.
    apply (for_range_inv (fun t => gridSizeX t = gridSizeX s)); [done|].
    intros x t' Hx Ht'. exact Ht'. }
  split; [done|].
  destruct (Ieee_imprint_loop_spec M s 2 2 1 Hshape) as [_ Hcells];
    [lia | lia |].
  specialize (Hcells 2 2 ltac:(lia) ltac:(lia)).
  rewrite HX, HY in Hcells.
  subst t. unfold Ieee.imprintSingleVortex. rewrite HX, HY, Ecentre.
  destruct Hcells as [-> ->]. by apply Ieee_imprint_centre.
Qed.

(** The library that rounds correctly has the values that ECMAScript
    fixes. *)
Lemma libm_ecma : Ieee.ecma Ieee.libm.
Proof.
  unfold Ieee.ecma, Ieee.libm. simpl.
  rewrite sqrt_0, tanh_zero, cos_0, sin_0.
  replace (Js.atan2 0 0) with 0%R
    by (unfold Js.atan2; repeat destruct (Rlt_dec _ _); lra).
  rewrite binary64_0. change 1%R with (IZR 1).
  rewrite binary64_IZR by (cbn; lia). done.
Qed.

(** C5, as stated, fails: on the 4 by 4 grid whose cells all hold 1 + 0i the
    program stores into cell (2, 2) the literal [0.2] rounded to a cell of
    the [Float32Array], which is 13421773 / 2^26 = 0.20000000298..., more
    than 0.2 times the magnitude 1 that the cell had. *)
Lemma imprint_4x4_core_above_fifth :
  let s := uniform 4 4 1 0 in
  let t := Ieee.imprintSingleVortex Ieee.libm 2 2 1 s in
  magAt s 2 2 = 1%R /\ magAt t 2 2 = (13421773 / 67108864)%R /\
  ~ (magAt t 2 2 <= 0.2 * magAt s 2 2)%R.
Proof.
  intros s t.
  pose proof libm_ecma as HM.
  assert (shape s) as Hshape by (apply uniform_shape; lia).
  destruct (uniform_cells 4 4 1 0 (2 * 4 + 2) ltac:(lia)) as [Eu Ev].
  fold s in Eu, Ev.
  destruct (Ieee_imprint_4x4_centre Ieee.libm s HM Hshape eq_refl eq_refl)
    as (HX & EU & EV).
  { rewrite Eu. apply F32_1. }
  { rewrite Ev. apply F32_0. }
  fold t in HX, EU, EV. rewrite Eu in EU. rewrite Ev in EV.
  assert (magAt s 2 2 = 1%R) as Es by (by apply magAt_uniform).
  assert (magAt t 2 2 = (13421773 / 67108864)%R) as Et.
  { unfold magAt. rewrite HX, EU, EV. unfold Ieee.mul.
    rewrite Rmult_1_l, Rmult_0_l, binary64_0, binary32_0.
    rewrite binary64_fifth_idem, binary32_fifth.
    unfold mag. replace (_ + _)%R
      with ((13421773 / 67108864) * (13421773 / 67108864))%R by lra.
    apply sqrt_square. lra. }
  split; [done|]. split; [done|]. rewrite Es, Et. lra.
Qed.

(** C5, amended.  On a 4 by 4 grid, after [imprint(2, 2, +1)] the cell
    (2, 2) holds each of its two parts times the literal [0.2], rounded as
    the program rounds: to a JavaScript number and then to a cell of the
    [Float32Array].  For parts that are zero or at least [2 ^ -123] in
    absolute value (the normal range) the magnitude of the cell is 0.2
    times the magnitude it had up to one part in ten million; it can be
    above 0.2 times that magnitude, as for the cell 1 + 0i, which becomes
    13421773 / 2^26. *)
Theorem imprint_4x4_core_rounded (M : Ieee.MathLib) (s : Sim) :
  Ieee.ecma M -> shape s -> gridSizeX s = 4 -> gridSizeY s = 4 ->
  let i := 2 * 4 + 2 in
  Ieee.F32 (get (u s) i) -> Ieee.F32 (get (v s) i) ->
  (get (u s) i = 0 \/ Ieee.bpow (-123) <= Rabs (get (u s) i))%R ->
  (get (v s) i = 0 \/ Ieee.bpow (-123) <= Rabs (get (v s) i))%R ->
  let t := Ieee.imprintSingleVortex M 2 2 1 s in
  get (u t) i = Ieee.binary32 (Ieee.mul (get (u s) i) (Ieee.binary64 0.2)) /\
  get (v t) i = Ieee.binary32 (Ieee.mul (get (v s) i) (Ieee.binary64 0.2)) /\
  (0.1999999 * magAt s 2 2 <= magAt t 2 2 <= 0.2000001 * magAt s 2 2)%R /\
  (get (u s) i = 1%R -> get (v s) i = 0%R ->
   magAt t 2 2 = (13421773 / 67108864)%R /\
   (0.2 * magAt s 2 2 < magAt t 2 2)%R).
Proof.
  intros HM Hshape HX HY i Fu Fv Nu Nv t.
  destruct (Ieee_imprint_4x4_centre M s HM Hshape HX HY Fu Fv)
    as (HXt & EU & EV).
  fold t i in HXt, EU, EV.
  split; [done|]. split; [done|].
  assert (magAt s 2 2 = mag (get (u s) i) (get (v s) i)) as Es
    by (unfold magAt; by rewrite HX).
  assert (magAt t 2 2 = mag (get (u t) i) (get (v t) i)) as Et
    by (unfold magAt; by rewrite HXt).
  split.
  - rewrite Es, Et, EU, EV.
    apply mag_between; [lra | by apply fifth_component..].
  - intros E1 E0. rewrite Es, Et, EU, EV, E1, E0. unfold Ieee.mul.
    rewrite Rmult_1_l, Rmult_0_l, binary64_0, binary32_0.
    rewrite binary64_fifth_idem, binary32_fifth.
    assert (mag 1 0 = 1%R) as ->.
    { unfold mag. replace (1 * 1 + 0 * 0)%R with 1%R by ring. apply sqrt_1. }
    assert (mag (13421773 / 67108864) 0 = (13421773 / 67108864)%R) as ->.
    { unfold mag. replace (_ + _)%R
        with ((13421773 / 67108864) * (13421773 / 67108864))%R by lra.
      apply sqrt_square. lra. }
    split; [done | lra].
Qed.

(** ** The distance of the injector and the distance on the torus *)

Section TorusDistance.
Local Open Scope R_scope.

(** A displacement of at most half the circle that differs from the plain
    difference by whole turns has the length of the distance on the
    circle. *)
Lemma circle_turns d (n k : Z) dx :
  (0 < n)%Z -> Rabs dx <= IZR n / 2 -> dx = d + IZR k * IZR n ->
  Torus.circle d n = Rabs dx.
Proof.
  intros Hn Hdx Ek. apply IZR_lt in Hn. unfold Torus.circle.
  destruct (base_Int_part (d / IZR n)) as [Flo Fhi].
  set (f := Int_part (d / IZR n)) in *.
  assert (d = d / IZR n * IZR n) as Ed by (field; lra).
  set (q := d / IZR n) in *.
  set (r := d - IZR n * IZR f).
  assert (0 <= r < IZR n) as Hr by (unfold r; rewrite Ed; nra).
  apply Rabs_le_bounds in Hdx.
  assert (dx - r = IZR (k + f) * IZR n) as Ej
    by (unfold r; rewrite Ek, plus_IZR; ring).
  set (j := (k + f)%Z) in *.
  assert (j = (-1)%Z \/ j = 0%Z) as [Hj|Hj].
  { assert (-2 < IZR j < 1) as [H1 H2] by nra.
    apply lt_IZR in H1, H2. lia. }
  - rewrite Hj in Ej. rewrite Rmin_right by lra.
    rewrite Rabs_left1 by lra. lra.
  - rewrite Hj in Ej. rewrite Rmin_left by lra.
    rewrite Rabs_pos_eq by lra. lra.
Qed.

(** The displacement that the injector computes on one axis, for a centre
    that is not below minus the extent. *)
Lemma displacement_turns (n : Z) c (x : Z) :
  (0 <= x < n)%Z -> - IZR n <= c ->
  let d := shortest (IZR x - Js.rem (c + IZR n) (IZR n)) n in
  Rabs d <= IZR n / 2 /\ exists k : Z, d = IZR x - c + IZR k * IZR n.
Proof.
  intros Hx Hc d.
  assert (0 < n)%Z as Hn by lia. pose proof (IZR_lt _ _ Hn) as Hn'.
  destruct (rem_range (c + IZR n) (IZR n)) as [H1 [z Ez]]; [lra | lra |].
  assert (0 <= IZR x <= IZR n - 1) as Hx'
    by (split; [apply IZR_le; lia | rewrite <- minus_IZR; apply IZR_le; lia]).
  destruct (shortest_range (IZR x - Js.rem (c + IZR n) (IZR n)) n Hn)
    as [B [j J]]; [lra|].
  fold d in B, J. split; [done|]. exists (z - 1 + j)%Z.
  rewrite J, Ez, plus_IZR, minus_IZR. ring.
Qed.

(** For such centres the distance of the injector is the distance on the
    torus, the least distance from the cell to a copy of the centre. *)
Lemma distance_torus s cx cy x y :
  (0 <= x < gridSizeX s)%Z -> (0 <= y < gridSizeY s)%Z ->
  - IZR (gridSizeX s) <= cx -> - IZR (gridSizeY s) <= cy ->
  distance s cx cy x y = Torus.distance (gridSizeX s) (gridSizeY s) cx cy x y /\
  forall k m : Z,
    Torus.distance (gridSizeX s) (gridSizeY s) cx cy x y
    <= sqrt ((IZR x - cx + IZR k * IZR (gridSizeX s))
             * (IZR x - cx + IZR k * IZR (gridSizeX s))
             + (IZR y - cy + IZR m * IZR (gridSizeY s))
               * (IZR y - cy + IZR m * IZR (gridSizeY s))).
Proof.
  intros Hx Hy Hcx Hcy.
  set (w := gridSizeX s) in *. set (h := gridSizeY s) in *.
  destruct (displacement_turns w cx x Hx Hcx) as [Bx [kx Kx]].
  destruct (displacement_turns h cy y Hy Hcy) as [By [ky Ky]].
  cbv zeta in Bx, Kx, By, Ky.
  assert (distance s cx cy x y =
            sqrt (Rabs (dx1 w (Js.rem (cx + IZR w) (IZR w)) x)
                  * Rabs (dx1 w (Js.rem (cx + IZR w) (IZR w)) x)
                  + Rabs (dy1 h (Js.rem (cy + IZR h) (IZR h)) y)
                    * Rabs (dy1 h (Js.rem (cy + IZR h) (IZR h)) y))) as Ed.
  { unfold distance, dist1. fold w h. by rewrite !Rabs_square. }
  unfold dx1, dy1 in Ed.
  set (dx := shortest (IZR x - Js.rem (cx + IZR w) (IZR w)) w) in *.
  set (dy := shortest (IZR y - Js.rem (cy + IZR h) (IZR h)) h) in *.
  assert (Torus.distance w h cx cy x y
          = sqrt (Rabs dx * Rabs dx + Rabs dy * Rabs dy)) as Et.
  { unfold Torus.distance.
    rewrite (circle_turns (IZR x - cx) w kx dx) by (done || lia).
    rewrite (circle_turns (IZR y - cy) h ky dy) by (done || lia). done. }
  split; [by rewrite Ed, Et|].
  intros k m. rewrite Et. apply sqrt_le_1_alt.
  pose proof (Rabs_turns dx w (k - kx) ltac:(lia) Bx) as Tx.
  pose proof (Rabs_turns dy h (m - ky) ltac:(lia) By) as Ty.
  replace (dx + IZR (k - kx) * IZR w) with (IZR x - cx + IZR k * IZR w) in Tx
    by (rewrite Kx, minus_IZR; ring).
  replace (dy + IZR (m - ky) * IZR h) with (IZR y - cy + IZR m * IZR h) in Ty
    by (rewrite Ky, minus_IZR; ring).
  rewrite <- (Rabs_square (IZR x - cx + IZR k * IZR w)).
  rewrite <- (Rabs_square (IZR y - cy + IZR m * IZR h)).
  pose proof (Rabs_pos dx). pose proof (Rabs_pos dy).
  apply Rplus_le_compat; nra.
Qed.

End TorusDistance.

(** X23. For a centre that is not below minus the width and minus the
    height, the distance that the injector uses for a cell is the distance
    on the torus, the least distance from the cell to a copy of the centre
    moved by whole widths and heights; the injector multiplies the
    magnitude of the cell by the soft-core profile at that distance,
    whatever the winding number, a factor between 0.19 and 0.81. *)
Theorem imprint_scales_by_torus_distance (cx cy winding : R) (s : Sim)
    (x y : Z) :
  shape s -> 0 <= x < gridSizeX s -> 0 <= y < gridSizeY s ->
  (- IZR (gridSizeX s) <= cx)%R -> (- IZR (gridSizeY s) <= cy)%R ->
  let t := imprintSingleVortex cx cy winding s in
  let d := Torus.distance (gridSizeX s) (gridSizeY s) cx cy x y in
  (forall k m : Z,
     d <= sqrt ((IZR x - cx + IZR k * IZR (gridSizeX s))
                * (IZR x - cx + IZR k * IZR (gridSizeX s))
                + (IZR y - cy + IZR m * IZR (gridSizeY s))
                  * (IZR y - cy + IZR m * IZR (gridSizeY s))))%R /\
  (magAt t x y = softProfile d * magAt s x y)%R /\
  (forall winding',
     magAt (imprintSingleVortex cx cy winding' s) x y = magAt t x y) /\
  (0.19 * magAt s x y <= magAt t x y <= 0.81 * magAt s x y)%R.
Proof.
  intros Hshape Hx Hy Hcx Hcy t d.
  destruct (distance_torus s cx cy x y Hx Hy Hcx Hcy) as [Ed Hleast].
  fold d in Ed, Hleast.
  assert (forall winding',
            magAt (imprintSingleVortex cx cy winding' s) x y
            = (softProfile d * magAt s x y)%R) as Hmag
    by (intros winding'; rewrite magAt_imprint by done; by rewrite Ed).
  split; [done|]. split; [apply Hmag|].
  split; [intros winding'; unfold t; by rewrite !Hmag|].
  unfold t. rewrite Hmag.
  assert (0 <= d)%R as Hd by (apply sqrt_pos).
  destruct (softProfile_range d Hd) as [[Hlo Hhi] Hmax].
  pose proof (mag_nonneg (get (u s) (y * gridSizeX s + x))
                (get (v s) (y * gridSizeX s + x))) as Hm.
  fold (magAt s x y) in Hm. split; nra.
Qed.

Section FailingCentre.
Local Open Scope R_scope.








End FailingCentre.


(** ** The renderer and the sign of zero *)

Section SignedRender.
Local Open Scope R_scope.

Lemma hue2rgb_flat p t : hue2rgb p p t = p.
Proof.
  unfold hue2rgb. cbv zeta.
  repeat match goal with
  | |- context [Rlt_dec ?a ?b] => destruct (Rlt_dec a b)
  | |- context [Rgt_dec ?a ?b] => destruct (Rgt_dec a b)
  end; ring.
Qed.

(** Lightness zero is black, whatever the hue. *)
Lemma hsl_black h l : l = 0 -> hslToRgb h 1.0 l = (0, 0, 0)%Z.
Proof.
  intros ->. unfold hslToRgb.
  destruct (Req_dec_T 1.0 0) as [H10|_]; [lra|].
  rewrite hsl_full_saturation by lra.
  replace (2 * 0 - 2 * 0) with (2 * 0) by lra.
  rewrite !hue2rgb_flat.
  replace (2 * 0 * 255) with (IZR 0) by lra. by rewrite round_Z.
Qed.

Lemma atan2_zero_zero : Js.atan2 0 0 = 0.
Proof. unfold Js.atan2. repeat destruct (Rlt_dec _ _); lra. Qed.

Lemma signed_lightness u_ v_ :
  Signed.cellLightness u_ v_ = lightness (Signed.val u_) (Signed.val v_).
Proof. reflexivity. Qed.

Lemma lightness_zero : lightness 0 0 / 100 = 0.
Proof.
  unfold lightness, mag. replace (0 * 0 + 0 * 0) with 0 by ring.
  rewrite sqrt_0, Rmin_right by lra. lra.
Qed.

(** The sign of a zero does not change the colour of a cell: where it
    changes the phase, either both phases have the hue 180 or the cell is
    black. *)
Lemma signed_pixel_plain u_ v_ :
  Signed.pixel u_ v_ = pixel (Signed.val u_) (Signed.val v_).
Proof.
  unfold Signed.pixel, pixel. rewrite signed_lightness.
  destruct v_ as [y|], u_ as [x|]; simpl Signed.val.
  - reflexivity.
  - unfold Signed.cellHue, Signed.atan2.
    destruct (Rlt_dec 0 y) as [Hy|Hy].
    { unfold cellHue, hue, Js.atan2.
      destruct (Rlt_dec 0 0); [lra|]. destruct (Rlt_dec 0 0); [lra|].
      destruct (Rlt_dec 0 y); [done | lra]. }
    destruct (Rlt_dec y 0) as [Hy'|Hy'].
    { unfold cellHue, hue, Js.atan2.
      destruct (Rlt_dec 0 0); [lra|]. destruct (Rlt_dec 0 0); [lra|].
      destruct (Rlt_dec 0 y); [lra|]. destruct (Rlt_dec y 0); [done | lra]. }
    assert (y = 0) as -> by lra.
    rewrite !hsl_black by apply lightness_zero. done.
  - unfold Signed.cellHue, Signed.atan2.
    destruct (Rlt_dec x 0) as [Hx|Hx].
    { fold (hue (- PI)). rewrite hue_minus_PI.
      unfold cellHue. rewrite atan2_zero_neg by done. by rewrite hue_PI. }
    fold (hue 0). unfold cellHue.
    destruct (Req_dec x 0) as [->|Hx0]; [by rewrite atan2_zero_zero|].
    rewrite atan2_zero_pos by lra. done.
  - rewrite !hsl_black by apply lightness_zero. done.
Qed.

End SignedRender.

Lemma for_range_ext {S : Type} n (body body' : Z -> S -> S) s :
  (forall i t, 0 <= i < n -> body i t = body' i t) ->
  for_range n body s = for_range n body' s.
Proof.
  intros Hbody. destruct (Z.le_gt_cases 0 n) as [Hn|Hn].
  - apply (for_range_ind
             (fun k t => for_range k body s = t) n body' s); [done | done |].
    intros i t Hi <-. rewrite for_range_succ by lia. by apply Hbody.
  - by rewrite !for_range_nonpos by lia.
Qed.

Lemma signed_get_val (a : list Signed.num) i :
  Signed.val (Signed.get a i) = get (map Signed.val a) i.
Proof.
  unfold Signed.get, get. destruct (i <? 0); [done|].
  change 0%R with (Signed.val (Signed.Num 0)) at 2. by rewrite map_nth.
Qed.

(** The pixel loop on cells with a signed zero writes what the pixel loop
    writes when the signs are forgotten. *)
Lemma signed_drawCell_plain us vs this i d :
  Signed.drawCell us vs i d = drawCell (Signed.forget us vs this) i d.
Proof.
  unfold Signed.drawCell, drawCell.
  change (hslToRgb _ 1.0 _) with (Signed.pixel (Signed.get us i) (Signed.get vs i))
    at 1.
  rewrite signed_pixel_plain, !signed_get_val. reflexivity.
Qed.

Lemma signed_draw_plain image us vs this :
  Signed.draw image us vs = draw image (Signed.forget us vs this).
Proof.
  destruct image as [d|]; [|done]. unfold Signed.draw, draw. f_equal.
  replace (len (u (Signed.forget us vs this))) with (Z.of_nat (length us))
    by (unfold Signed.forget, len; simpl; by rewrite length_map).
  apply for_range_ext. intros i t _. apply signed_drawCell_plain.
Qed.

(** C8.  A cell whose phase [atan2(im, re)] is [PI] and a cell whose phase
    is [-PI] get the same hue from [draw], 180, and so the colour of the
    hue 180 at their lightness: the same colour when their magnitudes are
    equal.  The phase [-PI] is the phase of the cells with a negative real
    part and the imaginary part [-0], so the field is one of cells with a
    signed zero; [draw] gives it the image that it gives to the field
    without the signs. *)
Theorem draw_hue_wraps (us vs : list Signed.num) (data : list Z) (i j : Z) :
  Z.of_nat (length data) = 4 * Z.of_nat (length us) ->
  0 <= i < Z.of_nat (length us) -> 0 <= j < Z.of_nat (length us) ->
  Signed.atan2 (Signed.get vs i) (Signed.get us i) = PI ->
  Signed.atan2 (Signed.get vs j) (Signed.get us j) = (- PI)%R ->
  let li := Signed.cellLightness (Signed.get us i) (Signed.get vs i) in
  let lj := Signed.cellLightness (Signed.get us j) (Signed.get vs j) in
  Signed.cellHue (Signed.get us i) (Signed.get vs i) = 180%R /\
  Signed.cellHue (Signed.get us j) (Signed.get vs j) = 180%R /\
  exists image,
    Signed.draw (Some data) us vs = Some image /\
    (get8 image (4 * i), get8 image (4 * i + 1), get8 image (4 * i + 2))
      = hslToRgb (180 / 360) 1.0 (li / 100) /\
    (get8 image (4 * j), get8 image (4 * j + 1), get8 image (4 * j + 2))
      = hslToRgb (180 / 360) 1.0 (lj / 100) /\
    (li = lj ->
     (get8 image (4 * i), get8 image (4 * i + 1), get8 image (4 * i + 2))
       = (get8 image (4 * j), get8 image (4 * j + 1), get8 image (4 * j + 2)))
    /\
    forall this, draw (Some data) (Signed.forget us vs this) = Some image.
Proof.
  intros Hlen Hi Hj Pi Pj li lj.
  assert (Signed.cellHue (Signed.get us i) (Signed.get vs i) = 180%R) as Hhi.
  { unfold Signed.cellHue. rewrite Pi. apply hue_PI. }
  assert (Signed.cellHue (Signed.get us j) (Signed.get vs j) = 180%R) as Hhj.
  { unfold Signed.cellHue. rewrite Pj. apply hue_minus_PI. }
  split; [done|]. split; [done|].
  set (this0 := Signed.forget us vs (uniform 0 0 0 0)).
  assert (len (u this0) = Z.of_nat (length us)) as Hlen0
    by (unfold this0, Signed.forget, len; simpl; by rewrite length_map).
  destruct (draw_loop_spec this0 data ltac:(lia)) as [_ Hcells].
  set (image := for_range (len (u this0)) (drawCell this0) data) in *.
  assert (forall k, 0 <= k < Z.of_nat (length us) ->
            (get8 image (4 * k), get8 image (4 * k + 1), get8 image (4 * k + 2))
            = Signed.pixel (Signed.get us k) (Signed.get vs k)) as Hpx.
  { intros k Hk. specialize (Hcells k ltac:(lia)).
    rewrite signed_pixel_plain, !signed_get_val.
    change (map Signed.val us) with (u this0).
    change (map Signed.val vs) with (v this0).
    destruct (pixel _ _) as [[r g] b].
    destruct Hcells as (-> & -> & -> & _). done. }
  exists image.
  split; [by rewrite (signed_draw_plain _ us vs (uniform 0 0 0 0))|].
  assert ((get8 image (4 * i), get8 image (4 * i + 1), get8 image (4 * i + 2))
          = hslToRgb (180 / 360) 1.0 (li / 100)) as Ei.
  { rewrite Hpx by done. unfold Signed.pixel. by rewrite Hhi. }
  assert ((get8 image (4 * j), get8 image (4 * j + 1), get8 image (4 * j + 2))
          = hslToRgb (180 / 360) 1.0 (lj / 100)) as Ej.
  { rewrite Hpx by done. unfold Signed.pixel. by rewrite Hhj. }
  split; [done|]. split; [done|].
  split; [intros El; by rewrite Ei, Ej, El|].
  intros this. rewrite <- (signed_draw_plain _ us vs this).
  by rewrite (signed_draw_plain _ us vs (uniform 0 0 0 0)).
Qed.

(** * The theorems on rounding, the torus and the signed zero at concrete
    inputs *)

(** The 4 by 4 grid whose cells all hold 1 + 0i, with the library that
    rounds correctly. *)
Lemma imprint_4x4_core_rounded_witness :
  let s := uniform 4 4 1 0 in
  let i := 2 * 4 + 2 in
  let t := Ieee.imprintSingleVortex Ieee.libm 2 2 1 s in
  (Ieee.ecma Ieee.libm /\ shape s /\ gridSizeX s = 4 /\ gridSizeY s = 4 /\
   Ieee.F32 (get (u s) i) /\ Ieee.F32 (get (v s) i) /\
   (get (u s) i = 0 \/ Ieee.bpow (-123) <= Rabs (get (u s) i))%R /\
   (get (v s) i = 0 \/ Ieee.bpow (-123) <= Rabs (get (v s) i))%R) /\
  get (u t) i = Ieee.binary32 (Ieee.mul (get (u s) i) (Ieee.binary64 0.2)) /\
  get (v t) i = Ieee.binary32 (Ieee.mul (get (v s) i) (Ieee.binary64 0.2)) /\
  (0.1999999 * magAt s 2 2 <= magAt t 2 2 <= 0.2000001 * magAt s 2 2)%R /\
  magAt t 2 2 = (13421773 / 67108864)%R /\
  (0.2 * magAt s 2 2 < magAt t 2 2)%R.
Proof.
  intros s i t.
  pose proof libm_ecma as HM.
  assert (shape s) as Hshape by (apply uniform_shape; lia).
  destruct (uniform_cells 4 4 1 0 i ltac:(unfold i; lia)) as [Eu Ev].
  fold s in Eu, Ev.
  assert (Ieee.F32 (get (u s) i)) as Fu by (rewrite Eu; apply F32_1).
  assert (Ieee.F32 (get (v s) i)) as Fv by (rewrite Ev; apply F32_0).
  assert (get (u s) i = 0 \/ Ieee.bpow (-123) <= Rabs (get (u s) i))%R as Nu.
  { right. rewrite Eu, Rabs_R1.
    pose proof (bpow_le (-123) 0 ltac:(lia)) as H. rewrite bpow_0 in H.
    exact H. }
  assert (get (v s) i = 0 \/ Ieee.bpow (-123) <= Rabs (get (v s) i))%R as Nv
    by (left; exact Ev).
  split.
  { exact (conj HM (conj Hshape (conj eq_refl (conj eq_refl
             (conj Fu (conj Fv (conj Nu Nv))))))). }
  destruct (imprint_4x4_core_rounded Ieee.libm s HM Hshape eq_refl eq_refl
              Fu Fv Nu Nv) as (A & B & C & D).
  destruct (D Eu Ev) as [D1 D2].
  exact (conj A (conj B (conj C (conj D1 D2)))).
Defined.

(** The centre (2, 2) of the 4 by 4 grid, seen from the corner (0, 0). *)
Lemma imprint_scales_by_torus_distance_witness :
  let s := uniform 4 4 1 0 in
  let t := imprintSingleVortex 2 2 1 s in
  let d := Torus.distance (gridSizeX s) (gridSizeY s) 2 2 0 0 in
  (shape s /\ 0 <= 0 < gridSizeX s /\ 0 <= 0 < gridSizeY s /\
   (- IZR (gridSizeX s) <= 2)%R /\ (- IZR (gridSizeY s) <= 2)%R) /\
  (magAt t 0 0 = softProfile d * magAt s 0 0)%R /\
  (forall winding',
     magAt (imprintSingleVortex 2 2 winding' s) 0 0 = magAt t 0 0) /\
  (0.19 * magAt s 0 0 <= magAt t 0 0 <= 0.81 * magAt s 0 0)%R.
Proof.
  intros s t d.
  assert (shape s) as Hshape by (apply uniform_shape; lia).
  assert (0 <= 0 < gridSizeX s) as Hx by (cbn; lia).
  assert (0 <= 0 < gridSizeY s) as Hy by (cbn; lia).
  assert (- IZR (gridSizeX s) <= 2)%R as Hcx by (cbn; lra).
  assert (- IZR (gridSizeY s) <= 2)%R as Hcy by (cbn; lra).
  split; [exact (conj Hshape (conj Hx (conj Hy (conj Hcx Hcy))))|].
  destruct (imprint_scales_by_torus_distance 2 2 1 s 0 0 Hshape Hx Hy Hcx Hcy)
    as (_ & A & B & C).
  exact (conj A (conj B C)).
Defined.

(** Two cells on the negative real axis, -1 + 0i and -1 - 0i, drawn into an
    image of zeros. *)
Lemma draw_hue_wraps_witness :
  let us := [Signed.Num (-1); Signed.Num (-1)] in
  let vs := [Signed.Num 0; Signed.NegZero] in
  let data := replicate 8 0 in
  (Z.of_nat (length data) = 4 * Z.of_nat (length us) /\
   0 <= 0 < Z.of_nat (length us) /\ 0 <= 1 < Z.of_nat (length us) /\
   Signed.atan2 (Signed.get vs 0) (Signed.get us 0) = PI /\
   Signed.atan2 (Signed.get vs 1) (Signed.get us 1) = (- PI)%R) /\
  Signed.cellHue (Signed.get us 0) (Signed.get vs 0) = 180%R /\
  Signed.cellHue (Signed.get us 1) (Signed.get vs 1) = 180%R /\
  exists image,
    Signed.draw (Some data) us vs = Some image /\
    (get8 image (4 * 0), get8 image (4 * 0 + 1), get8 image (4 * 0 + 2))
      = (get8 image (4 * 1), get8 image (4 * 1 + 1), get8 image (4 * 1 + 2)).
Proof.
  intros us vs data.
  assert (Z.of_nat (length data) = 4 * Z.of_nat (length us)) as Hlen
    by reflexivity.
  assert (0 <= 0 < Z.of_nat (length us)) as Hi by (cbn; lia).
  assert (0 <= 1 < Z.of_nat (length us)) as Hj by (cbn; lia).
  assert (Signed.atan2 (Signed.get vs 0) (Signed.get us 0) = PI) as Pi
    by (change (Signed.get vs 0) with (Signed.Num 0);
        change (Signed.get us 0) with (Signed.Num (-1));
        apply atan2_zero_neg; lra).
  assert (Signed.atan2 (Signed.get vs 1) (Signed.get us 1) = (- PI)%R) as Pj.
  { change (Signed.get vs 1) with Signed.NegZero.
    change (Signed.get us 1) with (Signed.Num (-1)). unfold Signed.atan2.
    destruct (Rlt_dec (-1) 0) as [_|H]; [reflexivity | lra]. }
  split; [exact (conj Hlen (conj Hi (conj Hj (conj Pi Pj))))|].
  destruct (draw_hue_wraps us vs data 0 1 Hlen Hi Hj Pi Pj)
    as (A & B & image & Hd & _ & _ & Hsame & _).
  split; [exact A|]. split; [exact B|].
  exists image. split; [exact Hd|]. apply Hsame. reflexivity.
Defined.
